(** * repoctl: the dependency graph of pacman/graph and its factory

    A shallow embedding of the Go package [graph] (the graph data
    structure and [Factory.NewGraph], the resolution loop), with the
    properties of its specification stated and settled against it.

    Conventions of the embedding.
    - Go's [int] is modelled as [Z] with 64-bit two's-complement
      wrap-around ([wrap_int]).
    - A Go map is a [gmap]; looking up a missing key yields the zero value,
      which is written out at every use ([default]).
    - A [*Node] is modelled by its value.  Within one graph every node
      made by [NewNode] has its own identifier, so pointer equality and
      value equality coincide there.
    - A Go panic is an outcome of its own, [Panic], which keeps the state
      the panicking call left behind.
    - The loop of [Factory.NewGraph] need not end, so it takes fuel: one
      unit per pass, with [OutOfFuel] when none is left.
    - [aur.ReadAll] is a parameter: any function from the number of
      requests sent so far and the names asked for to an answer.
      [NewFactory] only reads the package databases through other
      packages; the embedding starts from a factory value. *)

From stdpp Require Import gmap strings list fin_maps.
From Stdlib Require Import ZArith Lia.

Open Scope string_scope.
Open Scope list_scope.
Open Scope Z_scope.

(** ** Machine integers *)

Definition wrap_int (z : Z) : Z := (z + 2 ^ 63) mod 2 ^ 64 - 2 ^ 63.

(** ** Package records *)

(** Modelled from the spec: the origin constants of package [pacman]; only
    [pacman.UnknownOrigin] is named by the code under study. *)
Inductive Origin : Type :=
  | UnknownOrigin
  | LocalOrigin
  | SyncOrigin
  | AUROrigin
  | DatabaseOrigin.

(** Modelled from the spec: [pacman.Package], restricted to the four
    fields this package reads or writes. *)
Record Package : Type := mkPackage {
  Name : string;
  Origin_of : Origin;
  Depends : list string;
  MakeDepends : list string
}.

(** Modelled from the spec: [aur.Package], a package record fetched from
    the remote source, with the capabilities of [pacman.AnyPackage]. *)
Record AurPackage : Type := mkAurPackage {
  aurName : string;
  aurDepends : list string;
  aurMakeDepends : list string
}.

(** [pacman.AnyPackage]: the interface, closed over its two
    implementations, [*pacman.Package] and [*aur.Package]. *)
Inductive AnyPackage : Type :=
  | OfPacman (p : Package)
  | OfAUR (p : AurPackage).

Definition PkgName (p : AnyPackage) : string :=
  match p with OfPacman q => Name q | OfAUR q => aurName q end.

Definition PkgDepends (p : AnyPackage) : list string :=
  match p with OfPacman q => Depends q | OfAUR q => aurDepends q end.

Definition PkgMakeDepends (p : AnyPackage) : list string :=
  match p with OfPacman q => MakeDepends q | OfAUR q => aurMakeDepends q end.

#[global] Instance Origin_eq_dec : EqDecision Origin.
Proof. solve_decision. Defined.
#[global] Instance Package_eq_dec : EqDecision Package.
Proof. solve_decision. Defined.
#[global] Instance AurPackage_eq_dec : EqDecision AurPackage.
Proof. solve_decision. Defined.
#[global] Instance AnyPackage_eq_dec : EqDecision AnyPackage.
Proof. solve_decision. Defined.

(** ** Nodes and edges *)

Record Node : Type := mkNode {
  ID : Z;
  Pkg : AnyPackage
}.

#[global] Instance Node_eq_dec : EqDecision Node.
Proof. solve_decision. Defined.

Definition IsFromAUR (n : Node) : bool :=
  match Pkg n with OfAUR _ => true | OfPacman _ => false end.

Definition NumAllDepends (n : Node) : nat :=
  (length (PkgDepends (Pkg n)) + length (PkgMakeDepends (Pkg n)))%nat.

Definition AllDepends (n : Node) : list string :=
  PkgDepends (Pkg n) ++ PkgMakeDepends (Pkg n).

Record Edge : Type := mkEdge {
  from : Node;
  to : Node
}.

(** ** The graph *)

Record Graph : Type := mkGraph {
  names : gmap string Node;
  nodes : list Node;
  nodeIDs : gmap Z Node;
  edgesFrom : gmap Z (list Node);
  edgesTo : gmap Z (list Node);
  edges : gmap Z (gmap Z Edge);
  nextID : Z
}.

Definition NewGraph : Graph :=
  {| names := ∅; nodes := []; nodeIDs := ∅; edgesFrom := ∅; edgesTo := ∅;
     edges := ∅; nextID := 0 |}.

(** *** Queries *)

Definition Has (g : Graph) (n : Node) : bool :=
  bool_decide (is_Some (nodeIDs g !! ID n)).

Definition HasName (g : Graph) (name : string) : bool :=
  bool_decide (is_Some (names g !! name)).

(** [None] is Go's [nil]. *)
Definition NodeWithName (g : Graph) (name : string) : option Node :=
  names g !! name.

Definition Nodes (g : Graph) : list Node := nodes g.

Definition From (g : Graph) (v : Node) : list Node :=
  default [] (edgesFrom g !! ID v).

Definition To (g : Graph) (v : Node) : list Node :=
  default [] (edgesTo g !! ID v).

Definition HasEdgeFromTo (g : Graph) (u v : Node) : bool :=
  existsb (fun n => bool_decide (n = v)) (default [] (edgesFrom g !! ID u)).

Definition HasEdgeBetween (g : Graph) (u v : Node) : bool :=
  HasEdgeFromTo g u v || HasEdgeFromTo g v u.

Definition EdgeOf (g : Graph) (u v : Node) : option Edge :=
  default ∅ (edges g !! ID u) !! ID v.

(** *** State and panics *)

Inductive Res (S A : Type) : Type :=
  | Val (a : A) (s : S)
  | Panic (msg : string) (s : S).
Arguments Val {S A} a s.
Arguments Panic {S A} msg s.

Definition M (S A : Type) : Type := S -> Res S A.

Definition ret {S A} (a : A) : M S A := fun s => Val a s.

Definition bind {S A B} (m : M S A) (k : A -> M S B) : M S B :=
  fun s => match m s with
           | Val a s' => k a s'
           | Panic msg s' => Panic msg s'
           end.

Definition panic {S A} (msg : string) : M S A := fun s => Panic msg s.

Definition state_of {S A} (r : Res S A) : S :=
  match r with Val _ s => s | Panic _ s => s end.

Declare Scope go_scope.
Delimit Scope go_scope with go.
Notation "x <- m ;; k" := (bind m (fun x => k))
  (at level 100, m at next level, right associativity) : go_scope.
Notation "m ;; k" := (bind m (fun _ => k))
  (at level 100, right associativity) : go_scope.
Open Scope go_scope.

(** [for _, x := range l { acc = f acc x }], where [f] may panic. *)
Fixpoint forM {S A B} (l : list A) (f : B -> A -> M S B) (acc : B) : M S B :=
  match l with
  | [] => ret acc
  | x :: l' => acc' <- f acc x ;; forM l' f acc'
  end.

(** *** Mutators *)

Definition NewNodeID : M Graph Z := fun g =>
  let next := wrap_int (nextID g + 1) in
  Val next
      {| names := names g; nodes := nodes g; nodeIDs := nodeIDs g;
         edgesFrom := edgesFrom g; edgesTo := edgesTo g; edges := edges g;
         nextID := next |}.

Definition NewNode (pkg : AnyPackage) : M Graph Node :=
  i <- NewNodeID ;; ret {| ID := i; Pkg := pkg |}.

(** The source first asserts that its argument is one of this package's
    own nodes; that cannot fail here, [Node] being the only node type of
    the embedding. *)
Definition AddNode (n : Node) : M Graph unit := fun g =>
  if HasName g (PkgName (Pkg n)) then Panic "package name already in graph" g
  else if Has g n then Panic "node id already here" g
  else
    Val tt
        {| names := <[PkgName (Pkg n) := n]> (names g);
           nodes := nodes g ++ [n];
           nodeIDs := <[ID n := n]> (nodeIDs g);
           edgesFrom := <[ID n := []]> (edgesFrom g);
           edgesTo := <[ID n := []]> (edgesTo g);
           edges := <[ID n := ∅]> (edges g);
           nextID := nextID g |}.

(** [g.edges[uid][vid] = ...] writes into the inner map [g.edges[uid]];
    when [uid] has no inner map, that is a write to a nil map and Go
    panics, before anything was changed. *)
Definition AddEdgeFromTo (u v : Node) : M Graph unit := fun g =>
  match edges g !! ID u with
  | None => Panic "assignment to entry in nil map" g
  | Some row =>
      Val tt
          {| names := names g; nodes := nodes g; nodeIDs := nodeIDs g;
             edgesFrom :=
               <[ID u := default [] (edgesFrom g !! ID u) ++ [u]]> (edgesFrom g);
             edgesTo :=
               <[ID v := default [] (edgesTo g !! ID v) ++ [v]]> (edgesTo g);
             edges := <[ID u := <[ID v := {| from := u; to := v |}]> row]> (edges g);
             nextID := nextID g |}
  end.

(** ** The factory *)

(** Modelled from the spec: the error values of package [aur].  The remote
    source reports the names it could not find in a [NotFoundError]; every
    other failure (transport, decoding) is an [OtherError]. *)
Inductive error : Type :=
  | NotFoundError (Names : list string)
  | OtherError (msg : string).

Definition IsNotFound (e : error) : bool :=
  match e with NotFoundError _ => true | OtherError _ => false end.

Definition NotFoundNames (e : error) : list string :=
  match e with NotFoundError l => l | OtherError _ => [] end.

Record Factory : Type := mkFactory {
  local : gmap string Package;
  sync : gmap string Package;
  skipInstalled : bool;
  truncate : bool;
  noUnknown : bool;
  depFunc : AnyPackage -> list string;
  aurCalls : Z
}.

(** The dependency selector [NewFactory] installs. *)
Definition defaultDepFunc (p : AnyPackage) : list string :=
  PkgDepends p ++ PkgMakeDepends p.

Definition SetSkipInstalled (yes : bool) (f : Factory) : Factory :=
  {| local := local f; sync := sync f; skipInstalled := yes;
     truncate := truncate f; noUnknown := noUnknown f; depFunc := depFunc f;
     aurCalls := aurCalls f |}.

Definition SetTruncate (yes : bool) (f : Factory) : Factory :=
  {| local := local f; sync := sync f; skipInstalled := skipInstalled f;
     truncate := yes; noUnknown := noUnknown f; depFunc := depFunc f;
     aurCalls := aurCalls f |}.

Definition SetNoUnknown (yes : bool) (f : Factory) : Factory :=
  {| local := local f; sync := sync f; skipInstalled := skipInstalled f;
     truncate := truncate f; noUnknown := yes; depFunc := depFunc f;
     aurCalls := aurCalls f |}.

Definition SetDependencyFunc (fn : AnyPackage -> list string) (f : Factory)
  : Factory :=
  {| local := local f; sync := sync f; skipInstalled := skipInstalled f;
     truncate := truncate f; noUnknown := noUnknown f; depFunc := fn;
     aurCalls := aurCalls f |}.

Definition NumRequestsAUR (f : Factory) : Z := aurCalls f.

(** What one call of [Factory.NewGraph] can change: the factory's counter,
    the graph under construction, and the outside world, of which the
    model keeps the list of requests sent to the remote source, oldest
    first. *)
Record Env : Type := mkEnv {
  factory : Factory;
  graph : Graph;
  requests : list (list string)
}.

(** Runs a graph method on the graph of the environment. *)
Definition onGraph {A} (m : M Graph A) : M Env A := fun e =>
  match m (graph e) with
  | Val a g => Val a {| factory := factory e; graph := g; requests := requests e |}
  | Panic msg g =>
      Panic msg {| factory := factory e; graph := g; requests := requests e |}
  end.

Definition getGraph : M Env Graph := fun e => Val (graph e) e.

Definition getFactory : M Env Factory := fun e => Val (factory e) e.

(** The locals of one pass of the loop: [new], [unavailable], [pending]. *)
Record Layer : Type := mkLayer {
  new : list Node;
  unavailable : gmap string bool;
  pending : gmap string (list Node)
}.

Definition emptyLayer : Layer :=
  {| new := []; unavailable := ∅; pending := ∅ |}.

(** Go ranges over a map in an order it leaves unspecified; the model
    ranges in the order of [map_to_list].  The remote source below is an
    arbitrary function of the request, so a statement proved for every
    remote source does not depend on that choice. *)
Definition rangeKeys (m : gmap string bool) : list string :=
  (map_to_list m).*1.

(** [make([]string, len(unavailable))] followed by one [append] per key. *)
Definition fromAUR (m : gmap string bool) : list string :=
  replicate (size m) "" ++ rangeKeys m.

Definition unknownPkg (p : string) : AnyPackage :=
  OfPacman {| Name := p; Origin_of := UnknownOrigin; Depends := [];
              MakeDepends := [] |}.

(** How a pass of the loop ends: with the next list of nodes to process,
    or with the [return nil, err] in its middle. *)
Inductive Pass : Type :=
  | Continue (lst : list Node)
  | Abort (err : error).

(** How [Factory.NewGraph] ends.  [Return g err] is the pair the Go function
    returns, [None] standing for [nil]. *)
Inductive Outcome : Type :=
  | Return (g : option Graph) (err : option error)
  | Panicked (msg : string)
  | OutOfFuel.

Section Resolution.

(** [aur.ReadAll], the remote source: given the number of requests
    already sent and the list of names asked for, the packages found and
    the error, if any. *)
Variable ReadAll : nat -> list string -> list AurPackage * option error.

(** The body of the inner loop, for one dependency name [d] of [v]. *)
Definition scanDep (v : Node) (L : Layer) (d : string) : M Env Layer :=
  g <- getGraph ;;
  f <- getFactory ;;
  if HasName g d then
    match NodeWithName g d with
    | Some u => onGraph (AddEdgeFromTo v u) ;; ret L
    | None => panic "invalid memory address or nil pointer dereference"
    end
  else if skipInstalled f && bool_decide (is_Some (local f !! d)) then
    ret L
  else
    match sync f !! d with
    | Some p =>
        u <- onGraph (NewNode (OfPacman p)) ;;
        let L' := if negb (truncate f)
                  then {| new := new L ++ [u]; unavailable := unavailable L;
                          pending := pending L |}
                  else L in
        onGraph (AddEdgeFromTo v u) ;;
        ret L'
    | None =>
        ret {| new := new L;
               unavailable := <[d := true]> (unavailable L);
               pending := <[d := default [] (pending L !! d) ++ [v]]> (pending L) |}
    end.

Definition scanNode (L : Layer) (v : Node) : M Env Layer :=
  f <- getFactory ;;
  forM (depFunc f (Pkg v)) (scanDep v) L.

Definition scan (lst : list Node) : M Env Layer :=
  forM lst scanNode emptyLayer.

Definition addFetchedPkg (L : Layer) (p : AnyPackage) : M Env Layer :=
  u <- onGraph (NewNode p) ;;
  let L' := {| new := new L ++ [u]; unavailable := unavailable L;
               pending := pending L |} in
  onGraph (AddNode u) ;;
  forM (default [] (pending L !! PkgName (Pkg u)))
       (fun _ v => onGraph (AddEdgeFromTo v u)) tt ;;
  ret L'.

(** [f.aurCalls++] and the call of [aur.ReadAll]. *)
Definition fetch (names : list string)
  : M Env (list AurPackage * option error) := fun e =>
  let f := factory e in
  Val (ReadAll (length (requests e)) names)
      {| factory :=
           {| local := local f; sync := sync f;
              skipInstalled := skipInstalled f; truncate := truncate f;
              noUnknown := noUnknown f; depFunc := depFunc f;
              aurCalls := wrap_int (aurCalls f + 1) |};
         graph := graph e;
         requests := requests e ++ [names] |}.

(** One pass of the loop of [Factory.NewGraph] over the list [lst]. *)
Definition layer (lst : list Node) : M Env Pass :=
  L <- scan lst ;;
  r <- fetch (fromAUR (unavailable L)) ;;
  f <- getFactory ;;
  let addAUR (L1 : Layer) : M Env Pass :=
    L2 <- forM (map OfAUR r.1) addFetchedPkg L1 ;;
    ret (Continue (new L2)) in
  match r.2 with
  | Some err =>
      if negb (noUnknown f) && IsNotFound err then
        L1 <- forM (map unknownPkg (NotFoundNames err)) addFetchedPkg L ;;
        addAUR L1
      else ret (Abort err)
  | None => addAUR L
  end.

(** [for len(lst) == 0 { ... }]: the loop, cut off after [fuel] passes. *)
Fixpoint resolve (fuel : nat) (lst : list Node) (e : Env) : Outcome * Env :=
  if bool_decide (length lst = 0%nat) then
    match fuel with
    | O => (OutOfFuel, e)
    | S fuel' =>
        match layer lst e with
        | Val (Continue lst') e' => resolve fuel' lst' e'
        | Val (Abort err) e' => (Return None (Some err), e')
        | Panic msg e' => (Panicked msg, e')
        end
    end
  else (Return (Some (graph e)) None, e).

(** The first loop of [Factory.NewGraph]: a node for every seed package. *)
Definition seedStep (lst : list Node) (p : AurPackage) : M Env (list Node) :=
  v <- onGraph (NewNode (OfAUR p)) ;;
  onGraph (AddNode v) ;;
  ret (lst ++ [v]).

Definition seed (pkgs : list AurPackage) : M Env (list Node) :=
  forM pkgs seedStep [].

(** [Factory.NewGraph], called on factory [f] in a world where [reqs]
    lists the requests the remote source has already received. *)
Definition Factory_NewGraph (fuel : nat) (f : Factory)
    (reqs : list (list string)) (pkgs : list AurPackage) : Outcome * Env :=
  match seed pkgs {| factory := f; graph := NewGraph; requests := reqs |} with
  | Val lst e => resolve fuel lst e
  | Panic msg e => (Panicked msg, e)
  end.

End Resolution.

(** ** Sequences of calls of the graph's mutators *)

(** The exported methods that change a graph.  [NewNode] changes it as
    [NewNodeID] does. *)
Inductive Call : Type :=
  | CallNewNodeID
  | CallAddNode (n : Node)
  | CallAddEdgeFromTo (u v : Node).

(** The graph a call leaves behind, whether it returned or panicked. *)
Definition call (g : Graph) (c : Call) : Graph :=
  match c with
  | CallNewNodeID => state_of (NewNodeID g)
  | CallAddNode n => state_of (AddNode n g)
  | CallAddEdgeFromTo u v => state_of (AddEdgeFromTo u v g)
  end.

Definition calls (cs : list Call) (g : Graph) : Graph := foldl call g cs.

(** No call of the sequence names an identifier as the target of an edge. *)
Definition neverTarget (i : Z) (cs : list Call) : bool :=
  forallb (fun c => match c with
                    | CallAddEdgeFromTo _ w => negb (bool_decide (ID w = i))
                    | _ => true
                    end) cs.

Definition nodeNames (g : Graph) : list string := map (fun n => PkgName (Pkg n)) (Nodes g).

Definition nodeIdents (g : Graph) : list Z := map ID (Nodes g).

(** What the name index, the identifier index and the adjacency buckets
    of a graph have to do with its list of nodes. *)
Record consistent (g : Graph) : Prop := mkConsistent {
  names_sound : forall s n, names g !! s = Some n -> n ∈ nodes g /\ PkgName (Pkg n) = s;
  names_complete : forall n, n ∈ nodes g -> names g !! PkgName (Pkg n) = Some n;
  ids_sound : forall i n, nodeIDs g !! i = Some n -> n ∈ nodes g /\ ID n = i;
  ids_complete : forall n, n ∈ nodes g -> nodeIDs g !! ID n = Some n;
  names_nodup : NoDup (nodeNames g);
  from_dom : forall i, is_Some (edgesFrom g !! i) <-> is_Some (nodeIDs g !! i);
  edges_dom : forall i, is_Some (edges g !! i) <-> is_Some (nodeIDs g !! i)
}.

(** The graph has an edge object under the key [(ID v, ID u)], and it
    leads from a node with the identifier of [v] to [u]. *)
Definition edgeTo (g : Graph) (v u : Node) : Prop :=
  exists x, EdgeOf g v u = Some x /\ ID (from x) = ID v /\ to x = u.

(** What scanning leaves alone, and in which direction it moves the rest:
    between [(L, e)] and a later [(L', e')] the factory, the request log
    and the name and node indices stay, and the pending lists only grow. *)
Record scanned (L : Layer) (e : Env) (L' : Layer) (e' : Env) : Prop := mkScanned {
  sc_factory : factory e' = factory e;
  sc_requests : requests e' = requests e;
  sc_names : names (graph e') = names (graph e);
  sc_nodes : nodes (graph e') = nodes (graph e);
  sc_consistent : consistent (graph e) -> consistent (graph e');
  sc_pending : forall k w,
    w ∈ default [] (pending L !! k) -> w ∈ default [] (pending L' !! k)
}.

(** The test the loop makes before it returns an error of the remote
    source: anything but a not-found error, or any error at all when
    unknown packages are forbidden. *)
Definition fatal (f : Factory) (err : error) : bool :=
  negb (negb (noUnknown f) && IsNotFound err).

(** An answer of the remote source after which a pass over no nodes leaves
    no nodes to process. *)
Definition quiet (f : Factory) (r : list AurPackage * option error) : bool :=
  match r with
  | ([], None) => true
  | ([], Some (NotFoundError [])) => negb (noUnknown f)
  | _ => false
  end.

(** No node of the graph has an outgoing edge object. *)
Definition noEdges (g : Graph) : Prop :=
  forall i row, edges g !! i = Some row -> row = ∅.

(** The packages a pass hands to [addFetchedPkg] for an answer of the
    remote source: placeholders for the names not found, then the packages
    found. *)
Definition answered (r : list AurPackage * option error) : list AnyPackage :=
  match r.2 with
  | Some err => map unknownPkg (NotFoundNames err)
  | None => []
  end ++ map OfAUR r.1.

(** The end of a pass: the loop over what the remote source answered. *)
Definition addAnswered (ps : list AnyPackage) (L : Layer) (e : Env)
  : Res Env Pass :=
  match forM ps addFetchedPkg L e with
  | Val L2 e2 => Val (Continue (new L2)) e2
  | Panic msg e2 => Panic msg e2
  end.

(** How many different names a request holds. *)
Definition distinctNames (l : list string) : nat :=
  size (list_to_set l : gset string).

(** Every node of the graph has an identifier that [NewNodeID] has
    already handed out, and [n] more identifiers can be handed out before
    the counter wraps around. *)
Definition idsBelow (g : Graph) : Prop :=
  forall n, n ∈ nodes g -> ID n <= nextID g.

Definition roomFor (n : nat) (g : Graph) : Prop :=
  - 2 ^ 63 <= nextID g /\ nextID g + Z.of_nat n < 2 ^ 63.

(** ** Concrete packages, graphs and factories *)

(** Two remote packages that depend on each other. *)
Definition pkgA : AurPackage :=
  {| aurName := "a"; aurDepends := ["b"]; aurMakeDepends := [] |}.

Definition pkgB : AurPackage :=
  {| aurName := "b"; aurDepends := ["a"]; aurMakeDepends := [] |}.

Definition nodeA : Node := {| ID := 1; Pkg := OfAUR pkgA |}.

Definition nodeB : Node := {| ID := 2; Pkg := OfAUR pkgB |}.

(** The graph holding [nodeA] and [nodeB] and no edge. *)
Definition graphAB : Graph :=
  calls [CallNewNodeID; CallAddNode nodeA; CallNewNodeID; CallAddNode nodeB]
        NewGraph.

(** [nodeA] was added, [nodeB] was made but never added, and an edge from
    the first to the second was recorded all the same. *)
Definition danglingCalls : list Call :=
  [CallNewNodeID; CallAddNode nodeA; CallNewNodeID;
   CallAddEdgeFromTo nodeA nodeB].

(** A factory with empty databases and the options [NewFactory] sets. *)
Definition plainFactory : Factory :=
  {| local := ∅; sync := ∅; skipInstalled := false; truncate := false;
     noUnknown := false; depFunc := defaultDepFunc; aurCalls := 0 |}.

(** A remote package [x] that needs [y], which a repository has. *)
Definition pkgX : AurPackage :=
  {| aurName := "x"; aurDepends := ["y"]; aurMakeDepends := [] |}.

Definition pkgY : Package :=
  {| Name := "y"; Origin_of := SyncOrigin; Depends := []; MakeDepends := [] |}.

Definition nodeX : Node := {| ID := 1; Pkg := OfAUR pkgX |}.

Definition nodeY : Node := {| ID := 2; Pkg := OfPacman pkgY |}.

Definition syncFactory : Factory :=
  {| local := ∅; sync := {["y" := pkgY]}; skipInstalled := false;
     truncate := false; noUnknown := false; depFunc := defaultDepFunc;
     aurCalls := 0 |}.

(** A remote package that needs a name nobody knows. *)
Definition pkgH : AurPackage :=
  {| aurName := "h"; aurDepends := ["ghost"]; aurMakeDepends := [] |}.

Definition nodeH : Node := {| ID := 1; Pkg := OfAUR pkgH |}.

Definition nodeGhost : Node := {| ID := 2; Pkg := unknownPkg "ghost" |}.

(** Remote sources: one that knows [pkgA] and [pkgB], one that answers
    nothing at all, one that finds nothing, one that cannot be reached. *)
Definition aurAB (_ : nat) (asked : list string)
  : list AurPackage * option error :=
  (filter (fun p => aurName p ∈ asked) [pkgA; pkgB], None).

Definition aurSilent (_ : nat) (_ : list string)
  : list AurPackage * option error := ([], None).

Definition aurNoGhost (_ : nat) (_ : list string)
  : list AurPackage * option error := ([], Some (NotFoundError ["ghost"])).

Definition aurDown (_ : nat) (_ : list string)
  : list AurPackage * option error :=
  ([], Some (OtherError "connection refused")).

(** The environment in which the loop of [Factory.NewGraph] starts. *)
Definition seeded (f : Factory) (pkgs : list AurPackage) : Env :=
  state_of (seed pkgs {| factory := f; graph := NewGraph; requests := [] |}).

(** ** More of the graph package: printing nodes and edges *)

(** [Node.String]. *)
Definition Node_String (n : Node) : string := PkgName (Pkg n).

(** The methods of [Edge].  [Weight] returns the floating-point constant
    0.0 and is left out. *)
Definition Edge_From (e : Edge) : Node := from e.

Definition Edge_To (e : Edge) : Node := to e.

Definition Edge_IsFromAUR (e : Edge) : bool := IsFromAUR (to e).

(** [fmt.Sprintf("%s -> %s", e.from, e.to)], the nodes printing themselves
    through [Node.String]. *)
Definition Edge_String (e : Edge) : string :=
  (Node_String (from e) ++ " -> " ++ Node_String (to e))%string.

(** Every adjacency bucket holds only nodes with the identifier it is
    kept under. *)
Definition bucketsOwn (g : Graph) : Prop :=
  (forall i l w, edgesFrom g !! i = Some l -> w ∈ l -> ID w = i) /\
  (forall i l w, edgesTo g !! i = Some l -> w ∈ l -> ID w = i).

(** Every edge object is kept under the identifiers of its two ends. *)
Definition edgesKeyed (g : Graph) : Prop :=
  forall i row j x, edges g !! i = Some row -> row !! j = Some x ->
                    ID (from x) = i /\ ID (to x) = j.

(** ** More of the factory: [NewFactory] *)

Section NewFactory.

(** The type of the errors the database readers return, and the readers
    themselves, which live in package [pacman]: each is the result of the
    call [NewFactory] makes, or, for [ReadSyncDatabase], a function of the
    repository name.  [ToMap] is the method of [pacman.Packages]. *)
Variable E : Type.
Variable ReadLocalDatabase : E + list Package.
Variable ReadAllSyncDatabases : E + list Package.
Variable EnabledRepositories : E + list string.
Variable ReadSyncDatabase : string -> E + list Package.
Variable ToMap : list Package -> gmap string Package.

(** The loop labelled [nextRepo], with [pkgs] the packages read so far. *)
Fixpoint readEnabled (ignoreRepos enabled : list string) (pkgs : list Package)
  : E + list Package :=
  match enabled with
  | [] => inr pkgs
  | repo :: rest =>
      if existsb (fun ig => bool_decide (repo = ig)) ignoreRepos
      then readEnabled ignoreRepos rest pkgs
      else match ReadSyncDatabase repo with
           | inl err => inl err
           | inr rpkgs => readEnabled ignoreRepos rest (pkgs ++ rpkgs)
           end
  end.

Definition NewFactory (ignoreRepos : list string) : E + Factory :=
  match ReadLocalDatabase with
  | inl err => inl err
  | inr lpkgs =>
      let read :=
        if bool_decide (length ignoreRepos = 0%nat) then ReadAllSyncDatabases
        else match EnabledRepositories with
             | inl err => inl err
             | inr enabled => readEnabled ignoreRepos enabled []
             end in
      match read with
      | inl err => inl err
      | inr pkgs =>
          inr {| local := ToMap lpkgs; sync := ToMap pkgs;
                 skipInstalled := false; truncate := false; noUnknown := false;
                 depFunc := fun p => PkgDepends p ++ PkgMakeDepends p;
                 aurCalls := 0 |}
      end
  end.

End NewFactory.

(** Concrete readers: three repositories, the second of which cannot be
    read. *)
Definition pkgZ : Package :=
  {| Name := "z"; Origin_of := SyncOrigin; Depends := ["y"]; MakeDepends := [] |}.

Definition readRepo (repo : string) : string + list Package :=
  if bool_decide (repo = "core") then inr [pkgY]
  else if bool_decide (repo = "extra") then inr [pkgZ]
  else inl ("cannot read " ++ repo)%string.

Definition listToMap (l : list Package) : gmap string Package :=
  list_to_map (map (fun p => (Name p, p)) l).

(** The nodes the first loop of [Factory.NewGraph] makes for the seed
    packages when the counter of the graph stands at [start]. *)
Fixpoint seedNodes (start : Z) (pkgs : list AurPackage) : list Node :=
  match pkgs with
  | [] => []
  | p :: rest => {| ID := start + 1; Pkg := OfAUR p |} :: seedNodes (start + 1) rest
  end.

(** Between [e] and a later [e'] only edges were added, and none but
    between nodes of the graph: the factory, the request log, the nodes,
    the name index and the counter are the same, and an edge object to a
    node of the graph is still there. *)
Definition onlyLinked (e e' : Env) : Prop :=
  factory e' = factory e /\ requests e' = requests e /\
  names (graph e') = names (graph e) /\ nodes (graph e') = nodes (graph e) /\
  nextID (graph e') = nextID (graph e) /\ consistent (graph e') /\
  forall a b, b ∈ nodes (graph e) -> edgeTo (graph e) a b -> edgeTo (graph e') a b.

(** Two factories with the same maps, options and dependency function. *)
Definition sameOptions (f f' : Factory) : Prop :=
  local f' = local f /\ sync f' = sync f /\
  skipInstalled f' = skipInstalled f /\ truncate f' = truncate f /\
  noUnknown f' = noUnknown f /\ depFunc f' = depFunc f.

(** The nodes [NewNode] makes for the packages [ps], one after the other,
    from a counter that stands at [start]. *)
Fixpoint numbered (start : Z) (ps : list AnyPackage) : list Node :=
  match ps with
  | [] => []
  | p :: rest =>
      {| ID := wrap_int (start + 1); Pkg := p |}
      :: numbered (wrap_int (start + 1)) rest
  end.

(** The counter after [n] calls of [NewNodeID]. *)
Fixpoint counterAfter (n : nat) (start : Z) : Z :=
  match n with
  | O => start
  | S n' => counterAfter n' (wrap_int (start + 1))
  end.

(** The package of the sync map that the scan reaches for the dependency
    name [d], if it does: [d] names no node of the graph, is not skipped
    as installed, and the sync map has it. *)
Definition syncFound (f : Factory) (g : Graph) (d : string) : option Package :=
  if HasName g d then None
  else if skipInstalled f && bool_decide (is_Some (local f !! d)) then None
  else sync f !! d.

(** Those packages for the dependencies of the nodes [lst], in the order
    in which the scan goes through them. *)
Definition syncDeps (f : Factory) (g : Graph) (lst : list Node)
  : list AnyPackage :=
  OfPacman <$> omap (syncFound f g) (flat_map (fun v => depFunc f (Pkg v)) lst).

(** ** Package [pacman]: reading a database entry *)

(** *** Strings *)

(** [strings.HasPrefix] and [strings.HasSuffix], on the bytes of the
    strings. *)
Definition HasPrefix (s prefix : string) : bool :=
  (String.length prefix <=? String.length s)%nat
  && String.eqb (String.substring 0 (String.length prefix) s) prefix.

Definition HasSuffix (s suffix : string) : bool :=
  (String.length suffix <=? String.length s)%nat
  && String.eqb (String.substring (String.length s - String.length suffix)
                           (String.length suffix) s) suffix.

(** [strings.Trim(s, cutset)] for a cutset of one ASCII byte [c], which is
    how Go computes it: the bytes [c] at the right end are cut, then those
    at the left end. *)
Fixpoint trimLeftByte (c : Ascii.ascii) (s : string) : string :=
  match s with
  | EmptyString => EmptyString
  | String a s' => if Ascii.eqb a c then trimLeftByte c s' else s
  end.

Fixpoint trimRightByte (c : Ascii.ascii) (s : string) : string :=
  match s with
  | EmptyString => EmptyString
  | String a s' =>
      match trimRightByte c s' with
      | EmptyString => if Ascii.eqb a c then EmptyString else String a EmptyString
      | r => String a r
      end
  end.

Definition TrimByte (c : Ascii.ascii) (s : string) : string :=
  trimLeftByte c (trimRightByte c s).

(** The byte of the percent sign. *)
Definition percent : Ascii.ascii :=
  Eval cbv in Ascii.ascii_of_nat 37.

(** [HasDatabaseFormat]. *)
Definition HasDatabaseFormat (filename : string) : bool :=
  HasSuffix filename ".db.tar.gz".

(** *** The package record *)

(** [pacman.Package] with every field that
    [readDatabasePkgInfo] sets, named as the source names them ([dbName],
    [dbDepends], [dbMakeDepends] and [dbOrigin] are the fields [Name],
    [Depends], [MakeDepends] and [Origin], which [Package] above already
    has).  A build date is the number of seconds [time.Unix] is given,
    [None] being the zero [time.Time]; a size is an unsigned 64-bit
    number. *)
Record DbPackage : Type := mkDbPackage {
  Filename : string;
  dbName : string;
  Version : string;
  Description : string;
  Base : string;
  URL : string;
  BuildDate : option Z;
  Packager : string;
  Size : Z;
  Arch : string;
  License : string;
  dbDepends : list string;
  OptionalDepends : list string;
  dbMakeDepends : list string;
  CheckDepends : list string;
  Backups : list string;
  Replaces : list string;
  Provides : list string;
  Conflicts : list string;
  Groups : list string;
  dbOrigin : Origin
}.

(** What the graph package sees of such a record. *)
Definition asPackage (p : DbPackage) : Package :=
  {| Name := dbName p; Origin_of := dbOrigin p; Depends := dbDepends p;
     MakeDepends := dbMakeDepends p |}.

(** [Package{Origin: DatabaseOrigin}]: every other field at its zero
    value. *)
Definition emptyDbPackage : DbPackage :=
  {| Filename := "";
     dbName := "";
     Version := "";
     Description := "";
     Base := "";
     URL := "";
     BuildDate := None;
     Packager := "";
     Size := 0;
     Arch := "";
     License := "";
     dbDepends := [];
     OptionalDepends := [];
     dbMakeDepends := [];
     CheckDepends := [];
     Backups := [];
     Replaces := [];
     Provides := [];
     Conflicts := [];
     Groups := [];
     dbOrigin := DatabaseOrigin |}.

(** The assignments of the switch, field by field. *)
Definition setFilename (x : string) (p : DbPackage) : DbPackage :=
  {| Filename := x;
     dbName := dbName p;
     Version := Version p;
     Description := Description p;
     Base := Base p;
     URL := URL p;
     BuildDate := BuildDate p;
     Packager := Packager p;
     Size := Size p;
     Arch := Arch p;
     License := License p;
     dbDepends := dbDepends p;
     OptionalDepends := OptionalDepends p;
     dbMakeDepends := dbMakeDepends p;
     CheckDepends := CheckDepends p;
     Backups := Backups p;
     Replaces := Replaces p;
     Provides := Provides p;
     Conflicts := Conflicts p;
     Groups := Groups p;
     dbOrigin := dbOrigin p |}.

Definition setName (x : string) (p : DbPackage) : DbPackage :=
  {| Filename := Filename p;
     dbName := x;
     Version := Version p;
     Description := Description p;
     Base := Base p;
     URL := URL p;
     BuildDate := BuildDate p;
     Packager := Packager p;
     Size := Size p;
     Arch := Arch p;
     License := License p;
     dbDepends := dbDepends p;
     OptionalDepends := OptionalDepends p;
     dbMakeDepends := dbMakeDepends p;
     CheckDepends := CheckDepends p;
     Backups := Backups p;
     Replaces := Replaces p;
     Provides := Provides p;
     Conflicts := Conflicts p;
     Groups := Groups p;
     dbOrigin := dbOrigin p |}.

Definition setVersion (x : string) (p : DbPackage) : DbPackage :=
  {| Filename := Filename p;
     dbName := dbName p;
     Version := x;
     Description := Description p;
     Base := Base p;
     URL := URL p;
     BuildDate := BuildDate p;
     Packager := Packager p;
     Size := Size p;
     Arch := Arch p;
     License := License p;
     dbDepends := dbDepends p;
     OptionalDepends := OptionalDepends p;
     dbMakeDepends := dbMakeDepends p;
     CheckDepends := CheckDepends p;
     Backups := Backups p;
     Replaces := Replaces p;
     Provides := Provides p;
     Conflicts := Conflicts p;
     Groups := Groups p;
     dbOrigin := dbOrigin p |}.

Definition setDescription (x : string) (p : DbPackage) : DbPackage :=
  {| Filename := Filename p;
     dbName := dbName p;
     Version := Version p;
     Description := x;
     Base := Base p;
     URL := URL p;
     BuildDate := BuildDate p;
     Packager := Packager p;
     Size := Size p;
     Arch := Arch p;
     License := License p;
     dbDepends := dbDepends p;
     OptionalDepends := OptionalDepends p;
     dbMakeDepends := dbMakeDepends p;
     CheckDepends := CheckDepends p;
     Backups := Backups p;
     Replaces := Replaces p;
     Provides := Provides p;
     Conflicts := Conflicts p;
     Groups := Groups p;
     dbOrigin := dbOrigin p |}.

Definition setBase (x : string) (p : DbPackage) : DbPackage :=
  {| Filename := Filename p;
     dbName := dbName p;
     Version := Version p;
     Description := Description p;
     Base := x;
     URL := URL p;
     BuildDate := BuildDate p;
     Packager := Packager p;
     Size := Size p;
     Arch := Arch p;
     License := License p;
     dbDepends := dbDepends p;
     OptionalDepends := OptionalDepends p;
     dbMakeDepends := dbMakeDepends p;
     CheckDepends := CheckDepends p;
     Backups := Backups p;
     Replaces := Replaces p;
     Provides := Provides p;
     Conflicts := Conflicts p;
     Groups := Groups p;
     dbOrigin := dbOrigin p |}.

Definition setURL (x : string) (p : DbPackage) : DbPackage :=
  {| Filename := Filename p;
     dbName := dbName p;
     Version := Version p;
     Description := Description p;
     Base := Base p;
     URL := x;
     BuildDate := BuildDate p;
     Packager := Packager p;
     Size := Size p;
     Arch := Arch p;
     License := License p;
     dbDepends := dbDepends p;
     OptionalDepends := OptionalDepends p;
     dbMakeDepends := dbMakeDepends p;
     CheckDepends := CheckDepends p;
     Backups := Backups p;
     Replaces := Replaces p;
     Provides := Provides p;
     Conflicts := Conflicts p;
     Groups := Groups p;
     dbOrigin := dbOrigin p |}.

Definition setPackager (x : string) (p : DbPackage) : DbPackage :=
  {| Filename := Filename p;
     dbName := dbName p;
     Version := Version p;
     Description := Description p;
     Base := Base p;
     URL := URL p;
     BuildDate := BuildDate p;
     Packager := x;
     Size := Size p;
     Arch := Arch p;
     License := License p;
     dbDepends := dbDepends p;
     OptionalDepends := OptionalDepends p;
     dbMakeDepends := dbMakeDepends p;
     CheckDepends := CheckDepends p;
     Backups := Backups p;
     Replaces := Replaces p;
     Provides := Provides p;
     Conflicts := Conflicts p;
     Groups := Groups p;
     dbOrigin := dbOrigin p |}.

Definition setArch (x : string) (p : DbPackage) : DbPackage :=
  {| Filename := Filename p;
     dbName := dbName p;
     Version := Version p;
     Description := Description p;
     Base := Base p;
     URL := URL p;
     BuildDate := BuildDate p;
     Packager := Packager p;
     Size := Size p;
     Arch := x;
     License := License p;
     dbDepends := dbDepends p;
     OptionalDepends := OptionalDepends p;
     dbMakeDepends := dbMakeDepends p;
     CheckDepends := CheckDepends p;
     Backups := Backups p;
     Replaces := Replaces p;
     Provides := Provides p;
     Conflicts := Conflicts p;
     Groups := Groups p;
     dbOrigin := dbOrigin p |}.

Definition setLicense (x : string) (p : DbPackage) : DbPackage :=
  {| Filename := Filename p;
     dbName := dbName p;
     Version := Version p;
     Description := Description p;
     Base := Base p;
     URL := URL p;
     BuildDate := BuildDate p;
     Packager := Packager p;
     Size := Size p;
     Arch := Arch p;
     License := x;
     dbDepends := dbDepends p;
     OptionalDepends := OptionalDepends p;
     dbMakeDepends := dbMakeDepends p;
     CheckDepends := CheckDepends p;
     Backups := Backups p;
     Replaces := Replaces p;
     Provides := Provides p;
     Conflicts := Conflicts p;
     Groups := Groups p;
     dbOrigin := dbOrigin p |}.

Definition setBuildDate (x : Z) (p : DbPackage) : DbPackage :=
  {| Filename := Filename p;
     dbName := dbName p;
     Version := Version p;
     Description := Description p;
     Base := Base p;
     URL := URL p;
     BuildDate := Some x;
     Packager := Packager p;
     Size := Size p;
     Arch := Arch p;
     License := License p;
     dbDepends := dbDepends p;
     OptionalDepends := OptionalDepends p;
     dbMakeDepends := dbMakeDepends p;
     CheckDepends := CheckDepends p;
     Backups := Backups p;
     Replaces := Replaces p;
     Provides := Provides p;
     Conflicts := Conflicts p;
     Groups := Groups p;
     dbOrigin := dbOrigin p |}.

Definition setSize (x : Z) (p : DbPackage) : DbPackage :=
  {| Filename := Filename p;
     dbName := dbName p;
     Version := Version p;
     Description := Description p;
     Base := Base p;
     URL := URL p;
     BuildDate := BuildDate p;
     Packager := Packager p;
     Size := x;
     Arch := Arch p;
     License := License p;
     dbDepends := dbDepends p;
     OptionalDepends := OptionalDepends p;
     dbMakeDepends := dbMakeDepends p;
     CheckDepends := CheckDepends p;
     Backups := Backups p;
     Replaces := Replaces p;
     Provides := Provides p;
     Conflicts := Conflicts p;
     Groups := Groups p;
     dbOrigin := dbOrigin p |}.

Definition addDepends (x : string) (p : DbPackage) : DbPackage :=
  {| Filename := Filename p;
     dbName := dbName p;
     Version := Version p;
     Description := Description p;
     Base := Base p;
     URL := URL p;
     BuildDate := BuildDate p;
     Packager := Packager p;
     Size := Size p;
     Arch := Arch p;
     License := License p;
     dbDepends := dbDepends p ++ [x];
     OptionalDepends := OptionalDepends p;
     dbMakeDepends := dbMakeDepends p;
     CheckDepends := CheckDepends p;
     Backups := Backups p;
     Replaces := Replaces p;
     Provides := Provides p;
     Conflicts := Conflicts p;
     Groups := Groups p;
     dbOrigin := dbOrigin p |}.

Definition addOptionalDepends (x : string) (p : DbPackage) : DbPackage :=
  {| Filename := Filename p;
     dbName := dbName p;
     Version := Version p;
     Description := Description p;
     Base := Base p;
     URL := URL p;
     BuildDate := BuildDate p;
     Packager := Packager p;
     Size := Size p;
     Arch := Arch p;
     License := License p;
     dbDepends := dbDepends p;
     OptionalDepends := OptionalDepends p ++ [x];
     dbMakeDepends := dbMakeDepends p;
     CheckDepends := CheckDepends p;
     Backups := Backups p;
     Replaces := Replaces p;
     Provides := Provides p;
     Conflicts := Conflicts p;
     Groups := Groups p;
     dbOrigin := dbOrigin p |}.

Definition addMakeDepends (x : string) (p : DbPackage) : DbPackage :=
  {| Filename := Filename p;
     dbName := dbName p;
     Version := Version p;
     Description := Description p;
     Base := Base p;
     URL := URL p;
     BuildDate := BuildDate p;
     Packager := Packager p;
     Size := Size p;
     Arch := Arch p;
     License := License p;
     dbDepends := dbDepends p;
     OptionalDepends := OptionalDepends p;
     dbMakeDepends := dbMakeDepends p ++ [x];
     CheckDepends := CheckDepends p;
     Backups := Backups p;
     Replaces := Replaces p;
     Provides := Provides p;
     Conflicts := Conflicts p;
     Groups := Groups p;
     dbOrigin := dbOrigin p |}.

Definition addCheckDepends (x : string) (p : DbPackage) : DbPackage :=
  {| Filename := Filename p;
     dbName := dbName p;
     Version := Version p;
     Description := Description p;
     Base := Base p;
     URL := URL p;
     BuildDate := BuildDate p;
     Packager := Packager p;
     Size := Size p;
     Arch := Arch p;
     License := License p;
     dbDepends := dbDepends p;
     OptionalDepends := OptionalDepends p;
     dbMakeDepends := dbMakeDepends p;
     CheckDepends := CheckDepends p ++ [x];
     Backups := Backups p;
     Replaces := Replaces p;
     Provides := Provides p;
     Conflicts := Conflicts p;
     Groups := Groups p;
     dbOrigin := dbOrigin p |}.

Definition addBackups (x : string) (p : DbPackage) : DbPackage :=
  {| Filename := Filename p;
     dbName := dbName p;
     Version := Version p;
     Description := Description p;
     Base := Base p;
     URL := URL p;
     BuildDate := BuildDate p;
     Packager := Packager p;
     Size := Size p;
     Arch := Arch p;
     License := License p;
     dbDepends := dbDepends p;
     OptionalDepends := OptionalDepends p;
     dbMakeDepends := dbMakeDepends p;
     CheckDepends := CheckDepends p;
     Backups := Backups p ++ [x];
     Replaces := Replaces p;
     Provides := Provides p;
     Conflicts := Conflicts p;
     Groups := Groups p;
     dbOrigin := dbOrigin p |}.

Definition addReplaces (x : string) (p : DbPackage) : DbPackage :=
  {| Filename := Filename p;
     dbName := dbName p;
     Version := Version p;
     Description := Description p;
     Base := Base p;
     URL := URL p;
     BuildDate := BuildDate p;
     Packager := Packager p;
     Size := Size p;
     Arch := Arch p;
     License := License p;
     dbDepends := dbDepends p;
     OptionalDepends := OptionalDepends p;
     dbMakeDepends := dbMakeDepends p;
     CheckDepends := CheckDepends p;
     Backups := Backups p;
     Replaces := Replaces p ++ [x];
     Provides := Provides p;
     Conflicts := Conflicts p;
     Groups := Groups p;
     dbOrigin := dbOrigin p |}.

Definition addProvides (x : string) (p : DbPackage) : DbPackage :=
  {| Filename := Filename p;
     dbName := dbName p;
     Version := Version p;
     Description := Description p;
     Base := Base p;
     URL := URL p;
     BuildDate := BuildDate p;
     Packager := Packager p;
     Size := Size p;
     Arch := Arch p;
     License := License p;
     dbDepends := dbDepends p;
     OptionalDepends := OptionalDepends p;
     dbMakeDepends := dbMakeDepends p;
     CheckDepends := CheckDepends p;
     Backups := Backups p;
     Replaces := Replaces p;
     Provides := Provides p ++ [x];
     Conflicts := Conflicts p;
     Groups := Groups p;
     dbOrigin := dbOrigin p |}.

Definition addConflicts (x : string) (p : DbPackage) : DbPackage :=
  {| Filename := Filename p;
     dbName := dbName p;
     Version := Version p;
     Description := Description p;
     Base := Base p;
     URL := URL p;
     BuildDate := BuildDate p;
     Packager := Packager p;
     Size := Size p;
     Arch := Arch p;
     License := License p;
     dbDepends := dbDepends p;
     OptionalDepends := OptionalDepends p;
     dbMakeDepends := dbMakeDepends p;
     CheckDepends := CheckDepends p;
     Backups := Backups p;
     Replaces := Replaces p;
     Provides := Provides p;
     Conflicts := Conflicts p ++ [x];
     Groups := Groups p;
     dbOrigin := dbOrigin p |}.

Definition addGroups (x : string) (p : DbPackage) : DbPackage :=
  {| Filename := Filename p;
     dbName := dbName p;
     Version := Version p;
     Description := Description p;
     Base := Base p;
     URL := URL p;
     BuildDate := BuildDate p;
     Packager := Packager p;
     Size := Size p;
     Arch := Arch p;
     License := License p;
     dbDepends := dbDepends p;
     OptionalDepends := OptionalDepends p;
     dbMakeDepends := dbMakeDepends p;
     CheckDepends := CheckDepends p;
     Backups := Backups p;
     Replaces := Replaces p;
     Provides := Provides p;
     Conflicts := Conflicts p;
     Groups := Groups p ++ [x];
     dbOrigin := dbOrigin p |}.

(** *** The reader *)

(** The errors [readDatabasePkgInfo] returns: its own three, which the
    source makes with [fmt.Errorf] from the offending line or field name,
    and the error of the scanner. *)
Inductive DbError (E : Type) : Type :=
  | CannotParseBuildTime (line : string)
  | CannotParseSize (line : string)
  | UnknownField (state : string)
  | ScanError (err : E).
Arguments CannotParseBuildTime {E} line.
Arguments CannotParseSize {E} line.
Arguments UnknownField {E} state.
Arguments ScanError {E} err.

Section ReadDatabase.

(** What the reader takes from Go's library: [strings.TrimSpace],
    [strings.ToLower], [strconv.ParseInt] and [strconv.ParseUint] in base
    10 and 64 bits ([None] when they return an error), [path.Dir] and
    [path.Join]; and the type of the errors of [bufio.Scanner]. *)
Variable E : Type.
Variable TrimSpace : string -> string.
Variable ToLower : string -> string.
Variable ParseInt : string -> option Z.
Variable ParseUint : string -> option Z.
Variable pathDir : string -> string.
Variable pathJoin : string -> string -> string.

(** A line between two percent signs, or one percent sign alone, opens a
    section. *)
Definition isHeader (line : string) : bool :=
  HasPrefix line "%" && HasSuffix line "%".

(** The [switch]: what a line of content does in the section [state]. *)
Definition dbField (dbpath state line : string) (info : DbPackage)
  : DbError E + DbPackage :=
  if String.eqb state "filename" then inr (setFilename (pathJoin (pathDir dbpath) line) info)
  else   if String.eqb state "name" then inr (setName line info)
  else   if String.eqb state "version" then inr (setVersion line info)
  else   if String.eqb state "desc" then inr (setDescription line info)
  else   if String.eqb state "base" then inr (setBase line info)
  else   if String.eqb state "url" then inr (setURL line info)
  else   if String.eqb state "builddate" then match ParseInt line with
         | Some n => inr (setBuildDate n info)
         | None => inl (CannotParseBuildTime line)
         end
  else   if String.eqb state "packager" then inr (setPackager line info)
  else   if String.eqb state "csize" then match ParseUint line with
         | Some n => inr (setSize n info)
         | None => inl (CannotParseSize line)
         end
  else   if String.eqb state "arch" then inr (setArch line info)
  else   if String.eqb state "license" then inr (setLicense line info)
  else   if String.eqb state "depends" then inr (addDepends line info)
  else   if String.eqb state "optdepends" then inr (addOptionalDepends line info)
  else   if String.eqb state "makedepends" then inr (addMakeDepends line info)
  else   if String.eqb state "checkdepends" then inr (addCheckDepends line info)
  else   if String.eqb state "backup" then inr (addBackups line info)
  else   if String.eqb state "replaces" then inr (addReplaces line info)
  else   if String.eqb state "provides" then inr (addProvides line info)
  else   if String.eqb state "conflicts" then inr (addConflicts line info)
  else   if String.eqb state "groups" then inr (addGroups line info)
  else   if String.eqb state "isize" then inr info
  else   if String.eqb state "md5sum" then inr info
  else   if String.eqb state "pgpsig" then inr info
  else   if String.eqb state "sha256sum" then inr info
  else inl (UnknownField state).

(** The loop over the lines the scanner yields, from the section [state]
    and the record [info]: the section and the record at the end, or the
    error of the first line refused. *)
Fixpoint dbLines (dbpath : string) (lines : list string) (state : string)
    (info : DbPackage) : DbError E + string * DbPackage :=
  match lines with
  | [] => inr (state, info)
  | text :: rest =>
      let line := TrimSpace text in
      if String.eqb line "" then dbLines dbpath rest state info
      else if isHeader line
      then dbLines dbpath rest (ToLower (TrimByte percent line)) info
      else match dbField dbpath state line info with
           | inl err => inl err
           | inr info' => dbLines dbpath rest state info'
           end
  end.

(** [readDatabasePkgInfo], on the lines the scanner yields from the reader
    and the error, if any, the scanner ends with. *)
Definition readDatabasePkgInfo (lines : list string) (scanErr : option E)
    (dbpath : string) : DbError E + DbPackage :=
  match dbLines dbpath lines "" emptyDbPackage with
  | inl err => inl err
  | inr (_, info) =>
      match scanErr with
      | Some err => inl (ScanError err)
      | None => inr info
      end
  end.

End ReadDatabase.

(** The names of the sections the switch knows, and those it reads
    without keeping anything. *)
Definition knownFields : list string :=
  ["filename"; "name"; "version"; "desc"; "base"; "url"; "builddate";
   "packager"; "csize"; "arch"; "license"; "depends"; "optdepends";
   "makedepends"; "checkdepends"; "backup"; "replaces"; "provides";
   "conflicts"; "groups"; "isize"; "md5sum"; "pgpsig"; "sha256sum"].

Definition ignoredFields : list string :=
  ["isize"; "md5sum"; "pgpsig"; "sha256sum"].

(** A line of content: not blank once trimmed, and no header. *)
Definition isContent (TrimSpace : string -> string) (text : string) : bool :=
  negb (String.eqb (TrimSpace text) "") && negb (isHeader (TrimSpace text)).

(** A line that opens the section [k]. *)
Definition opensSection (TrimSpace ToLower : string -> string)
    (text k : string) : bool :=
  isHeader (TrimSpace text)
  && String.eqb (ToLower (TrimByte percent (TrimSpace text))) k.

(** Go's [strings.TrimSpace] and [strings.ToLower] on ASCII strings, for
    the examples. *)
Definition isSpaceByte (a : Ascii.ascii) : bool :=
  let n := Ascii.nat_of_ascii a in
  ((9 <=? n) && (n <=? 13) || (n =? 32))%nat.

Fixpoint trimLeftSpace (s : string) : string :=
  match s with
  | EmptyString => EmptyString
  | String a s' => if isSpaceByte a then trimLeftSpace s' else s
  end.

Fixpoint trimRightSpace (s : string) : string :=
  match s with
  | EmptyString => EmptyString
  | String a s' =>
      match trimRightSpace s' with
      | EmptyString => if isSpaceByte a then EmptyString else String a EmptyString
      | r => String a r
      end
  end.

Definition asciiTrimSpace (s : string) : string :=
  trimLeftSpace (trimRightSpace s).

Definition lowerByte (a : Ascii.ascii) : Ascii.ascii :=
  let n := Ascii.nat_of_ascii a in
  if ((65 <=? n) && (n <=? 90))%nat then Ascii.ascii_of_nat (n + 32) else a.

Fixpoint asciiToLower (s : string) : string :=
  match s with
  | EmptyString => EmptyString
  | String a s' => String (lowerByte a) (asciiToLower s')
  end.

(** The reader over those, for the examples. *)
Definition readEntry
  : list string -> option string -> string -> DbError string + DbPackage :=
  readDatabasePkgInfo string asciiTrimSpace asciiToLower
    (fun _ => None) (fun _ => None) (fun p => p)
    (fun dir file => (dir ++ "/" ++ file)%string).

(** The lines of a small database entry. *)
Definition entryLines : list string :=
  ["%NAME%"; "repoctl"; ""; "%VERSION%"; "0.13-1"; ""; "%DEPENDS%"; "pacman";
   "  glibc  "; ""; "%MAKEDEPENDS%"; "go"; ""; "%MD5SUM%"; "d41d8cd98f"].

(** ** Properties of the graph *)

Lemma HasName_true g s : HasName g s = true <-> is_Some (names g !! s).
Proof. unfold HasName. apply bool_decide_eq_true. Qed.

Lemma HasName_false g s : HasName g s = false <-> names g !! s = None.
Proof.
  unfold HasName. rewrite bool_decide_eq_false. symmetry. apply eq_None_not_Some.
Qed.

Lemma Has_true g n : Has g n = true <-> is_Some (nodeIDs g !! ID n).
Proof. unfold Has. apply bool_decide_eq_true. Qed.

Lemma Has_false g n : Has g n = false <-> nodeIDs g !! ID n = None.
Proof.
  unfold Has. rewrite bool_decide_eq_false. symmetry. apply eq_None_not_Some.
Qed.

Lemma AddNode_panics g n msg g' :
  AddNode n g = Panic msg g' ->
  g' = g /\ (HasName g (PkgName (Pkg n)) = true \/ Has g n = true).
Proof.
  unfold AddNode.
  destruct (HasName g (PkgName (Pkg n))) eqn:Hn; [intros [= _ <-]; auto|].
  destruct (Has g n) eqn:Hi; [intros [= _ <-]; auto|]. discriminate.
Qed.

Lemma AddNode_faults g n :
  HasName g (PkgName (Pkg n)) = true \/ Has g n = true ->
  exists msg, AddNode n g = Panic msg g.
Proof.
  unfold AddNode. intros H.
  destruct (HasName g (PkgName (Pkg n))); [eauto|].
  destruct (Has g n); [eauto|]. destruct H; discriminate.
Qed.

Lemma AddNode_returns g n :
  HasName g (PkgName (Pkg n)) = false -> Has g n = false ->
  AddNode n g =
  Val tt {| names := <[PkgName (Pkg n) := n]> (names g);
            nodes := nodes g ++ [n];
            nodeIDs := <[ID n := n]> (nodeIDs g);
            edgesFrom := <[ID n := []]> (edgesFrom g);
            edgesTo := <[ID n := []]> (edgesTo g);
            edges := <[ID n := ∅]> (edges g);
            nextID := nextID g |}.
Proof. unfold AddNode. intros -> ->. reflexivity. Qed.

Lemma consistent_NewGraph : consistent NewGraph.
Proof.
  split; simpl.
  - intros s n. by rewrite lookup_empty.
  - intros n H. by apply elem_of_nil in H.
  - intros i n. by rewrite lookup_empty.
  - intros n H. by apply elem_of_nil in H.
  - constructor.
  - intros i. by rewrite !lookup_empty.
  - intros i. by rewrite !lookup_empty.
Qed.

Lemma consistent_NewNodeID g : consistent g -> consistent (state_of (NewNodeID g)).
Proof. intros [? ? ? ? ? ? ?]. split; simpl; auto. Qed.

Lemma consistent_AddNode g n : consistent g -> consistent (state_of (AddNode n g)).
Proof.
  intros Hg. destruct (AddNode n g) as [[] g'|msg g'] eqn:E; simpl.
  2:{ apply AddNode_panics in E as [-> _]. exact Hg. }
  destruct (HasName g (PkgName (Pkg n))) eqn:Hn.
  { destruct (AddNode_faults g n) as [m Hm]; [auto|congruence]. }
  destruct (Has g n) eqn:Hi.
  { destruct (AddNode_faults g n) as [m Hm]; [auto|congruence]. }
  rewrite (AddNode_returns g n Hn Hi) in E. injection E as <-.
  apply HasName_false in Hn. apply Has_false in Hi.
  destruct Hg as [ns nc ids idc nd fd ed].
  split; simpl.
  - intros s m. destruct (decide (PkgName (Pkg n) = s)) as [<-|Hne].
    + rewrite lookup_insert_eq. intros [= <-]. split; [|done].
      apply elem_of_app. right. by apply list_elem_of_singleton.
    + rewrite lookup_insert_ne by done. intros H. apply ns in H as [? ?].
      split; [|done]. apply elem_of_app. by left.
  - intros m [Hm|Hm%list_elem_of_singleton]%elem_of_app.
    + destruct (decide (PkgName (Pkg n) = PkgName (Pkg m))) as [e|Hne].
      * apply nc in Hm. congruence.
      * rewrite lookup_insert_ne by done. by apply nc.
    + subst m. by rewrite lookup_insert_eq.
  - intros i m. destruct (decide (ID n = i)) as [<-|Hne].
    + rewrite lookup_insert_eq. intros [= <-]. split; [|done].
      apply elem_of_app. right. by apply list_elem_of_singleton.
    + rewrite lookup_insert_ne by done. intros H. apply ids in H as [? ?].
      split; [|done]. apply elem_of_app. by left.
  - intros m [Hm|Hm%list_elem_of_singleton]%elem_of_app.
    + destruct (decide (ID n = ID m)) as [e|Hne].
      * apply idc in Hm. congruence.
      * rewrite lookup_insert_ne by done. by apply idc.
    + subst m. by rewrite lookup_insert_eq.
  - unfold nodeNames, Nodes in *. simpl. rewrite map_app. simpl.
    apply NoDup_app. split; [done|]. split; [|apply NoDup_singleton].
    intros s Hs Hs'. apply list_elem_of_singleton in Hs'. subst s.
    apply list_elem_of_fmap in Hs as [m [Hm1 Hm2]].
    apply nc in Hm2. congruence.
  - intros i. destruct (decide (ID n = i)) as [<-|Hne].
    + rewrite !lookup_insert_eq. split; eauto.
    + rewrite !lookup_insert_ne by done. apply fd.
  - intros i. destruct (decide (ID n = i)) as [<-|Hne].
    + rewrite !lookup_insert_eq. split; eauto.
    + rewrite !lookup_insert_ne by done. apply ed.
Qed.

Lemma AddEdgeFromTo_panics u v g msg g' :
  AddEdgeFromTo u v g = Panic msg g' -> g' = g /\ edges g !! ID u = None.
Proof.
  unfold AddEdgeFromTo. destruct (edges g !! ID u); [discriminate|].
  intros [= _ <-]. auto.
Qed.

Lemma AddEdgeFromTo_returns u v g row :
  edges g !! ID u = Some row ->
  AddEdgeFromTo u v g =
  Val tt {| names := names g; nodes := nodes g; nodeIDs := nodeIDs g;
            edgesFrom := <[ID u := From g u ++ [u]]> (edgesFrom g);
            edgesTo := <[ID v := To g v ++ [v]]> (edgesTo g);
            edges := <[ID u := <[ID v := {| from := u; to := v |}]> row]> (edges g);
            nextID := nextID g |}.
Proof. unfold AddEdgeFromTo. intros ->. reflexivity. Qed.

(** What a successful [AddEdgeFromTo u v] appends to the two buckets. *)
Lemma AddEdgeFromTo_buckets u v g g' :
  AddEdgeFromTo u v g = Val tt g' ->
  From g' u = From g u ++ [u] /\ To g' v = To g v ++ [v] /\
  EdgeOf g' u v = Some {| from := u; to := v |}.
Proof.
  destruct (edges g !! ID u) as [row|] eqn:E.
  - rewrite (AddEdgeFromTo_returns u v g row E). intros [= <-].
    unfold From, To, EdgeOf. simpl. rewrite !lookup_insert_eq. simpl.
    by rewrite lookup_insert_eq.
  - unfold AddEdgeFromTo. by rewrite E.
Qed.

Lemma consistent_AddEdgeFromTo g u v :
  consistent g -> consistent (state_of (AddEdgeFromTo u v g)).
Proof.
  intros Hg. destruct (edges g !! ID u) as [row|] eqn:E.
  2:{ unfold AddEdgeFromTo. by rewrite E. }
  rewrite (AddEdgeFromTo_returns u v g row E). simpl.
  destruct Hg as [ns nc ids idc nd fd ed]. split; simpl; auto.
  - intros i. destruct (decide (ID u = i)) as [<-|Hne].
    + rewrite lookup_insert_eq. rewrite <- ed, E. split; eauto.
    + rewrite lookup_insert_ne by done. apply fd.
  - intros i. destruct (decide (ID u = i)) as [<-|Hne].
    + rewrite lookup_insert_eq. rewrite <- ed, E. split; eauto.
    + rewrite lookup_insert_ne by done. apply ed.
Qed.

Lemma consistent_call g c : consistent g -> consistent (call g c).
Proof.
  destruct c; simpl.
  - apply consistent_NewNodeID.
  - apply consistent_AddNode.
  - apply consistent_AddEdgeFromTo.
Qed.

Lemma consistent_calls cs g : consistent g -> consistent (calls cs g).
Proof.
  revert g. induction cs as [|c cs IH]; intros g Hg; simpl; [done|].
  apply IH. by apply consistent_call.
Qed.

Lemma consistent_HasName g s :
  consistent g -> (HasName g s = true <-> s ∈ nodeNames g).
Proof.
  intros Hg. rewrite HasName_true. unfold nodeNames, Nodes. split.
  - intros [n Hn]. apply (names_sound g Hg) in Hn as [Hn <-].
    apply list_elem_of_fmap. eauto.
  - intros [n [-> Hn]]%list_elem_of_fmap.
    rewrite (names_complete g Hg n Hn). eauto.
Qed.

Lemma consistent_Has g n :
  consistent g -> (Has g n = true <-> ID n ∈ nodeIdents g).
Proof.
  intros Hg. rewrite Has_true. unfold nodeIdents, Nodes. split.
  - intros [m Hm]. apply (ids_sound g Hg) in Hm as [Hm <-].
    apply list_elem_of_fmap. eauto.
  - intros [m [-> Hm]]%list_elem_of_fmap.
    rewrite (ids_complete g Hg m Hm). eauto.
Qed.

(** A bucket of [edgesTo] nobody wrote an edge into is empty. *)
Lemma To_untouched cs g v :
  neverTarget (ID v) cs = true -> To g v = [] -> To (calls cs g) v = [].
Proof.
  revert g. induction cs as [|c cs IH]; intros g Hcs Hg; simpl in *; [done|].
  apply andb_true_iff in Hcs as [Hc Hcs]. apply IH; [done|].
  destruct c as [|n|u w]; simpl.
  - done.
  - destruct (AddNode n g) as [[] g'|msg g'] eqn:E; simpl.
    + destruct (HasName g (PkgName (Pkg n))) eqn:Hn.
      { destruct (AddNode_faults g n) as [m Hm]; [auto|congruence]. }
      destruct (Has g n) eqn:Hi.
      { destruct (AddNode_faults g n) as [m Hm]; [auto|congruence]. }
      rewrite (AddNode_returns g n Hn Hi) in E. injection E as <-.
      unfold To in *. simpl. destruct (decide (ID n = ID v)) as [->|Hne].
      * by rewrite lookup_insert_eq.
      * by rewrite lookup_insert_ne.
    + by apply AddNode_panics in E as [-> _].
  - destruct (edges g !! ID u) as [row|] eqn:E.
    + rewrite (AddEdgeFromTo_returns u w g row E). unfold To in *. simpl.
      apply negb_true_iff, bool_decide_eq_false in Hc.
      by rewrite lookup_insert_ne.
    + unfold AddEdgeFromTo. by rewrite E.
Qed.

(** *** Edges and adjacency *)

(** C2. After [AddEdgeFromTo u v] the sequence [From u] should hold [v] and
    [To v] should hold [u].  The code appends [u] to [From u] and [v] to
    [To v]: on the graph of [nodeA] and [nodeB], adding the edge from
    [nodeA] to [nodeB] leaves [From nodeA = [nodeA]] and
    [To nodeB = [nodeB]], so that [nodeB] is no successor of [nodeA],
    [nodeA] no predecessor of [nodeB], and [HasEdgeFromTo], which searches
    [From], does not find the edge just added.  On every graph, a call
    that returns appends the source to [From] of the source and the target
    to [To] of the target. *)
Theorem AddEdgeFromTo_appends_own_endpoint :
  exists g, AddEdgeFromTo nodeA nodeB graphAB = Val tt g /\
    From g nodeA = [nodeA] /\ To g nodeB = [nodeB] /\
    (nodeB ∉ From g nodeA) /\ (nodeA ∉ To g nodeB) /\
    HasEdgeFromTo g nodeA nodeB = false /\
    EdgeOf g nodeA nodeB = Some {| from := nodeA; to := nodeB |} /\
    (forall g0 u v g1,
       AddEdgeFromTo u v g0 = Val tt g1 ->
       From g1 u = From g0 u ++ [u] /\ To g1 v = To g0 v ++ [v]).
Proof.
  eexists. split; [vm_compute; reflexivity|].
  assert (HF : From (state_of (AddEdgeFromTo nodeA nodeB graphAB)) nodeA = [nodeA])
    by (vm_compute; reflexivity).
  assert (HT : To (state_of (AddEdgeFromTo nodeA nodeB graphAB)) nodeB = [nodeB])
    by (vm_compute; reflexivity).
  split; [exact HF|]. split; [exact HT|].
  split; [|split; [|split; [|split]]].
  - change (nodeB ∉ From (state_of (AddEdgeFromTo nodeA nodeB graphAB)) nodeA).
    rewrite HF. intros H%list_elem_of_singleton. discriminate.
  - change (nodeA ∉ To (state_of (AddEdgeFromTo nodeA nodeB graphAB)) nodeB).
    rewrite HT. intros H%list_elem_of_singleton. discriminate.
  - vm_compute. reflexivity.
  - vm_compute. reflexivity.
  - intros g0 u v g1 H. apply AddEdgeFromTo_buckets in H as (? & ? & _). auto.
Qed.

(** C6, as stated, fails: the second [AddEdgeFromTo nodeA nodeB] appends
    once more to both buckets, which then hold a duplicate entry. *)
Lemma AddEdgeFromTo_twice_duplicates :
  let g1 := state_of (AddEdgeFromTo nodeA nodeB graphAB) in
  let g2 := state_of (AddEdgeFromTo nodeA nodeB g1) in
  ~ (From g2 nodeA = From g1 nodeA /\ To g2 nodeB = To g1 nodeB) /\
  ~ NoDup (From g2 nodeA) /\ ~ NoDup (To g2 nodeB).
Proof.
  intros g1 g2.
  assert (HF : From g2 nodeA = [nodeA; nodeA]) by (vm_compute; reflexivity).
  assert (HT : To g2 nodeB = [nodeB; nodeB]) by (vm_compute; reflexivity).
  assert (HF1 : From g1 nodeA = [nodeA]) by (vm_compute; reflexivity).
  rewrite HF, HT, HF1. split; [|split].
  - intros [H _]. discriminate.
  - intros H. apply NoDup_cons in H as [H _]. apply H. by left.
  - intros H. apply NoDup_cons in H as [H _]. apply H. by left.
Qed.

(** C6, amended.  On every graph built by calls of the mutators, and for a
    node [u] that was added, calling [AddEdgeFromTo u v] twice returns both
    times; the second call leaves the edge map as the first made it, with
    the one edge of the ordered pair [(u, v)], and lengthens [From u] and
    [To v] by one more entry each. *)
Theorem AddEdgeFromTo_twice (cs : list Call) (u v : Node) :
  Has (calls cs NewGraph) u = true ->
  exists g1 g2,
    AddEdgeFromTo u v (calls cs NewGraph) = Val tt g1 /\
    AddEdgeFromTo u v g1 = Val tt g2 /\
    edges g2 = edges g1 /\
    EdgeOf g2 u v = Some {| from := u; to := v |} /\
    length (From g2 u) = S (length (From g1 u)) /\
    length (To g2 v) = S (length (To g1 v)).
Proof.
  set (g := calls cs NewGraph). intros Hu.
  assert (Hg : consistent g) by apply consistent_calls, consistent_NewGraph.
  apply Has_true, (edges_dom g Hg) in Hu as [row Hrow].
  pose proof (AddEdgeFromTo_returns u v g row Hrow) as E1.
  set (g1 := {| names := names g; nodes := nodes g; nodeIDs := nodeIDs g;
                edgesFrom := <[ID u := From g u ++ [u]]> (edgesFrom g);
                edgesTo := <[ID v := To g v ++ [v]]> (edgesTo g);
                edges := <[ID u := <[ID v := {| from := u; to := v |}]> row]> (edges g);
                nextID := nextID g |}) in *.
  assert (Hrow1 : edges g1 !! ID u = Some (<[ID v := {| from := u; to := v |}]> row))
    by (simpl; apply lookup_insert_eq).
  pose proof (AddEdgeFromTo_returns u v g1 _ Hrow1) as E2.
  eexists g1, _. split; [exact E1|]. split; [exact E2|].
  destruct (AddEdgeFromTo_buckets u v g1 _ E2) as (HF & HT & HE).
  split; [|split; [exact HE|]].
  - simpl. by rewrite !insert_insert_eq.
  - rewrite HF, HT, !length_app. simpl. lia.
Qed.

Lemma AddEdgeFromTo_twice_witness :
  exists g1 g2,
    AddEdgeFromTo nodeA nodeB graphAB = Val tt g1 /\
    AddEdgeFromTo nodeA nodeB g1 = Val tt g2 /\
    edges g2 = edges g1 /\
    EdgeOf g2 nodeA nodeB = Some {| from := nodeA; to := nodeB |} /\
    length (From g2 nodeA) = S (length (From g1 nodeA)) /\
    length (To g2 nodeB) = S (length (To g1 nodeB)).
Proof.
  apply (AddEdgeFromTo_twice
           [CallNewNodeID; CallAddNode nodeA; CallNewNodeID; CallAddNode nodeB]
           nodeA nodeB).
  vm_compute. reflexivity.
Defined.

(** *** Name uniqueness *)

(** C9. Whatever calls of the mutators built the graph, no two of its nodes
    share a package name; and [AddNode] of a node whose name, or whose
    identifier, a node of the graph already has panics and leaves the
    graph as it was. *)
Theorem AddNode_keeps_names_unique (cs : list Call) (n : Node) :
  NoDup (nodeNames (calls cs NewGraph)) /\
  (PkgName (Pkg n) ∈ nodeNames (calls cs NewGraph) \/
   ID n ∈ nodeIdents (calls cs NewGraph) ->
   exists msg, AddNode n (calls cs NewGraph) = Panic msg (calls cs NewGraph)).
Proof.
  assert (Hg : consistent (calls cs NewGraph))
    by apply consistent_calls, consistent_NewGraph.
  split; [apply (names_nodup _ Hg)|].
  intros H. apply AddNode_faults. destruct H as [H|H].
  - left. by apply consistent_HasName.
  - right. by apply consistent_Has.
Qed.

Lemma AddNode_keeps_names_unique_witness :
  let cs := [CallNewNodeID; CallAddNode nodeA] in
  let n := {| ID := 7; Pkg := OfAUR pkgA |} in
  (PkgName (Pkg n) ∈ nodeNames (calls cs NewGraph) \/
   ID n ∈ nodeIdents (calls cs NewGraph)) /\
  exists msg, AddNode n (calls cs NewGraph) = Panic msg (calls cs NewGraph).
Proof.
  intros cs n.
  assert (H : PkgName (Pkg n) ∈ nodeNames (calls cs NewGraph) \/
              ID n ∈ nodeIdents (calls cs NewGraph)).
  { left. vm_compute. apply list_elem_of_here. }
  split; [exact H|].
  exact (proj2 (AddNode_keeps_names_unique cs n) H).
Defined.

(** *** Queries on what is not in the graph *)

(** C10, as stated, fails for [To]: [AddEdgeFromTo] does not look at its
    target, so after an edge to a node that was never added, [To] of that
    absent node is not empty. *)
Lemma To_of_absent_node_nonempty :
  let g := calls danglingCalls NewGraph in
  (ID nodeB ∉ nodeIdents g) /\ Has g nodeB = false /\ To g nodeB <> [].
Proof.
  intros g.
  assert (HT : To g nodeB = [nodeB]) by (vm_compute; reflexivity).
  assert (HI : nodeIdents g = [1]) by (vm_compute; reflexivity).
  rewrite HT, HI. split; [|split].
  - intros H%list_elem_of_singleton. discriminate.
  - vm_compute. reflexivity.
  - discriminate.
Qed.

(** C10, amended.  On every graph built by calls of the mutators: for a
    node whose identifier no node of the graph has, [Has] is false and
    [From] is empty, and [To] is empty provided no call of [AddEdgeFromTo]
    named that identifier as its target; for a name no node of the graph
    has, [HasName] is false and [NodeWithName] is nil.  The five queries
    are total functions: none of them can panic. *)
Theorem queries_on_absent (cs : list Call) (v : Node) (s : string) :
  (ID v ∉ nodeIdents (calls cs NewGraph) ->
   Has (calls cs NewGraph) v = false /\
   From (calls cs NewGraph) v = [] /\
   (neverTarget (ID v) cs = true -> To (calls cs NewGraph) v = [])) /\
  (s ∉ nodeNames (calls cs NewGraph) ->
   HasName (calls cs NewGraph) s = false /\
   NodeWithName (calls cs NewGraph) s = None).
Proof.
  assert (Hg : consistent (calls cs NewGraph))
    by apply consistent_calls, consistent_NewGraph.
  split.
  - intros Hv.
    assert (Hh : Has (calls cs NewGraph) v = false).
    { apply not_true_is_false. intros H. by apply consistent_Has in H. }
    split; [exact Hh|]. split.
    + unfold From. apply Has_false in Hh.
      destruct (edgesFrom (calls cs NewGraph) !! ID v) as [l|] eqn:E; [|done].
      assert (is_Some (nodeIDs (calls cs NewGraph) !! ID v)) as [m Hm]
        by (apply (from_dom _ Hg); eauto).
      congruence.
    + intros Hn. by apply To_untouched.
  - intros Hs.
    assert (Hh : HasName (calls cs NewGraph) s = false).
    { apply not_true_is_false. intros H. by apply consistent_HasName in H. }
    split; [exact Hh|]. by apply HasName_false.
Qed.

Lemma queries_on_absent_witness :
  let cs := [CallNewNodeID; CallAddNode nodeA; CallAddEdgeFromTo nodeA nodeA] in
  ((ID nodeB ∉ nodeIdents (calls cs NewGraph)) /\
   neverTarget (ID nodeB) cs = true /\
   ("b" ∉ nodeNames (calls cs NewGraph))) /\
  (Has (calls cs NewGraph) nodeB = false /\
   From (calls cs NewGraph) nodeB = [] /\
   To (calls cs NewGraph) nodeB = []) /\
  (HasName (calls cs NewGraph) "b" = false /\
   NodeWithName (calls cs NewGraph) "b" = None).
Proof.
  intros cs.
  assert (Hv : ID nodeB ∉ nodeIdents (calls cs NewGraph)).
  { vm_compute. intros H%list_elem_of_singleton. discriminate. }
  assert (Ht : neverTarget (ID nodeB) cs = true) by (vm_compute; reflexivity).
  assert (Hs : "b" ∉ nodeNames (calls cs NewGraph)).
  { vm_compute. intros H%list_elem_of_singleton. discriminate. }
  split; [auto|].
  destruct (queries_on_absent cs nodeB "b") as [H1 H2].
  destruct (H1 Hv) as (Ha & Hb & Hc). split; [auto|]. exact (H2 Hs).
Defined.

(** ** Properties of the factory *)

Section ResolutionFacts.

Variable ReadAll : nat -> list string -> list AurPackage * option error.

Lemma seedStep_length lst p e lst' e' :
  seedStep lst p e = Val lst' e' -> length lst' = S (length lst).
Proof.
  unfold seedStep, bind, onGraph, ret. simpl.
  destruct (AddNode _ _); [|discriminate].
  intros [= <- _]. rewrite length_app. simpl. lia.
Qed.

Lemma seed_length pkgs acc e lst e' :
  forM pkgs seedStep acc e = Val lst e' ->
  length lst = (length acc + length pkgs)%nat.
Proof.
  revert acc e. induction pkgs as [|p pkgs IH]; intros acc e; simpl.
  - unfold ret. intros [= <- _]. lia.
  - unfold bind at 1. destruct (seedStep acc p e) as [acc' e1|] eqn:E;
      [|discriminate].
    intros H. apply IH in H. apply seedStep_length in E. lia.
Qed.

(** With a seed list that is not empty, the guard [len(lst) == 0] of the
    loop is false at once: the graph returned is the seeded one. *)
Lemma NewGraph_of_seeds fuel f reqs p pkgs :
  Factory_NewGraph ReadAll fuel f reqs (p :: pkgs) =
  match seed (p :: pkgs) {| factory := f; graph := NewGraph; requests := reqs |} with
  | Val _ e => (Return (Some (graph e)) None, e)
  | Panic msg e => (Panicked msg, e)
  end.
Proof.
  unfold Factory_NewGraph.
  destruct (seed (p :: pkgs) _) as [lst e|msg e] eqn:E; [|done].
  apply seed_length in E. simpl in E.
  destruct lst as [|v lst]; [simpl in E; lia|].
  destruct fuel; reflexivity.
Qed.

(** The request of a pass: as many empty strings as there are
    unavailable names, then those names. *)
Lemma fromAUR_length m : length (fromAUR m) = (2 * size m)%nat.
Proof.
  unfold fromAUR, rangeKeys.
  rewrite length_app, length_replicate, length_fmap, length_map_to_list. lia.
Qed.

Lemma fromAUR_empty_string m : m <> ∅ -> "" ∈ fromAUR m.
Proof.
  intros Hm. unfold fromAUR. apply elem_of_app. left.
  destruct (size m) as [|k] eqn:E.
  - by apply map_size_empty_iff in E.
  - simpl. apply list_elem_of_here.
Qed.

Lemma elem_of_rangeKeys (m : gmap string bool) s :
  s ∈ rangeKeys m <-> is_Some (m !! s).
Proof.
  unfold rangeKeys. rewrite list_elem_of_fmap. split.
  - intros [[k b] [-> H]]. apply elem_of_map_to_list in H. simpl. eauto.
  - intros [b H]. exists (s, b). split; [done|]. by apply elem_of_map_to_list.
Qed.

(** As soon as a name is unavailable, and unless the empty string is such
    a name itself, the request holds one name more than was unavailable:
    the empty string. *)
Lemma fromAUR_distinct (m : gmap string bool) :
  m <> ∅ -> m !! "" = None -> distinctNames (fromAUR m) = S (size m).
Proof.
  intros Hm He. unfold distinctNames.
  assert (Hset : (list_to_set (fromAUR m) : gset string) = {[ "" ]} ∪ dom m).
  { apply set_eq. intros s.
    rewrite elem_of_list_to_set, elem_of_union, elem_of_singleton, elem_of_dom.
    unfold fromAUR. rewrite elem_of_app, elem_of_replicate, elem_of_rangeKeys.
    split; [intros [[-> _]|H]; auto|].
    intros [->|H]; [|by right]. left. split; [done|].
    intros Hz. by apply map_size_empty_iff in Hz. }
  rewrite Hset, size_union, size_singleton, size_dom; [done|].
  apply disjoint_singleton_l. rewrite elem_of_dom, He. by intros [? ?].
Qed.

Lemma rangeKeys_distinct (m : gmap string bool) :
  distinctNames (rangeKeys m) = size m.
Proof.
  unfold distinctNames.
  assert (Hset : (list_to_set (rangeKeys m) : gset string) = dom m).
  { apply set_eq. intros s.
    by rewrite elem_of_list_to_set, elem_of_dom, elem_of_rangeKeys. }
  by rewrite Hset, size_dom.
Qed.

End ResolutionFacts.

(** *** Loops in the monad *)

Lemma forM_app {S A B} (l1 l2 : list A) (f : B -> A -> M S B) acc s :
  forM (l1 ++ l2) f acc s =
  match forM l1 f acc s with
  | Val b s1 => forM l2 f b s1
  | Panic msg s1 => Panic msg s1
  end.
Proof.
  revert acc s. induction l1 as [|a l1 IH]; intros acc s; simpl; [done|].
  unfold bind. destruct (f acc a s); [apply IH|done].
Qed.

(** A relation between accumulator and state that every returning step
    keeps is kept by the loop when it returns. *)
Lemma forM_ind {S A B} (P : B -> S -> Prop) (l : list A) (f : B -> A -> M S B) :
  (forall b a s b' s', a ∈ l -> P b s -> f b a s = Val b' s' -> P b' s') ->
  forall acc s acc' s', P acc s -> forM l f acc s = Val acc' s' -> P acc' s'.
Proof.
  induction l as [|a l IH]; intros Hstep acc s acc' s' HP; simpl.
  - unfold ret. by intros [= <- <-].
  - unfold bind. destruct (f acc a s) as [b s1|] eqn:E; [|discriminate].
    apply IH; [|eapply Hstep; eauto; apply list_elem_of_here].
    intros b0 a0 s0 b1 s2 Ha0. apply Hstep. by apply list_elem_of_further.
Qed.

(** A property of the state that every step keeps, returning or
    panicking, is kept by [bind] and by the loop. *)
Lemma bind_state_inv {S A B} (P : S -> Prop) (m : M S A) (k : A -> M S B) s :
  P (state_of (m s)) ->
  (forall a s', P s' -> P (state_of (k a s'))) ->
  P (state_of (bind m k s)).
Proof.
  unfold bind. intros Hm Hk. destruct (m s) as [a s'|msg s']; simpl in *; auto.
Qed.

Lemma forM_state_inv {S A B} (P : S -> Prop) (l : list A) (f : B -> A -> M S B) :
  (forall b a s, P s -> P (state_of (f b a s))) ->
  forall acc s, P s -> P (state_of (forM l f acc s)).
Proof.
  intros Hf. induction l as [|a l IH]; intros acc s HP; simpl; [done|].
  apply bind_state_inv; auto.
Qed.

Lemma onGraph_frame {A} (m : M Graph A) e :
  factory (state_of (onGraph m e)) = factory e /\
  requests (state_of (onGraph m e)) = requests e.
Proof. unfold onGraph. by destruct (m (graph e)). Qed.

Lemma onGraph_val {A} (m : M Graph A) e a e' :
  onGraph m e = Val a e' ->
  m (graph e) = Val a (graph e') /\ factory e' = factory e /\
  requests e' = requests e.
Proof.
  unfold onGraph. destruct (m (graph e)); [|discriminate].
  intros [= <- <-]. auto.
Qed.

Lemma NewNode_val pkg g u g' :
  NewNode pkg g = Val u g' ->
  g' = state_of (NewNodeID g) /\ Pkg u = pkg /\ ID u = nextID g'.
Proof. unfold NewNode, bind, NewNodeID, ret. intros [= <- <-]. auto. Qed.

Lemma AddEdgeFromTo_val u v g g' :
  AddEdgeFromTo u v g = Val tt g' -> g' = state_of (AddEdgeFromTo u v g).
Proof. by intros ->. Qed.

Lemma AddNode_val n g g' :
  AddNode n g = Val tt g' -> g' = state_of (AddNode n g).
Proof. by intros ->. Qed.

(** *** Scanning the nodes to process *)

Lemma scanned_refl L e : scanned L e L e.
Proof. by split. Qed.

Lemma scanned_trans L1 e1 L2 e2 L3 e3 :
  scanned L1 e1 L2 e2 -> scanned L2 e2 L3 e3 -> scanned L1 e1 L3 e3.
Proof.
  intros [a1 b1 c1 d1 f1 g1] [a2 b2 c2 d2 f2 g2]. split; try congruence; auto.
Qed.

Lemma scanDep_scanned v L d e L' e' :
  scanDep v L d e = Val L' e' -> scanned L e L' e'.
Proof.
  unfold scanDep, bind, getGraph, getFactory.
  destruct (HasName (graph e) d) eqn:Hn.
  - destruct (NodeWithName (graph e) d) as [u|]; [|discriminate].
    destruct (onGraph (AddEdgeFromTo v u) e) as [[] e1|] eqn:E; [|discriminate].
    unfold ret. intros [= <- <-].
    apply onGraph_val in E as (E & Hf & Hr). apply AddEdgeFromTo_val in E.
    split; auto; rewrite E.
    + unfold AddEdgeFromTo. by destruct (edges (graph e) !! ID v).
    + unfold AddEdgeFromTo. by destruct (edges (graph e) !! ID v).
    + apply consistent_AddEdgeFromTo.
  - destruct (skipInstalled (factory e) && _).
    { unfold ret. intros [= <- <-]. apply scanned_refl. }
    destruct (sync (factory e) !! d) as [p|].
    + destruct (onGraph (NewNode (OfPacman p)) e) as [u e1|] eqn:E1; [|discriminate].
      destruct (onGraph (AddEdgeFromTo v u) e1) as [[] e2|] eqn:E2; [|discriminate].
      unfold ret. intros [= <- <-].
      apply onGraph_val in E1 as (E1 & Hf1 & Hr1).
      apply onGraph_val in E2 as (E2 & Hf2 & Hr2).
      apply NewNode_val in E1 as (E1 & _ & _). apply AddEdgeFromTo_val in E2.
      split; try congruence.
      * rewrite E2. unfold AddEdgeFromTo.
        destruct (edges (graph e1) !! ID v); simpl; by rewrite E1.
      * rewrite E2. unfold AddEdgeFromTo.
        destruct (edges (graph e1) !! ID v); simpl; by rewrite E1.
      * intros Hc. rewrite E2. apply consistent_AddEdgeFromTo. rewrite E1.
        by apply consistent_NewNodeID.
      * by destruct (truncate (factory e)).
    + unfold ret. intros [= <- <-]. split; auto. simpl. intros k w Hw.
      destruct (decide (d = k)) as [<-|Hne].
      * rewrite lookup_insert_eq. simpl. apply elem_of_app. by left.
      * by rewrite lookup_insert_ne.
Qed.

Lemma scanDep_pending v L d e L' e' :
  scanDep v L d e = Val L' e' ->
  HasName (graph e) d = false ->
  local (factory e) !! d = None -> sync (factory e) !! d = None ->
  v ∈ default [] (pending L' !! d).
Proof.
  unfold scanDep, bind, getGraph, getFactory. intros H Hn Hl Hs.
  rewrite Hn, Hl, Hs in H.
  assert (Hb : bool_decide (is_Some (@None Package)) = false).
  { apply bool_decide_eq_false. by intros [? ?]. }
  rewrite Hb, andb_false_r in H. unfold ret in H. injection H as <- <-.
  simpl. rewrite lookup_insert_eq. simpl. apply elem_of_app. right.
  apply list_elem_of_here.
Qed.

Lemma scanNode_scanned L v e L' e' :
  scanNode L v e = Val L' e' -> scanned L e L' e'.
Proof.
  unfold scanNode, bind, getFactory.
  apply (forM_ind (fun b s => scanned L e b s)); [|apply scanned_refl].
  intros b a s b' s' _ Hb Hstep. eapply scanned_trans; [exact Hb|].
  by eapply scanDep_scanned.
Qed.

Lemma scan_scanned lst e L e' :
  scan lst e = Val L e' -> scanned emptyLayer e L e'.
Proof.
  unfold scan.
  apply (forM_ind (fun b s => scanned emptyLayer e b s)); [|apply scanned_refl].
  intros b a s b' s' _ Hb Hstep. eapply scanned_trans; [exact Hb|].
  by eapply scanNode_scanned.
Qed.

Lemma scanDeps_scanned v ds L e L' e' :
  forM ds (scanDep v) L e = Val L' e' -> scanned L e L' e'.
Proof.
  apply (forM_ind (fun b s => scanned L e b s)); [|apply scanned_refl].
  intros b a s b' s' _ Hb Hstep. eapply scanned_trans; [exact Hb|].
  by eapply scanDep_scanned.
Qed.

Lemma scanNodes_scanned lst L e L' e' :
  forM lst scanNode L e = Val L' e' -> scanned L e L' e'.
Proof.
  apply (forM_ind (fun b s => scanned L e b s)); [|apply scanned_refl].
  intros b a s b' s' _ Hb Hstep. eapply scanned_trans; [exact Hb|].
  by eapply scanNode_scanned.
Qed.

Lemma HasName_names g g' s : names g' = names g -> HasName g' s = HasName g s.
Proof. unfold HasName. by intros ->. Qed.

Lemma scanNode_pending L v e L' e' d :
  scanNode L v e = Val L' e' ->
  d ∈ depFunc (factory e) (Pkg v) ->
  HasName (graph e) d = false ->
  local (factory e) !! d = None -> sync (factory e) !! d = None ->
  v ∈ default [] (pending L' !! d).
Proof.
  unfold scanNode, bind, getFactory. intros H Hd Hn Hl Hs.
  apply list_elem_of_split in Hd as (d1 & d2 & Hd). rewrite Hd in H.
  rewrite forM_app in H.
  destruct (forM d1 (scanDep v) L e) as [Lm em|] eqn:E1; [|discriminate].
  simpl in H. unfold bind in H.
  destruct (scanDep v Lm d em) as [Ln en|] eqn:E2; [|discriminate].
  apply scanDeps_scanned in E1 as [Hf _ Hnm _ _ _].
  apply scanDeps_scanned in H as [_ _ _ _ _ Hp]. apply Hp.
  apply (scanDep_pending v Lm d em Ln en E2).
  - by rewrite (HasName_names _ _ _ Hnm).
  - by rewrite Hf.
  - by rewrite Hf.
Qed.

(** After the scan, a name the graph, the local map and the sync map do
    not have is pending for every scanned node that lists it. *)
Lemma scan_pending lst e L e' v d :
  scan lst e = Val L e' ->
  v ∈ lst -> d ∈ depFunc (factory e) (Pkg v) ->
  HasName (graph e) d = false ->
  local (factory e) !! d = None -> sync (factory e) !! d = None ->
  v ∈ default [] (pending L !! d).
Proof.
  unfold scan. intros H Hv Hd Hn Hl Hs.
  apply list_elem_of_split in Hv as (l1 & l2 & Hv). rewrite Hv in H.
  rewrite forM_app in H.
  destruct (forM l1 scanNode emptyLayer e) as [Lm em|] eqn:E1; [|discriminate].
  simpl in H. unfold bind in H.
  destruct (scanNode Lm v em) as [Ln en|] eqn:E2; [|discriminate].
  apply scanNodes_scanned in E1 as [Hf _ Hnm _ _ _].
  apply scanNodes_scanned in H as [_ _ _ _ _ Hp]. apply Hp.
  apply (scanNode_pending Lm v em Ln en d E2).
  - by rewrite Hf.
  - by rewrite (HasName_names _ _ _ Hnm).
  - by rewrite Hf.
  - by rewrite Hf.
Qed.

(** *** Edge objects under the mutators *)

Lemma edgeTo_AddEdgeFromTo_new v u g g' :
  AddEdgeFromTo v u g = Val tt g' -> edgeTo g' v u.
Proof.
  intros H. apply AddEdgeFromTo_buckets in H as (_ & _ & H).
  exists {| from := v; to := u |}. auto.
Qed.

Lemma edgeTo_AddEdgeFromTo_keep v u g g' a b :
  AddEdgeFromTo v u g = Val tt g' ->
  (ID u = ID b -> u = b) -> edgeTo g a b -> edgeTo g' a b.
Proof.
  intros H Hub (x & Hx & Hfrom & Hto).
  destruct (edges g !! ID v) as [row|] eqn:E.
  2:{ unfold AddEdgeFromTo in H. by rewrite E in H. }
  rewrite (AddEdgeFromTo_returns v u g row E) in H. injection H as <-.
  unfold edgeTo, EdgeOf in *. simpl.
  destruct (decide (ID v = ID a)) as [Hva|Hva].
  - rewrite Hva, lookup_insert_eq. simpl. rewrite <- Hva, E in Hx. simpl in Hx.
    destruct (decide (ID u = ID b)) as [Hub'|Hub'].
    + rewrite Hub', lookup_insert_eq. eexists. split; [done|]. simpl.
      split; [done|]. by apply Hub.
    + rewrite lookup_insert_ne by done. eauto.
  - rewrite lookup_insert_ne by done. eauto.
Qed.

Lemma edgeTo_AddNode_keep n g g' a b :
  consistent g -> AddNode n g = Val tt g' -> edgeTo g a b -> edgeTo g' a b.
Proof.
  intros Hg H (x & Hx & Hfrom & Hto).
  destruct (HasName g (PkgName (Pkg n))) eqn:Hn.
  { destruct (AddNode_faults g n) as [m Hm]; [auto|congruence]. }
  destruct (Has g n) eqn:Hi.
  { destruct (AddNode_faults g n) as [m Hm]; [auto|congruence]. }
  rewrite (AddNode_returns g n Hn Hi) in H. injection H as <-.
  unfold edgeTo, EdgeOf in *. simpl.
  destruct (decide (ID n = ID a)) as [Hna|Hna].
  - exfalso. apply Has_false in Hi.
    destruct (edges g !! ID a) as [row|] eqn:E.
    + assert (is_Some (nodeIDs g !! ID a)) as [m Hm]
        by (apply (edges_dom g Hg); eauto).
      congruence.
    + simpl in Hx. by rewrite lookup_empty in Hx.
  - rewrite lookup_insert_ne by done. eauto.
Qed.

(** *** Adding what the remote source answered *)

(** The inner loop of [addFetchedPkg]: the pending edges towards [u]. *)
Lemma addEdges_keep pend u e e' :
  forM pend (fun _ v => onGraph (AddEdgeFromTo v u)) tt e = Val tt e' ->
  factory e' = factory e /\ requests e' = requests e /\
  nodes (graph e') = nodes (graph e) /\
  (consistent (graph e) -> consistent (graph e')) /\
  (forall a b, (ID u = ID b -> u = b) ->
               edgeTo (graph e) a b -> edgeTo (graph e') a b).
Proof.
  apply (forM_ind (fun (_ : unit) s =>
    factory s = factory e /\ requests s = requests e /\
    nodes (graph s) = nodes (graph e) /\
    (consistent (graph e) -> consistent (graph s)) /\
    (forall a b, (ID u = ID b -> u = b) ->
                 edgeTo (graph e) a b -> edgeTo (graph s) a b))).
  2:{ split_and!; auto. }
  intros [] v s [] s' _ (Hf & Hr & Hn & Hc & He) Hstep.
  apply onGraph_val in Hstep as (Hstep & Hf' & Hr').
  pose proof (AddEdgeFromTo_val _ _ _ _ Hstep) as Hs'.
  split; [congruence|]. split; [congruence|]. split; [|split].
  - rewrite Hs', <- Hn. unfold AddEdgeFromTo.
    by destruct (edges (graph s) !! ID v).
  - intros Hg. rewrite Hs'. by apply consistent_AddEdgeFromTo, Hc.
  - intros a b Hub Hab.
    eapply edgeTo_AddEdgeFromTo_keep; [exact Hstep|exact Hub|by apply He].
Qed.

Lemma addEdges_new pend u e e' v :
  forM pend (fun _ v => onGraph (AddEdgeFromTo v u)) tt e = Val tt e' ->
  v ∈ pend -> edgeTo (graph e') v u.
Proof.
  intros H Hv. apply list_elem_of_split in Hv as (l1 & l2 & ->).
  rewrite forM_app in H.
  destruct (forM l1 _ tt e) as [[] e1|] eqn:E1; [|discriminate].
  simpl in H. unfold bind in H.
  destruct (onGraph (AddEdgeFromTo v u) e1) as [[] e2|] eqn:E2; [|discriminate].
  apply onGraph_val in E2 as (E2 & _ & _).
  apply addEdges_keep in H as (_ & _ & _ & _ & H). apply H; [done|].
  by eapply edgeTo_AddEdgeFromTo_new.
Qed.

Lemma addFetchedPkg_val L p e L' e' :
  consistent (graph e) ->
  addFetchedPkg L p e = Val L' e' ->
  exists u,
    Pkg u = p /\ new L' = new L ++ [u] /\ pending L' = pending L /\
    factory e' = factory e /\ requests e' = requests e /\
    consistent (graph e') /\
    nodes (graph e') = nodes (graph e) ++ [u] /\
    (forall v, v ∈ default [] (pending L !! PkgName p) -> edgeTo (graph e') v u) /\
    (forall a b, b ∈ nodes (graph e) -> edgeTo (graph e) a b ->
                 edgeTo (graph e') a b).
Proof.
  intros Hg. unfold addFetchedPkg, bind.
  destruct (onGraph (NewNode p) e) as [u e1|] eqn:E1; [|discriminate].
  destruct (onGraph (AddNode u) e1) as [[] e2|] eqn:E2; [|discriminate].
  destruct (forM _ _ tt e2) as [[] e3|] eqn:E3; [|discriminate].
  unfold ret. intros [= <- <-].
  apply onGraph_val in E1 as (E1 & Hf1 & Hr1).
  apply onGraph_val in E2 as (E2 & Hf2 & Hr2).
  apply NewNode_val in E1 as (E1 & Hp & _).
  assert (Hg1 : consistent (graph e1))
    by (rewrite E1; by apply consistent_NewNodeID).
  assert (Hn1 : nodes (graph e1) = nodes (graph e)) by (by rewrite E1).
  assert (He1 : forall a b, edgeTo (graph e) a b -> edgeTo (graph e1) a b)
    by (by rewrite E1).
  assert (Hg2 : consistent (graph e2)).
  { rewrite (AddNode_val _ _ _ E2). by apply consistent_AddNode. }
  assert (Hfresh : Has (graph e1) u = false).
  { destruct (Has (graph e1) u) eqn:Hh; [|done].
    destruct (AddNode_faults (graph e1) u) as [m Hm]; [auto|congruence]. }
  assert (Hn2 : nodes (graph e2) = nodes (graph e) ++ [u]).
  { destruct (HasName (graph e1) (PkgName (Pkg u))) eqn:Hh.
    { destruct (AddNode_faults (graph e1) u) as [m Hm]; [auto|congruence]. }
    rewrite (AddNode_returns _ _ Hh Hfresh) in E2. injection E2 as <-.
    simpl. by rewrite Hn1. }
  pose proof (addEdges_keep _ _ _ _ E3) as (Hf3 & Hr3 & Hn3 & Hc3 & He3).
  exists u. split; [done|]. split; [done|]. split; [done|].
  split; [congruence|]. split; [congruence|]. split; [auto|].
  split; [congruence|]. split.
  - intros v Hv. rewrite <- Hp in Hv. by eapply addEdges_new.
  - intros a b Hb Hab. apply He3.
    + intros Hub. exfalso. apply Has_false in Hfresh.
      rewrite <- Hn1 in Hb. apply (ids_complete _ Hg1) in Hb. congruence.
    + eapply edgeTo_AddNode_keep; [exact Hg1|exact E2|by apply He1].
Qed.

Lemma addFetched_keep ps L e L' e' :
  consistent (graph e) ->
  forM ps addFetchedPkg L e = Val L' e' ->
  consistent (graph e') /\ pending L' = pending L /\
  factory e' = factory e /\ requests e' = requests e /\
  (forall u, u ∈ new L -> u ∈ new L') /\
  (forall u, u ∈ nodes (graph e) -> u ∈ nodes (graph e')) /\
  (forall a b, b ∈ nodes (graph e) -> edgeTo (graph e) a b ->
               edgeTo (graph e') a b).
Proof.
  intros Hg.
  apply (forM_ind (fun b s =>
    consistent (graph s) /\ pending b = pending L /\
    factory s = factory e /\ requests s = requests e /\
    (forall u, u ∈ new L -> u ∈ new b) /\
    (forall u, u ∈ nodes (graph e) -> u ∈ nodes (graph s)) /\
    (forall a b, b ∈ nodes (graph e) -> edgeTo (graph e) a b ->
                 edgeTo (graph s) a b))).
  2:{ split_and!; auto. }
  intros b p s b' s' _ (Hc & Hp & Hf & Hr & Hnw & Hnd & He) Hstep.
  apply (addFetchedPkg_val _ _ _ _ _ Hc) in Hstep
    as (u & _ & Hnew & Hpend & Hf' & Hr' & Hc' & Hnodes & _ & Hkeep).
  split_and!; try congruence.
  - intros w Hw. rewrite Hnew. apply elem_of_app. left. by apply Hnw.
  - intros w Hw. rewrite Hnodes. apply elem_of_app. left. by apply Hnd.
  - intros a0 b0 Hb0 Hab. apply Hkeep; [by apply Hnd|by apply He].
Qed.

(** Every package handed to [addFetchedPkg] in a loop that returns has its
    node in the graph and in [new], with the pending edges towards it. *)
Lemma addFetched_all ps L e L' e' p :
  consistent (graph e) ->
  forM ps addFetchedPkg L e = Val L' e' ->
  p ∈ ps ->
  exists u, Pkg u = p /\ u ∈ new L' /\ u ∈ nodes (graph e') /\
    forall v, v ∈ default [] (pending L !! PkgName p) -> edgeTo (graph e') v u.
Proof.
  intros Hg H Hp. apply list_elem_of_split in Hp as (l1 & l2 & ->).
  rewrite forM_app in H.
  destruct (forM l1 addFetchedPkg L e) as [L1 e1|] eqn:E1; [|discriminate].
  simpl in H. unfold bind in H.
  destruct (addFetchedPkg L1 p e1) as [L2 e2|] eqn:E2; [|discriminate].
  apply (addFetched_keep _ _ _ _ _ Hg) in E1 as (Hc1 & Hp1 & _).
  apply (addFetchedPkg_val _ _ _ _ _ Hc1) in E2
    as (u & Hu & Hnew & _ & _ & _ & Hc2 & Hnodes & Hedges & _).
  apply (addFetched_keep _ _ _ _ _ Hc2) in H as (_ & _ & _ & _ & Hnw & Hnd & He).
  assert (Hin : u ∈ nodes (graph e2)).
  { rewrite Hnodes. apply elem_of_app. right. apply list_elem_of_here. }
  exists u. split; [done|]. split; [|split; [by apply Hnd|]].
  - apply Hnw. rewrite Hnew. apply elem_of_app. right. apply list_elem_of_here.
  - intros v Hv. apply He; [done|]. apply Hedges. by rewrite Hp1.
Qed.

Lemma addFetched_consistent ps L e L' e' :
  consistent (graph e) ->
  forM ps addFetchedPkg L e = Val L' e' -> consistent (graph e').
Proof. intros Hg H. by apply (addFetched_keep _ _ _ _ _ Hg) in H as (? & _). Qed.

(** [addFetchedPkg] leaves the factory and the request log alone, also
    when it panics. *)
Lemma addFetchedPkg_frame (e0 : Env) L p e :
  factory e = factory e0 /\ requests e = requests e0 ->
  factory (state_of (addFetchedPkg L p e)) = factory e0 /\
  requests (state_of (addFetchedPkg L p e)) = requests e0.
Proof.
  intros He. unfold addFetchedPkg.
  apply (bind_state_inv (fun s => factory s = factory e0 /\ requests s = requests e0)).
  { destruct (onGraph_frame (NewNode p) e) as [-> ->]. exact He. }
  intros u s1 Hs1. apply bind_state_inv.
  { destruct (onGraph_frame (AddNode u) s1) as [-> ->]. exact Hs1. }
  intros [] s2 Hs2. apply bind_state_inv; [|by intros].
  apply forM_state_inv; [|exact Hs2].
  intros [] v s3 Hs3.
  destruct (onGraph_frame (AddEdgeFromTo v u) s3) as [-> ->]. exact Hs3.
Qed.

Lemma addFetched_frame ps L e :
  factory (state_of (forM ps addFetchedPkg L e)) = factory e /\
  requests (state_of (forM ps addFetchedPkg L e)) = requests e.
Proof.
  apply (forM_state_inv (fun s => factory s = factory e /\ requests s = requests e));
    [|done].
  intros b a s. apply addFetchedPkg_frame.
Qed.

(** *** When adding returns *)

Lemma wrap_int_small z : - 2 ^ 63 <= z < 2 ^ 63 -> wrap_int z = z.
Proof. intros Hz. unfold wrap_int. rewrite Z.mod_small; lia. Qed.

Lemma scanDep_pending_sub (P : Node -> Prop) v L d e L' e' :
  scanDep v L d e = Val L' e' -> P v ->
  (forall k w, w ∈ default [] (pending L !! k) -> P w) ->
  forall k w, w ∈ default [] (pending L' !! k) -> P w.
Proof.
  unfold scanDep, bind, getGraph, getFactory. intros H Hv HL.
  destruct (HasName (graph e) d).
  { destruct (NodeWithName (graph e) d) as [u|]; [|discriminate].
    destruct (onGraph (AddEdgeFromTo v u) e) as [[] e1|]; [|discriminate].
    unfold ret in H. by injection H as <- <-. }
  destruct (skipInstalled (factory e) && _).
  { unfold ret in H. by injection H as <- <-. }
  destruct (sync (factory e) !! d) as [p|].
  - destruct (onGraph (NewNode (OfPacman p)) e) as [u e1|]; [|discriminate].
    destruct (onGraph (AddEdgeFromTo v u) e1) as [[] e2|]; [|discriminate].
    unfold ret in H. injection H as <- <-.
    by destruct (truncate (factory e)).
  - unfold ret in H. injection H as <- <-. simpl. intros k w.
    destruct (decide (d = k)) as [<-|Hne].
    + rewrite lookup_insert_eq. simpl.
      intros [Hw|Hw%list_elem_of_singleton]%elem_of_app; [by eapply HL|by subst].
    + rewrite lookup_insert_ne by done. apply HL.
Qed.

(** Only scanned nodes are pending. *)
Lemma scan_pending_sub lst e L e' :
  scan lst e = Val L e' ->
  forall k w, w ∈ default [] (pending L !! k) -> w ∈ lst.
Proof.
  unfold scan.
  apply (forM_ind (fun b (_ : Env) =>
           forall k w, w ∈ default [] (pending b !! k) -> w ∈ lst)).
  2:{ intros k w. simpl. rewrite lookup_empty. simpl. by intros ?%elem_of_nil. }
  intros b v s b' s' Hv Hb. unfold scanNode, bind, getFactory.
  apply (forM_ind (fun b0 (_ : Env) =>
           forall k w, w ∈ default [] (pending b0 !! k) -> w ∈ lst)); [|done].
  intros b0 d s0 b1 s1 _ Hb0 Hstep.
  by apply (scanDep_pending_sub (fun w => w ∈ lst) v b0 d s0 b1 s1).
Qed.

Lemma addEdges_returns pend u e :
  (forall v, v ∈ pend -> is_Some (edges (graph e) !! ID v)) ->
  exists e', forM pend (fun _ v => onGraph (AddEdgeFromTo v u)) tt e = Val tt e' /\
    nextID (graph e') = nextID (graph e) /\ names (graph e') = names (graph e).
Proof.
  revert e. induction pend as [|v pend IH]; intros e Hp; simpl.
  - by exists e.
  - destruct (Hp v) as [row Hrow]; [apply list_elem_of_here|].
    unfold bind.
    destruct (onGraph (AddEdgeFromTo v u) e) as [[] e1|msg e1] eqn:E1.
    + apply onGraph_val in E1 as (E1 & _ & _).
      rewrite (AddEdgeFromTo_returns v u _ row Hrow) in E1. injection E1 as E1.
      destruct (IH e1) as (e' & He' & Hn & Hnm).
      * intros w Hw. rewrite <- E1. simpl.
        destruct (decide (ID v = ID w)) as [->|Hne].
        -- rewrite lookup_insert_eq. eauto.
        -- rewrite lookup_insert_ne by done. apply Hp.
           by apply list_elem_of_further.
      * exists e'. split; [exact He'|]. rewrite Hn, Hnm, <- E1. done.
    + exfalso. unfold onGraph in E1.
      rewrite (AddEdgeFromTo_returns v u _ row Hrow) in E1. discriminate.
Qed.

Lemma addFetchedPkg_returns L p e :
  consistent (graph e) -> idsBelow (graph e) -> roomFor 1 (graph e) ->
  HasName (graph e) (PkgName p) = false ->
  (forall v, v ∈ default [] (pending L !! PkgName p) -> v ∈ nodes (graph e)) ->
  exists L' e', addFetchedPkg L p e = Val L' e' /\
    nextID (graph e') = nextID (graph e) + 1 /\
    idsBelow (graph e') /\
    (forall s, s <> PkgName p -> HasName (graph e') s = HasName (graph e) s).
Proof.
  intros Hg Hids [Hlo Hhi] Hname Hpend.
  set (u := {| ID := nextID (graph e) + 1; Pkg := p |}).
  set (g1 := state_of (NewNodeID (graph e))).
  assert (Hnext : nextID g1 = nextID (graph e) + 1).
  { unfold g1. simpl. apply wrap_int_small. lia. }
  assert (Hnew : NewNode p (graph e) = Val u g1).
  { unfold NewNode, bind, NewNodeID, ret, u, g1. simpl.
    rewrite wrap_int_small by lia. reflexivity. }
  assert (Hfresh : Has g1 u = false).
  { apply Has_false. destruct (nodeIDs g1 !! ID u) as [m|] eqn:E; [|done].
    apply (ids_sound _ Hg) in E as [Hm Hid]. apply Hids in Hm. simpl in *. lia. }
  pose proof (AddNode_returns g1 u Hname Hfresh) as Hadd.
  set (g2 := {| names := <[PkgName (Pkg u) := u]> (names g1);
                nodes := nodes g1 ++ [u];
                nodeIDs := <[ID u := u]> (nodeIDs g1);
                edgesFrom := <[ID u := []]> (edgesFrom g1);
                edgesTo := <[ID u := []]> (edgesTo g1);
                edges := <[ID u := ∅]> (edges g1);
                nextID := nextID g1 |}) in *.
  destruct (addEdges_returns (default [] (pending L !! PkgName (Pkg u))) u
              {| factory := factory e; graph := g2; requests := requests e |})
    as (e3 & He3 & Hn3 & Hnm3).
  { intros v Hv. simpl. apply Hpend in Hv.
    apply (ids_complete _ Hg) in Hv.
    assert (is_Some (edges (graph e) !! ID v)) as [row Hrow]
      by (apply (edges_dom _ Hg); eauto).
    destruct (decide (nextID (graph e) + 1 = ID v)) as [->|Hne].
    - rewrite lookup_insert_eq. eauto.
    - rewrite lookup_insert_ne by done. eauto. }
  assert (Hrun : addFetchedPkg L p e =
                 Val {| new := new L ++ [u]; unavailable := unavailable L;
                        pending := pending L |} e3).
  { unfold addFetchedPkg, bind at 1, onGraph at 1. rewrite Hnew.
    unfold bind at 1, onGraph at 1. simpl. rewrite Hadd.
    unfold bind at 1. change (PkgName (Pkg u)) with (PkgName p) in He3.
    rewrite He3. reflexivity. }
  eexists _, e3. split; [exact Hrun|].
  pose proof (addFetchedPkg_val _ _ _ _ _ Hg Hrun)
    as (u' & _ & Hnew' & _ & _ & _ & _ & Hnodes & _ & _).
  apply app_inj_tail in Hnew' as [_ <-].
  assert (Hn3' : nextID (graph e3) = nextID (graph e) + 1)
    by (rewrite Hn3; exact Hnext).
  assert (Hnm3' : names (graph e3) = <[PkgName p := u]> (names (graph e)))
    by (rewrite Hnm3; reflexivity).
  split; [exact Hn3'|]. split.
  - intros n. rewrite Hnodes, Hn3'.
    intros [Hn|Hn%list_elem_of_singleton]%elem_of_app.
    + apply Hids in Hn. lia.
    + subst n. simpl. lia.
  - intros s Hs. unfold HasName. rewrite Hnm3'.
    by rewrite lookup_insert_ne.
Qed.

(** A loop of [addFetchedPkg] returns when the packages have names that
    differ from each other and from those in the graph, the pending nodes
    are nodes of the graph, and the identifiers do not run out. *)
Lemma addFetched_returns ps :
  forall L e,
    consistent (graph e) -> idsBelow (graph e) ->
    roomFor (length ps) (graph e) ->
    NoDup (map PkgName ps) ->
    (forall p, p ∈ ps -> HasName (graph e) (PkgName p) = false) ->
    (forall k v, v ∈ default [] (pending L !! k) -> v ∈ nodes (graph e)) ->
    exists L' e', forM ps addFetchedPkg L e = Val L' e'.
Proof.
  induction ps as [|p ps IH]; intros L e Hg Hids [Hlo Hhi] Hnd Hnames Hpend.
  - by exists L, e.
  - simpl in Hhi. apply NoDup_cons in Hnd as [Hp Hnd].
    destruct (addFetchedPkg_returns L p e) as (L1 & e1 & Hrun & Hnext & Hids1 & Hnm);
      try done.
    + split; simpl; lia.
    + apply Hnames, list_elem_of_here.
    + apply Hpend.
    + pose proof (addFetchedPkg_val _ _ _ _ _ Hg Hrun)
        as (u & _ & _ & Hp1 & _ & _ & Hg1 & Hnodes & _ & _).
      destruct (IH L1 e1) as (L' & e' & Hrest); try done.
      * split; rewrite Hnext; lia.
      * intros q Hq. rewrite Hnm.
        -- apply Hnames. by apply list_elem_of_further.
        -- intros Heq. apply Hp. rewrite <- Heq. apply list_elem_of_fmap. eauto.
      * intros k v Hv. rewrite Hp1 in Hv. rewrite Hnodes. apply elem_of_app.
        left. by eapply Hpend.
      * exists L', e'. simpl. unfold bind. by rewrite Hrun.
Qed.

(** *** One pass of the loop *)

Section PassFacts.

Variable ReadAll : nat -> list string -> list AurPackage * option error.

Lemma fetch_val names e :
  fetch ReadAll names e =
  Val (ReadAll (length (requests e)) names) (state_of (fetch ReadAll names e)).
Proof. reflexivity. Qed.

(** A pass in which the remote source reports names as not found, with
    unknown packages allowed: placeholders first, then the packages
    found, all through [addFetchedPkg]. *)
Lemma layer_not_found lst e L e1 pkgs names :
  scan lst e = Val L e1 ->
  ReadAll (length (requests e1)) (fromAUR (unavailable L))
    = (pkgs, Some (NotFoundError names)) ->
  noUnknown (factory e1) = false ->
  layer ReadAll lst e =
  match forM (map unknownPkg names ++ map OfAUR pkgs) addFetchedPkg L
             (state_of (fetch ReadAll (fromAUR (unavailable L)) e1)) with
  | Val L2 e2 => Val (Continue (new L2)) e2
  | Panic msg e2 => Panic msg e2
  end.
Proof.
  intros Hs Hr Hf. unfold layer, bind at 1. rewrite Hs.
  unfold bind at 1. rewrite fetch_val, Hr. simpl.
  unfold bind at 1, getFactory. simpl. rewrite Hf. simpl.
  rewrite forM_app. unfold bind at 1.
  destruct (forM (map unknownPkg names) addFetchedPkg L _) as [L1 e2|]; [|done].
  unfold bind. by destruct (forM (map OfAUR pkgs) addFetchedPkg L1 e2).
Qed.

(** A pass in which the remote source fails for good. *)
Lemma layer_fatal lst e L e1 pkgs err :
  scan lst e = Val L e1 ->
  ReadAll (length (requests e1)) (fromAUR (unavailable L)) = (pkgs, Some err) ->
  fatal (factory e1) err = true ->
  layer ReadAll lst e =
  Val (Abort err) (state_of (fetch ReadAll (fromAUR (unavailable L)) e1)).
Proof.
  intros Hs Hr Hf. unfold layer, bind at 1. rewrite Hs.
  unfold bind at 1. rewrite fetch_val, Hr. simpl.
  unfold bind at 1, getFactory. simpl.
  unfold fatal in Hf. apply negb_true_iff in Hf. by rewrite Hf.
Qed.

(** A pass whose scan returns sends one request and counts it once,
    however the pass ends. *)
Lemma layer_one_request lst e L e1 :
  scan lst e = Val L e1 ->
  requests (state_of (layer ReadAll lst e))
    = requests e ++ [fromAUR (unavailable L)] /\
  NumRequestsAUR (factory (state_of (layer ReadAll lst e)))
    = wrap_int (NumRequestsAUR (factory e) + 1).
Proof.
  intros Hs. pose proof (scan_scanned _ _ _ _ Hs) as [Hfac Hreq _ _ _ _].
  set (e2 := state_of (fetch ReadAll (fromAUR (unavailable L)) e1)).
  assert (He2 : requests e2 = requests e ++ [fromAUR (unavailable L)] /\
                NumRequestsAUR (factory e2) = wrap_int (NumRequestsAUR (factory e) + 1)).
  { unfold e2, NumRequestsAUR. simpl. by rewrite Hfac, Hreq. }
  destruct He2 as [<- <-].
  assert (Hl : requests (state_of (layer ReadAll lst e)) = requests e2 /\
               factory (state_of (layer ReadAll lst e)) = factory e2);
    [|by destruct Hl as [-> ->]].
  remember (layer ReadAll lst e) as r eqn:Hr.
  unfold layer in Hr. unfold bind at 1 in Hr. rewrite Hs in Hr.
  unfold bind at 1 in Hr. rewrite fetch_val in Hr. fold e2 in Hr.
  destruct (ReadAll (length (requests e1)) (fromAUR (unavailable L))) as [pkgs err].
  unfold bind at 1, getFactory in Hr. cbn [fst snd] in Hr.
  assert (Hadd : forall L0 e0,
            requests e0 = requests e2 /\ factory e0 = factory e2 ->
            let r0 := bind (forM (map OfAUR pkgs) addFetchedPkg L0)
                           (fun L2 => ret (Continue (new L2))) e0 in
            requests (state_of r0) = requests e2 /\ factory (state_of r0) = factory e2).
  { intros L0 e0 [Hq0 Hf0] r0. unfold r0, bind.
    pose proof (addFetched_frame (map OfAUR pkgs) L0 e0) as [Hf Hq].
    destruct (forM (map OfAUR pkgs) addFetchedPkg L0 e0); simpl in *;
      by rewrite Hf, Hq. }
  destruct err as [err|]; [|subst r; by apply Hadd].
  destruct (negb (noUnknown (factory e2)) && IsNotFound err); [|by subst r].
  unfold bind at 1 in Hr.
  pose proof (addFetched_frame (map unknownPkg (NotFoundNames err)) L e2) as [Hf Hq].
  destruct (forM (map unknownPkg (NotFoundNames err)) addFetchedPkg L e2)
    as [L1 e3|msg e3]; simpl in *; subst r; [by apply Hadd|done].
Qed.

Lemma fromAUR_nil : fromAUR ∅ = [].
Proof. reflexivity. Qed.

(** A pass over no nodes which the remote source answers with nothing. *)
Lemma layer_quiet e :
  quiet (factory e) (ReadAll (length (requests e)) []) = true ->
  layer ReadAll [] e = Val (Continue []) (state_of (fetch ReadAll [] e)).
Proof.
  intros Hq. unfold layer, bind at 1. simpl. unfold ret at 1.
  unfold bind at 1. rewrite fromAUR_nil, fetch_val.
  destruct (ReadAll (length (requests e)) []) as [pkgs err].
  destruct pkgs as [|p pkgs]; [|by destruct err as [[]|]].
  destruct err as [[[|n names]|]|]; try discriminate; simpl in *.
  - apply negb_true_iff in Hq. unfold bind at 1, getFactory. simpl.
    by rewrite Hq.
  - reflexivity.
Qed.

(** The loop, when the remote source is quiet [k] times and then fails
    for good. *)
Lemma resolve_aborts k pkgs err :
  forall fuel e,
    (forall i, (i < k)%nat ->
       quiet (factory e) (ReadAll (length (requests e) + i)%nat []) = true) ->
    ReadAll (length (requests e) + k)%nat [] = (pkgs, Some err) ->
    fatal (factory e) err = true ->
    (k < fuel)%nat ->
    exists e', resolve ReadAll fuel [] e = (Return None (Some err), e') /\
      graph e' = graph e /\
      length (requests e') = S (length (requests e) + k).
Proof.
  induction k as [|k IH]; intros fuel e Hq Hr Hf Hk.
  - destruct fuel as [|fuel]; [lia|]. simpl.
    rewrite Nat.add_0_r in Hr.
    rewrite (layer_fatal [] e emptyLayer e pkgs err); [|done|done|done].
    eexists. split; [done|]. simpl. rewrite length_app. simpl. split; [done|lia].
  - destruct fuel as [|fuel]; [lia|]. simpl.
    rewrite layer_quiet.
    2:{ specialize (Hq 0%nat). rewrite Nat.add_0_r in Hq. apply Hq. lia. }
    destruct (IH fuel (state_of (fetch ReadAll [] e))) as (e' & He' & Hg & Hl).
    + intros i Hi. simpl. rewrite length_app. simpl.
      replace (length (requests e) + 1 + i)%nat
        with (length (requests e) + S i)%nat by lia.
      specialize (Hq (S i)). unfold quiet in *. apply Hq. lia.
    + simpl. rewrite length_app. simpl.
      replace (length (requests e) + 1 + k)%nat
        with (length (requests e) + S k)%nat by lia.
      exact Hr.
    + exact Hf.
    + lia.
    + exists e'. split; [exact He'|]. split; [exact Hg|].
      rewrite Hl. simpl. rewrite length_app. simpl. lia.
Qed.

(** A pass over no nodes: the empty request, then either the error of the
    remote source, when that is one the loop gives up on, or the loop over
    what was answered. *)
Lemma layer_nil_eq e :
  layer ReadAll [] e =
  match (ReadAll (length (requests e)) []).2 with
  | Some err =>
      if fatal (factory e) err
      then Val (Abort err) (state_of (fetch ReadAll [] e))
      else addAnswered (answered (ReadAll (length (requests e)) [])) emptyLayer
                       (state_of (fetch ReadAll [] e))
  | None => addAnswered (answered (ReadAll (length (requests e)) [])) emptyLayer
                        (state_of (fetch ReadAll [] e))
  end.
Proof.
  destruct (ReadAll (length (requests e)) []) as [pkgs err] eqn:Hr.
  unfold answered, addAnswered. simpl. destruct err as [err|].
  - destruct (fatal (factory e) err) eqn:Hfat.
    + by apply (layer_fatal [] e emptyLayer e pkgs err).
    + unfold fatal in Hfat. apply negb_false_iff, andb_true_iff in Hfat as [H1 H2].
      apply negb_true_iff in H1. destruct err as [names|]; [|discriminate].
      by rewrite (layer_not_found [] e emptyLayer e pkgs names).
  - unfold layer, bind at 1. simpl. unfold ret at 1.
    unfold bind at 1. rewrite fromAUR_nil, fetch_val, Hr. simpl.
    unfold bind at 1, getFactory. simpl. unfold bind.
    by destruct (forM (map OfAUR pkgs) addFetchedPkg emptyLayer _).
Qed.

Lemma addAnswered_frame ps L e :
  (forall err e', addAnswered ps L e <> Val (Abort err) e') /\
  factory (state_of (addAnswered ps L e)) = factory e /\
  requests (state_of (addAnswered ps L e)) = requests e.
Proof.
  unfold addAnswered. pose proof (addFetched_frame ps L e) as [Hf Hq].
  by destruct (forM ps addFetchedPkg L e).
Qed.

Lemma layer_nil_cases e :
  (exists pkgs err,
     ReadAll (length (requests e)) [] = (pkgs, Some err) /\
     fatal (factory e) err = true /\
     layer ReadAll [] e = Val (Abort err) (state_of (fetch ReadAll [] e))) \/
  ((forall pkgs err, ReadAll (length (requests e)) [] = (pkgs, Some err) ->
                     fatal (factory e) err = false) /\
   (forall err e', layer ReadAll [] e <> Val (Abort err) e') /\
   noUnknown (factory (state_of (layer ReadAll [] e))) = noUnknown (factory e) /\
   requests (state_of (layer ReadAll [] e)) = requests e ++ [[]]).
Proof.
  rewrite layer_nil_eq.
  destruct (ReadAll (length (requests e)) []) as [pkgs err] eqn:Hr. cbn [snd].
  pose proof (addAnswered_frame (answered (pkgs, err)) emptyLayer
                                (state_of (fetch ReadAll [] e)))
    as (Hna & Hf & Hq).
  destruct err as [err|].
  - destruct (fatal (factory e) err) eqn:Hfat.
    + left. by exists pkgs, err.
    + right. split; [by intros ? ? [= _ <-]|]. split; [done|].
      by rewrite Hf, Hq.
  - right. split; [by intros ? ? [= _ ?]|]. split; [done|].
    by rewrite Hf, Hq.
Qed.

Lemma fatal_noUnknown f f' err :
  noUnknown f' = noUnknown f -> fatal f' err = fatal f err.
Proof. unfold fatal. by intros ->. Qed.

Lemma layer_nil_log e :
  requests (state_of (layer ReadAll [] e)) = requests e ++ [[]].
Proof.
  destruct (layer_nil_cases e) as [(ps & err & _ & _ & Hl)|(_ & _ & _ & Hq)];
    [by rewrite Hl|done].
Qed.

(** The loop only adds to the request log. *)
Lemma resolve_extends fuel :
  forall lst e, exists rs,
    requests (resolve ReadAll fuel lst e).2 = requests e ++ rs.
Proof.
  induction fuel as [|fuel IH]; intros lst e; simpl.
  - exists []. rewrite app_nil_r. by destruct (bool_decide _).
  - destruct lst as [|v lst]; simpl; [|exists []; by rewrite app_nil_r].
    pose proof (layer_nil_log e) as Hq.
    destruct (layer ReadAll [] e) as [[lst'|err] e3|msg e3]; simpl in *.
    + destruct (IH lst' e3) as [rs Hrs]. exists ([] :: rs).
      rewrite Hrs, Hq, <- app_assoc. done.
    + by exists [[]].
    + by exists [[]].
Qed.

(** Every request the loop sends and the remote source answers with an
    error the loop gives up on is the last one, and the loop returns no
    graph and that error. *)
Lemma resolve_log fuel :
  forall lst e i names pkgs err,
    (length (requests e) <= i)%nat ->
    requests (resolve ReadAll fuel lst e).2 !! i = Some names ->
    ReadAll i names = (pkgs, Some err) ->
    fatal (factory e) err = true ->
    (resolve ReadAll fuel lst e).1 = Return None (Some err) /\
    length (requests (resolve ReadAll fuel lst e).2) = S i.
Proof.
  induction fuel as [|fuel IH]; intros lst e i names pkgs err Hi Hlog Hr Hf.
  - exfalso. simpl in Hlog. destruct (bool_decide _); simpl in Hlog;
      apply lookup_lt_Some in Hlog; lia.
  - simpl in *. destruct lst as [|v lst]; simpl in *.
    2:{ exfalso. apply lookup_lt_Some in Hlog. lia. }
    pose proof (layer_nil_log e) as Hq.
    assert (Hfirst : forall l : list (list string),
              (requests e ++ [[]] ++ l) !! length (requests e) = Some []).
    { intros l. by rewrite lookup_app_r, Nat.sub_diag by lia. }
    destruct (layer_nil_cases e)
      as [(ps & err0 & Hr0 & Hf0 & Hl)|(Hnf & Hna & Hno & _)].
    + rewrite Hl in *. simpl in *.
      pose proof (lookup_lt_Some _ _ _ Hlog) as Hlt.
      rewrite length_app in Hlt. simpl in Hlt.
      assert (i = length (requests e)) as -> by lia.
      rewrite (Hfirst []) in Hlog.
      injection Hlog as <-. rewrite Hr0 in Hr. injection Hr as <- <-.
      split; [done|]. rewrite length_app. simpl. lia.
    + destruct (layer ReadAll [] e) as [[lst'|err0] e3|msg e3] eqn:Hl; simpl in *.
      * destruct (decide (i = length (requests e))) as [->|Hne].
        -- exfalso. destruct (resolve_extends fuel lst' e3) as [rs Hrs].
           rewrite Hrs, Hq, <- app_assoc in Hlog. simpl in Hlog.
           rewrite Hfirst in Hlog. injection Hlog as <-.
           rewrite (Hnf _ _ Hr) in Hf. discriminate.
        -- apply (IH lst' e3 i names pkgs err); try done.
           ++ rewrite Hq, length_app. simpl. lia.
           ++ by rewrite (fatal_noUnknown (factory e)).
      * by destruct (Hna err0 e3).
      * exfalso. pose proof (lookup_lt_Some _ _ _ Hlog) as Hlt.
        rewrite Hq, length_app in Hlt. simpl in Hlt.
        assert (i = length (requests e)) as -> by lia.
        rewrite Hq, (Hfirst []) in Hlog. injection Hlog as <-.
        rewrite (Hnf _ _ Hr) in Hf. discriminate.
Qed.

(** A pass in which the remote source reports names as not found, with
    unknown packages allowed, returns when the scanned nodes are nodes of
    the graph, the names answered differ from each other and from those
    in the graph, and the identifiers do not run out. *)
Lemma layer_returns lst e L e1 pkgs names :
  consistent (graph e) ->
  scan lst e = Val L e1 ->
  ReadAll (length (requests e)) (fromAUR (unavailable L))
    = (pkgs, Some (NotFoundError names)) ->
  noUnknown (factory e) = false ->
  (forall v, v ∈ lst -> v ∈ Nodes (graph e)) ->
  idsBelow (graph e1) ->
  roomFor (length names + length pkgs) (graph e1) ->
  NoDup (names ++ map aurName pkgs) ->
  (forall s, s ∈ names ++ map aurName pkgs -> HasName (graph e) s = false) ->
  exists lst' e', layer ReadAll lst e = Val (Continue lst') e'.
Proof.
  intros Hg Hs Hr Hno Hlst Hids Hroom Hnd Hnew.
  pose proof (scan_scanned _ _ _ _ Hs) as [Hfac Hreq Hnm Hnodes Hc1 _].
  rewrite (layer_not_found lst e L e1 pkgs names Hs);
    [|by rewrite Hreq|by rewrite Hfac].
  assert (Hmap : map PkgName (map unknownPkg names ++ map OfAUR pkgs)
                 = names ++ map aurName pkgs).
  { rewrite map_app, !map_map. simpl. by rewrite map_id. }
  destruct (addFetched_returns (map unknownPkg names ++ map OfAUR pkgs) L
              (state_of (fetch ReadAll (fromAUR (unavailable L)) e1)))
    as (L2 & e3 & Hrun).
  - simpl. auto.
  - exact Hids.
  - by rewrite length_app, !length_map.
  - by rewrite Hmap.
  - intros p Hp. simpl. rewrite (HasName_names _ _ _ Hnm). apply Hnew.
    rewrite <- Hmap. apply list_elem_of_fmap. eauto.
  - intros k v Hv. simpl. rewrite Hnodes. apply Hlst.
    by apply (scan_pending_sub lst e L e1 Hs k).
  - rewrite Hrun. eauto.
Qed.

(** Seeding makes no edge. *)
Lemma noEdges_NewGraph : noEdges NewGraph.
Proof. intros i row. simpl. by rewrite lookup_empty. Qed.

Lemma noEdges_NewNode p g : noEdges g -> noEdges (state_of (NewNode p g)).
Proof. done. Qed.

Lemma noEdges_AddNode n g : noEdges g -> noEdges (state_of (AddNode n g)).
Proof.
  intros Hg. unfold AddNode.
  destruct (HasName g _); [done|]. destruct (Has g n); [done|].
  intros i row. simpl. destruct (decide (ID n = i)) as [<-|Hne].
  - rewrite lookup_insert_eq. by intros [= <-].
  - rewrite lookup_insert_ne by done. apply Hg.
Qed.

Lemma noEdges_onGraph {A} (m : M Graph A) e :
  noEdges (state_of (m (graph e))) -> noEdges (graph (state_of (onGraph m e))).
Proof. unfold onGraph. by destruct (m (graph e)). Qed.

Lemma noEdges_seed pkgs e :
  noEdges (graph e) -> noEdges (graph (state_of (seed pkgs e))).
Proof.
  apply (forM_state_inv (fun s => noEdges (graph s))).
  intros lst p s Hs. unfold seedStep. apply bind_state_inv.
  { by apply noEdges_onGraph, noEdges_NewNode. }
  intros v s1 Hs1. apply bind_state_inv; [|by intros].
  by apply noEdges_onGraph, noEdges_AddNode.
Qed.

(** With nothing pending, [addFetchedPkg] makes no edge either. *)
Lemma noEdges_addFetchedPkg L p e L' e' :
  pending L = ∅ -> noEdges (graph e) ->
  addFetchedPkg L p e = Val L' e' ->
  pending L' = ∅ /\ noEdges (graph e').
Proof.
  intros HL He. unfold addFetchedPkg, bind.
  pose proof (noEdges_onGraph (NewNode p) e (noEdges_NewNode p _ He)) as H1.
  destruct (onGraph (NewNode p) e) as [u e1|]; [|discriminate]. simpl in H1.
  pose proof (noEdges_onGraph (AddNode u) e1 (noEdges_AddNode u _ H1)) as H2.
  destruct (onGraph (AddNode u) e1) as [[] e2|]; [|discriminate]. simpl in H2.
  rewrite HL, lookup_empty. simpl. unfold ret. by intros [= <- <-].
Qed.

Lemma noEdges_layer_nil e lst' e' :
  noEdges (graph e) ->
  layer ReadAll [] e = Val (Continue lst') e' -> noEdges (graph e').
Proof.
  intros He.
  assert (Hloop : forall ps, addAnswered ps emptyLayer (state_of (fetch ReadAll [] e))
                             = Val (Continue lst') e' -> noEdges (graph e')).
  { intros ps. unfold addAnswered.
    destruct (forM ps addFetchedPkg emptyLayer _) as [L2 e3|] eqn:E; [|discriminate].
    intros [= _ <-]. revert E.
    apply (forM_ind (fun b s => pending b = ∅ /\ noEdges (graph s))); [|done].
    intros b a s b' s' _ [Hb Hs]. by apply noEdges_addFetchedPkg. }
  rewrite layer_nil_eq.
  destruct (ReadAll (length (requests e)) []).2 as [err|]; [|apply Hloop].
  destruct (fatal (factory e) err); [discriminate|apply Hloop].
Qed.

Lemma noEdges_resolve fuel :
  forall lst e g err e',
    noEdges (graph e) ->
    resolve ReadAll fuel lst e = (Return (Some g) err, e') -> noEdges g.
Proof.
  induction fuel as [|fuel IH]; intros lst e g err e' He; simpl.
  - destruct (bool_decide _); [discriminate|]. by intros [= <- _ _].
  - destruct lst as [|v lst]; simpl; [|by intros [= <- _ _]].
    destruct (layer ReadAll [] e) as [[lst'|err0] e3|msg e3] eqn:Hl;
      [|discriminate|discriminate].
    apply IH. by apply (noEdges_layer_nil e lst' e3).
Qed.

(** Whatever the seeds, the remote source and the fuel, a graph that
    [Factory.NewGraph] returns has no edge. *)
Lemma NewGraph_no_edges fuel f reqs pkgs g err e' u v :
  Factory_NewGraph ReadAll fuel f reqs pkgs = (Return (Some g) err, e') ->
  EdgeOf g u v = None.
Proof.
  unfold Factory_NewGraph. intros H.
  pose proof (noEdges_seed pkgs {| factory := f; graph := NewGraph; requests := reqs |}
                noEdges_NewGraph) as Hs.
  destruct (seed pkgs _) as [lst e|msg e]; [|discriminate]. simpl in Hs.
  apply (noEdges_resolve fuel lst e g err e' Hs) in H.
  unfold EdgeOf. destruct (edges g !! ID u) as [row|] eqn:E; simpl.
  - apply H in E as ->. apply lookup_empty.
  - apply lookup_empty.
Qed.

(** Seeding leaves the factory and the request log alone. *)
Lemma seed_frame pkgs e :
  factory (state_of (seed pkgs e)) = factory e /\
  requests (state_of (seed pkgs e)) = requests e.
Proof.
  apply (forM_state_inv (fun s => factory s = factory e /\ requests s = requests e));
    [|done].
  intros lst p s Hs. unfold seedStep. apply bind_state_inv.
  { destruct (onGraph_frame (NewNode (OfAUR p)) s) as [-> ->]. exact Hs. }
  intros v s1 Hs1. apply bind_state_inv; [|by intros].
  destruct (onGraph_frame (AddNode v) s1) as [-> ->]. exact Hs1.
Qed.

End PassFacts.

(** *** The loop and its guard *)

(** C1. A seed list that is not empty should have the dependencies of its
    nodes processed.  The loop of [Factory.NewGraph] runs while the list of
    nodes to process is empty, so with seeds it does not run at all: the
    call returns the graph of the seed nodes alone, whatever the factory,
    the remote source and the fuel.  For the seed [pkgA], which needs "b",
    no node "b" and no edge are made and the remote source is never
    asked. *)
Theorem NewGraph_never_expands_seeds :
  (forall ReadAll fuel f reqs p pkgs,
     Factory_NewGraph ReadAll fuel f reqs (p :: pkgs) =
     match seed (p :: pkgs) {| factory := f; graph := NewGraph; requests := reqs |} with
     | Val _ e => (Return (Some (graph e)) None, e)
     | Panic msg e => (Panicked msg, e)
     end) /\
  (forall fuel, exists g e,
     Factory_NewGraph aurAB fuel plainFactory [] [pkgA] = (Return (Some g) None, e) /\
     depFunc plainFactory (Pkg nodeA) = ["b"] /\
     Nodes g = [nodeA] /\ HasName g "b" = false /\
     From g nodeA = [] /\ To g nodeA = [] /\ edges g !! ID nodeA = Some ∅ /\
     requests e = [] /\ NumRequestsAUR (factory e) = 0).
Proof.
  split; [apply NewGraph_of_seeds|].
  intros fuel. rewrite NewGraph_of_seeds.
  eexists _, _. split; [vm_compute; reflexivity|].
  repeat split; vm_compute; reflexivity.
Qed.

(** C5. [Factory.NewGraph] should end on every seed list, and build both
    nodes and both edges of a dependency cycle.  For the cycle of [pkgA]
    and [pkgB] the loop is skipped: seeded with [pkgA] the graph has no
    node "b", seeded with both it has the two nodes and no edge.  On the
    empty seed list the loop does run, and keeps running as long as the
    remote source answers the empty request with nothing: no amount of
    fuel lets the call return.  And whatever the seeds and the remote
    source, a graph the call returns has no edge at all. *)
Theorem NewGraph_cycle_and_termination :
  (forall fuel, exists g e,
     Factory_NewGraph aurAB fuel plainFactory [] [pkgA] = (Return (Some g) None, e) /\
     Nodes g = [nodeA] /\ HasName g "b" = false /\ EdgeOf g nodeA nodeB = None) /\
  (forall fuel, exists g e,
     Factory_NewGraph aurAB fuel plainFactory [] [pkgA; pkgB] = (Return (Some g) None, e) /\
     Nodes g = [nodeA; nodeB] /\
     EdgeOf g nodeA nodeB = None /\ EdgeOf g nodeB nodeA = None /\
     From g nodeA = [] /\ From g nodeB = []) /\
  (forall fuel f reqs,
     fst (Factory_NewGraph aurSilent fuel f reqs []) = OutOfFuel) /\
  (forall ReadAll fuel f reqs pkgs g err e u v,
     Factory_NewGraph ReadAll fuel f reqs pkgs = (Return (Some g) err, e) ->
     EdgeOf g u v = None).
Proof.
  split; [|split; [|split]]; [| | |apply NewGraph_no_edges].
  - intros fuel. rewrite NewGraph_of_seeds.
    eexists _, _. split; [vm_compute; reflexivity|].
    repeat split; vm_compute; reflexivity.
  - intros fuel. rewrite NewGraph_of_seeds.
    eexists _, _. split; [vm_compute; reflexivity|].
    repeat split; vm_compute; reflexivity.
  - intros fuel f reqs. unfold Factory_NewGraph. simpl.
    generalize ({| factory := f; graph := NewGraph; requests := reqs |}).
    induction fuel as [|fuel IH]; intros e; [reflexivity|].
    simpl. apply IH.
Qed.

(** C3. A dependency found in the sync map should get a node that is
    inserted into the graph, and an edge.  Seeded with [pkgX], whose
    dependency "y" is in the sync map, [Factory.NewGraph] returns a graph
    without a node "y" and without an edge, the loop being skipped.  And
    the loop body itself, run on that seed node, makes the node for "y" and
    records the edge but never calls [AddNode]: the edge ends in a node
    that is not in the graph. *)
Theorem sync_dependency_not_inserted :
  (forall fuel, exists g e,
     Factory_NewGraph aurSilent fuel syncFactory [] [pkgX] = (Return (Some g) None, e) /\
     depFunc syncFactory (Pkg nodeX) = ["y"] /\
     sync syncFactory !! "y" = Some pkgY /\
     Nodes g = [nodeX] /\ HasName g "y" = false /\ EdgeOf g nodeX nodeY = None) /\
  (exists L e,
     scan [nodeX] (seeded syncFactory [pkgX]) = Val L e /\
     new L = [nodeY] /\
     EdgeOf (graph e) nodeX nodeY = Some {| from := nodeX; to := nodeY |} /\
     Nodes (graph e) = [nodeX] /\
     Has (graph e) nodeY = false /\ HasName (graph e) "y" = false) /\
  (exists lst e,
     layer aurSilent [nodeX] (seeded syncFactory [pkgX]) = Val (Continue lst) e /\
     lst = [nodeY] /\
     EdgeOf (graph e) nodeX nodeY = Some {| from := nodeX; to := nodeY |} /\
     Nodes (graph e) = [nodeX] /\
     Has (graph e) nodeY = false /\ HasName (graph e) "y" = false).
Proof.
  split; [|split].
  - intros fuel. rewrite NewGraph_of_seeds.
    eexists _, _. split; [vm_compute; reflexivity|].
    repeat split; vm_compute; reflexivity.
  - eexists _, _. split; [vm_compute; reflexivity|].
    repeat split; vm_compute; reflexivity.
  - eexists _, _. split; [vm_compute; reflexivity|].
    repeat split; vm_compute; reflexivity.
Qed.

(** C4. A pass over nodes with K distinct unavailable names should send
    one request of exactly K distinct names.  Seeded with [pkgA], whose
    dependency "b" is unavailable (K = 1), [Factory.NewGraph] sends no
    request at all and leaves the counter at 0, the loop being skipped.
    And the loop body itself, run on that seed node, does send one request
    and counts it, but the request holds the empty string next to "b": two
    distinct names.  In general, a pass whose scan returns sends one
    request and counts it once; the request is as many empty strings as
    there are unavailable names, followed by those names, and so holds
    K + 1 distinct names as soon as K is not 0 (and no dependency is named
    by the empty string). *)
Theorem remote_request_has_empty_names :
  (forall fuel, exists g e,
     Factory_NewGraph aurAB fuel plainFactory [] [pkgA] = (Return (Some g) None, e) /\
     depFunc plainFactory (Pkg nodeA) = ["b"] /\
     requests e = [] /\ NumRequestsAUR (factory e) = 0) /\
  (exists L e,
     scan [nodeA] (seeded plainFactory [pkgA]) = Val L e /\
     rangeKeys (unavailable L) = ["b"] /\
     size (unavailable L) = 1%nat /\
     fromAUR (unavailable L) = [""; "b"]) /\
  (exists lst e,
     layer aurAB [nodeA] (seeded plainFactory [pkgA]) = Val (Continue lst) e /\
     requests e = [[""; "b"]] /\ distinctNames [""; "b"] = 2%nat /\
     NumRequestsAUR (factory e) = 1) /\
  (forall ReadAll lst e L e1,
     scan lst e = Val L e1 ->
     requests (state_of (layer ReadAll lst e))
       = requests e ++ [replicate (size (unavailable L)) "" ++ rangeKeys (unavailable L)] /\
     NumRequestsAUR (factory (state_of (layer ReadAll lst e)))
       = wrap_int (NumRequestsAUR (factory e) + 1)) /\
  (forall m : gmap string bool,
     m <> ∅ -> m !! "" = None ->
     distinctNames (rangeKeys m) = size m /\
     distinctNames (fromAUR m) = S (size m)).
Proof.
  split; [|split; [|split; [|split]]].
  - intros fuel. rewrite NewGraph_of_seeds.
    eexists _, _. split; [vm_compute; reflexivity|].
    repeat split; vm_compute; reflexivity.
  - eexists _, _. split; [vm_compute; reflexivity|].
    repeat split; vm_compute; reflexivity.
  - eexists _, _. split; [vm_compute; reflexivity|].
    repeat split; vm_compute; reflexivity.
  - intros ReadAll lst e L e1 Hs. by apply (layer_one_request ReadAll lst e L e1).
  - intros m Hm He. split; [apply rangeKeys_distinct|by apply fromAUR_distinct].
Qed.

(** *** Errors of the remote source *)

(** C8. When the remote source returns an error that is not a not-found
    error, or any error while unknown packages are forbidden:
    a pass of the loop, over whatever nodes, ends in [return nil, err]
    right after the request, with the graph as the scan left it; and in
    every run of [Factory.NewGraph], on any seeds and with any fuel, a
    request sent during the run and answered with such an error is the last
    thing the run does: the call returns no graph and that error. *)
Theorem lookup_error_aborts
    (ReadAll : nat -> list string -> list AurPackage * option error) :
  (forall lst e L e1 pkgs err,
     scan lst e = Val L e1 ->
     ReadAll (length (requests e)) (fromAUR (unavailable L)) = (pkgs, Some err) ->
     IsNotFound err = false \/ noUnknown (factory e) = true ->
     exists e', layer ReadAll lst e = Val (Abort err) e' /\
       graph e' = graph e1 /\
       requests e' = requests e ++ [fromAUR (unavailable L)]) /\
  (forall fuel f reqs seeds i names pkgs err,
     (length reqs <= i)%nat ->
     requests (Factory_NewGraph ReadAll fuel f reqs seeds).2 !! i = Some names ->
     ReadAll i names = (pkgs, Some err) ->
     IsNotFound err = false \/ noUnknown f = true ->
     (Factory_NewGraph ReadAll fuel f reqs seeds).1 = Return None (Some err) /\
     length (requests (Factory_NewGraph ReadAll fuel f reqs seeds).2) = S i).
Proof.
  split.
  - intros lst e L e1 pkgs err Hs Hr Hf.
    pose proof (scan_scanned _ _ _ _ Hs) as [Hfac Hreq _ _ _ _].
    eexists. split.
    + apply (layer_fatal ReadAll lst e L e1 pkgs err Hs); [by rewrite Hreq|].
      unfold fatal. rewrite Hfac.
      destruct Hf as [-> | ->]; [by rewrite andb_false_r|done].
    + simpl. by rewrite Hreq.
  - intros fuel f reqs seeds i names pkgs err Hi Hlog Hr Hf.
    unfold Factory_NewGraph in *.
    pose proof (seed_frame seeds {| factory := f; graph := NewGraph; requests := reqs |})
      as [Hfac Hreq].
    destruct (seed seeds _) as [lst e|msg e]; simpl in *.
    + apply (resolve_log ReadAll fuel lst e i names pkgs err); try done.
      * by rewrite Hreq.
      * unfold fatal. rewrite Hfac. simpl.
        destruct Hf as [-> | ->]; [by rewrite andb_false_r|done].
    + exfalso. apply lookup_lt_Some in Hlog. rewrite Hreq in Hlog. lia.
Qed.

Lemma lookup_error_aborts_witness :
  (exists e', layer aurDown [nodeA] (seeded plainFactory [pkgA])
              = Val (Abort (OtherError "connection refused")) e' /\
     Nodes (graph e') = [nodeA] /\ requests e' = [[""; "b"]]) /\
  ((Factory_NewGraph aurDown 1 plainFactory [] []).1
     = Return None (Some (OtherError "connection refused")) /\
   length (requests (Factory_NewGraph aurDown 1 plainFactory [] []).2) = 1%nat).
Proof.
  destruct (lookup_error_aborts aurDown) as [Hpass Hrun]. split.
  - destruct (Hpass [nodeA] (seeded plainFactory [pkgA])
                    (match scan [nodeA] (seeded plainFactory [pkgA]) with
                     | Val L _ => L | Panic _ _ => emptyLayer end)
                    (state_of (scan [nodeA] (seeded plainFactory [pkgA])))
                    [] (OtherError "connection refused"))
      as (e' & He' & Hg & Hr).
    + vm_compute. reflexivity.
    + reflexivity.
    + left. reflexivity.
    + exists e'. split; [exact He'|]. split.
      * unfold Nodes. rewrite Hg. vm_compute. reflexivity.
      * rewrite Hr. vm_compute. reflexivity.
  - apply (Hrun 1%nat plainFactory [] [] 0%nat [] [] (OtherError "connection refused")).
    + simpl. lia.
    + vm_compute. reflexivity.
    + reflexivity.
    + left. reflexivity.
Defined.

(** With enough fuel the run does get that far: after [k] answers that
    leave nothing to process, an error the loop gives up on ends the call
    on the empty seed list. *)
Lemma NewGraph_aborts_after_quiet
    (ReadAll : nat -> list string -> list AurPackage * option error)
    f reqs k fuel pkgs err :
  (forall i, (i < k)%nat -> quiet f (ReadAll (length reqs + i)%nat []) = true) ->
  ReadAll (length reqs + k)%nat [] = (pkgs, Some err) ->
  IsNotFound err = false \/ noUnknown f = true ->
  (k < fuel)%nat ->
  exists e',
    Factory_NewGraph ReadAll fuel f reqs [] = (Return None (Some err), e') /\
    Nodes (graph e') = [] /\
    length (requests e') = S (length reqs + k).
Proof.
  intros Hq Hr Hf Hk.
  destruct (resolve_aborts ReadAll k pkgs err fuel
              {| factory := f; graph := NewGraph; requests := reqs |})
    as (e' & He' & Hg & Hl); try done.
  - unfold fatal. simpl.
    destruct Hf as [-> | ->]; [by rewrite andb_false_r|done].
  - exists e'. split; [exact He'|]. unfold Nodes. by rewrite Hg.
Qed.

(** *** Names nobody knows *)

(** C7. A dependency name that nobody knows should end as one leaf node
    of origin Unknown in the returned graph, with an edge from every
    package that lists it, and stay out of the nodes to process next.
    Seeded with [pkgH], whose dependency "ghost" is in neither map and
    which the remote source would report as not found, with unknown
    packages allowed, [Factory.NewGraph] returns a graph that holds the
    node of [pkgH] alone: no node is named "ghost", and the remote source
    was not asked, the loop being skipped.  And the loop body itself, run
    on that seed node, makes the placeholder and its edge but hands the
    placeholder on as the one node to process next, as [addFetchedPkg]
    does with every node it makes. *)
Theorem unknown_dependency_not_resolved :
  (forall fuel, exists g e,
     Factory_NewGraph aurNoGhost fuel plainFactory [] [pkgH]
       = (Return (Some g) None, e) /\
     noUnknown plainFactory = false /\
     depFunc plainFactory (Pkg nodeH) = ["ghost"] /\
     local plainFactory !! "ghost" = None /\
     sync plainFactory !! "ghost" = None /\
     Nodes g = [nodeH] /\ HasName g "ghost" = false /\
     NodeWithName g "ghost" = None /\
     requests e = [] /\ NumRequestsAUR (factory e) = 0) /\
  (exists lst' e',
     layer aurNoGhost [nodeH] (seeded plainFactory [pkgH])
       = Val (Continue lst') e' /\
     Pkg nodeGhost = unknownPkg "ghost" /\
     Nodes (graph e') = [nodeH; nodeGhost] /\
     EdgeOf (graph e') nodeH nodeGhost
       = Some {| from := nodeH; to := nodeGhost |} /\
     lst' = [nodeGhost]).
Proof.
  split.
  - intros fuel. rewrite NewGraph_of_seeds.
    eexists _, _. split; [vm_compute; reflexivity|].
    repeat split; vm_compute; reflexivity.
  - eexists _, _. split; [vm_compute; reflexivity|].
    repeat split; vm_compute; reflexivity.
Qed.

(** * Further properties of the graph *)

(** ** Adding a node *)

(** X1. [AddNode] of a node whose name and identifier the graph does not
    have returns, and the node can then be found: [Has] and [HasName]
    are true, [NodeWithName] gives the node back, it is the last of
    [Nodes], and its [From] and [To] are empty, also when an edge to its
    identifier had been recorded before.  Lookups of other names and
    identifiers are as they were. *)
Theorem AddNode_round_trip (g : Graph) (n : Node) :
  HasName g (PkgName (Pkg n)) = false ->
  Has g n = false ->
  exists g',
    AddNode n g = Val tt g' /\
    Has g' n = true /\ HasName g' (PkgName (Pkg n)) = true /\
    NodeWithName g' (PkgName (Pkg n)) = Some n /\
    Nodes g' = Nodes g ++ [n] /\
    From g' n = [] /\ To g' n = [] /\
    (forall s, s <> PkgName (Pkg n) -> NodeWithName g' s = NodeWithName g s) /\
    (forall m, ID m <> ID n ->
       Has g' m = Has g m /\ From g' m = From g m /\ To g' m = To g m /\
       forall b, EdgeOf g' m b = EdgeOf g m b).
Proof.
  intros Hn Hi. eexists. split; [by apply AddNode_returns|].
  unfold Has, HasName, NodeWithName, Nodes, From, To, EdgeOf. simpl.
  rewrite !lookup_insert_eq. simpl.
  split; [done|]. split; [done|].
  split; [done|]. split; [done|]. split; [done|]. split; [done|]. split.
  - intros s Hs. by rewrite lookup_insert_ne.
  - intros m Hm. by rewrite !lookup_insert_ne.
Qed.

Lemma AddNode_round_trip_witness :
  exists g',
    AddNode nodeB (calls danglingCalls NewGraph) = Val tt g' /\
    To (calls danglingCalls NewGraph) nodeB = [nodeB] /\
    Has g' nodeB = true /\ NodeWithName g' "b" = Some nodeB /\
    Nodes g' = [nodeA; nodeB] /\ From g' nodeB = [] /\ To g' nodeB = [].
Proof.
  destruct (AddNode_round_trip (calls danglingCalls NewGraph) nodeB)
    as (g' & Hadd & Hhas & _ & Hname & Hnodes & Hfrom & Hto & _).
  - vm_compute. reflexivity.
  - vm_compute. reflexivity.
  - exists g'. split; [exact Hadd|]. split; [vm_compute; reflexivity|].
    split; [exact Hhas|]. split; [exact Hname|].
    split; [rewrite Hnodes; vm_compute; reflexivity|]. auto.
Defined.

(** ** Adding an edge *)

(** X2. On a graph built by calls of the mutators, [AddEdgeFromTo u v]
    panics exactly when [u] was not added, with the graph left as it was;
    whether [v] was added plays no part. *)
Theorem AddEdgeFromTo_needs_source (cs : list Call) (u v : Node) :
  (Has (calls cs NewGraph) u = false ->
   AddEdgeFromTo u v (calls cs NewGraph)
   = Panic "assignment to entry in nil map" (calls cs NewGraph)) /\
  (Has (calls cs NewGraph) u = true ->
   exists g', AddEdgeFromTo u v (calls cs NewGraph) = Val tt g').
Proof.
  assert (Hg : consistent (calls cs NewGraph))
    by apply consistent_calls, consistent_NewGraph.
  split; intros Hu.
  - apply Has_false in Hu. unfold AddEdgeFromTo.
    destruct (edges (calls cs NewGraph) !! ID u) as [row|] eqn:E; [|done].
    assert (is_Some (nodeIDs (calls cs NewGraph) !! ID u)) as [m Hm]
      by (apply (edges_dom _ Hg); eauto).
    congruence.
  - apply Has_true, (edges_dom _ Hg) in Hu as [row Hrow].
    eexists. by apply (AddEdgeFromTo_returns u v _ row).
Qed.

Lemma AddEdgeFromTo_needs_source_witness :
  AddEdgeFromTo nodeB nodeA (calls [CallNewNodeID; CallAddNode nodeA] NewGraph)
  = Panic "assignment to entry in nil map"
          (calls [CallNewNodeID; CallAddNode nodeA] NewGraph) /\
  exists g', AddEdgeFromTo nodeA nodeB
               (calls [CallNewNodeID; CallAddNode nodeA] NewGraph) = Val tt g'.
Proof.
  split.
  - apply (proj1 (AddEdgeFromTo_needs_source [CallNewNodeID; CallAddNode nodeA]
                    nodeB nodeA)).
    vm_compute. reflexivity.
  - apply (proj2 (AddEdgeFromTo_needs_source [CallNewNodeID; CallAddNode nodeA]
                    nodeA nodeB)).
    vm_compute. reflexivity.
Defined.

(** X3. An [AddEdgeFromTo u v] that returns stores an edge that [Edge]
    gives back, with [u] and [v] as its ends, coming from the remote source
    when [v] does and printed as the two names around an arrow.  The call
    changes neither the nodes nor the two indices, and no edge object,
    [From] or [To] kept under other identifiers. *)
Theorem AddEdgeFromTo_stores_edge (g g' : Graph) (u v : Node) :
  AddEdgeFromTo u v g = Val tt g' ->
  (exists x, EdgeOf g' u v = Some x /\
     Edge_From x = u /\ Edge_To x = v /\
     Edge_IsFromAUR x = IsFromAUR v /\
     Edge_String x = (PkgName (Pkg u) ++ " -> " ++ PkgName (Pkg v))%string) /\
  Nodes g' = Nodes g /\
  (forall n, Has g' n = Has g n) /\
  (forall s, NodeWithName g' s = NodeWithName g s) /\
  (forall a b, ID a <> ID u \/ ID b <> ID v -> EdgeOf g' a b = EdgeOf g a b) /\
  (forall m, ID m <> ID u -> From g' m = From g m) /\
  (forall m, ID m <> ID v -> To g' m = To g m).
Proof.
  intros H. destruct (edges g !! ID u) as [row|] eqn:E.
  2:{ unfold AddEdgeFromTo in H. by rewrite E in H. }
  pose proof (AddEdgeFromTo_buckets u v g g' H) as (_ & _ & He).
  rewrite (AddEdgeFromTo_returns u v g row E) in H. injection H as <-.
  split; [eexists; split; [exact He|done]|].
  unfold Has, NodeWithName, Nodes, From, To, EdgeOf. simpl.
  split; [done|]. split; [done|]. split; [done|]. split; [|split].
  - intros a b Hab. destruct (decide (ID u = ID a)) as [Hua|Hua].
    + rewrite <- Hua, lookup_insert_eq, E. simpl.
      destruct Hab as [Hab|Hab]; [congruence|]. by rewrite lookup_insert_ne.
    + by rewrite lookup_insert_ne.
  - intros m Hm. by rewrite lookup_insert_ne.
  - intros m Hm. by rewrite lookup_insert_ne.
Qed.

Lemma AddEdgeFromTo_stores_edge_witness :
  (exists x, EdgeOf (state_of (AddEdgeFromTo nodeA nodeB graphAB)) nodeA nodeB = Some x /\
     Edge_From x = nodeA /\ Edge_To x = nodeB /\
     Edge_IsFromAUR x = true /\ Edge_String x = "a -> b") /\
  Nodes (state_of (AddEdgeFromTo nodeA nodeB graphAB)) = [nodeA; nodeB].
Proof.
  destruct (AddEdgeFromTo_stores_edge graphAB
              (state_of (AddEdgeFromTo nodeA nodeB graphAB)) nodeA nodeB)
    as (Hx & Hn & _).
  - vm_compute. reflexivity.
  - split; [exact Hx|]. rewrite Hn. vm_compute. reflexivity.
Defined.

(** ** What every graph built by the mutators keeps *)

Lemma call_cases g c :
  call g c = g \/
  (c = CallNewNodeID /\ call g c = state_of (NewNodeID g)) \/
  (exists n, c = CallAddNode n /\ HasName g (PkgName (Pkg n)) = false /\
             Has g n = false /\ AddNode n g = Val tt (call g c)) \/
  (exists u v row, c = CallAddEdgeFromTo u v /\ edges g !! ID u = Some row /\
                   AddEdgeFromTo u v g = Val tt (call g c)).
Proof.
  destruct c as [|n|u v]; cbn [call].
  - right. left. done.
  - destruct (HasName g (PkgName (Pkg n))) eqn:Hn.
    { left. destruct (AddNode_faults g n) as [m Hm]; [auto|by rewrite Hm]. }
    destruct (Has g n) eqn:Hi.
    { left. destruct (AddNode_faults g n) as [m Hm]; [auto|by rewrite Hm]. }
    right. right. left. exists n. rewrite (AddNode_returns g n Hn Hi). auto.
  - destruct (edges g !! ID u) as [row|] eqn:E.
    + right. right. right. exists u, v, row.
      rewrite (AddEdgeFromTo_returns u v g row E). auto.
    + left. unfold AddEdgeFromTo. by rewrite E.
Qed.

Lemma call_append_only g c :
  consistent g ->
  (exists more, Nodes (call g c) = Nodes g ++ more) /\
  (forall s n, NodeWithName g s = Some n -> NodeWithName (call g c) s = Some n) /\
  (forall n, Has g n = true -> Has (call g c) n = true) /\
  (forall a b, is_Some (EdgeOf g a b) -> is_Some (EdgeOf (call g c) a b)).
Proof.
  intros Hg.
  destruct (call_cases g c)
    as [->|[[-> ->]|[(n & -> & Hn & Hi & Hadd)|(u & v & row & -> & Hrow & Hadd)]]];
    cbn [call] in *.
  - split; [exists []; by rewrite app_nil_r|]. auto.
  - split; [exists []; by rewrite app_nil_r|]. auto.
  - destruct (AddNode_round_trip g n Hn Hi)
      as (g' & Hadd' & _ & _ & _ & Hnodes & _ & _ & Hnames & Hother).
    rewrite Hadd in Hadd'. injection Hadd' as <-.
    split; [by exists [n]|]. split; [|split].
    + intros s m Hm. rewrite Hnames; [done|]. intros ->.
      apply HasName_false in Hn. unfold NodeWithName in Hm. congruence.
    + intros m Hm. destruct (Hother m) as (-> & _); [|done]. intros Heq.
      apply Has_false in Hi. apply Has_true in Hm as [? Hm]. congruence.
    + intros a b [x Hx]. destruct (Hother a) as (_ & _ & _ & ->); [|eauto].
      intros Heq. apply Has_false in Hi. unfold EdgeOf in Hx.
      destruct (edges g !! ID a) as [row|] eqn:E.
      * assert (is_Some (nodeIDs g !! ID a)) as [m Hm]
          by (apply (edges_dom g Hg); eauto).
        congruence.
      * simpl in Hx. by rewrite lookup_empty in Hx.
  - destruct (AddEdgeFromTo_stores_edge g _ u v Hadd)
      as ((x & Hx & _) & Hnodes & Hhas & Hnames & Hedges & _).
    split; [exists []; by rewrite app_nil_r|]. split; [|split].
    + intros s n. by rewrite Hnames.
    + intros n. by rewrite Hhas.
    + intros a b Hab.
      destruct (decide (ID a = ID u)) as [Ha|Ha];
        [destruct (decide (ID b = ID v)) as [Hb|Hb]|].
      * unfold EdgeOf in *. rewrite Ha, Hb. eauto.
      * rewrite Hedges; auto.
      * rewrite Hedges; auto.
Qed.

(** X4. The graph only grows.  Whatever calls of the mutators follow, on
    a graph built by such calls: the nodes stay, in their order, at the
    front of [Nodes]; a name keeps the node [NodeWithName] gave for it; a
    node that [Has] knew stays known; and a pair of nodes that had an edge
    object keeps one. *)
Theorem graph_only_grows (cs0 cs : list Call) :
  (exists more, Nodes (calls cs (calls cs0 NewGraph))
                = Nodes (calls cs0 NewGraph) ++ more) /\
  (forall s n, NodeWithName (calls cs0 NewGraph) s = Some n ->
               NodeWithName (calls cs (calls cs0 NewGraph)) s = Some n) /\
  (forall n, Has (calls cs0 NewGraph) n = true ->
             Has (calls cs (calls cs0 NewGraph)) n = true) /\
  (forall a b, is_Some (EdgeOf (calls cs0 NewGraph) a b) ->
               is_Some (EdgeOf (calls cs (calls cs0 NewGraph)) a b)).
Proof.
  assert (Hg : consistent (calls cs0 NewGraph))
    by apply consistent_calls, consistent_NewGraph.
  revert Hg. generalize (calls cs0 NewGraph). clear cs0.
  induction cs as [|c cs IH]; intros g Hg; simpl.
  - split; [exists []; by rewrite app_nil_r|]. auto.
  - destruct (call_append_only g c Hg) as ((m1 & H1) & H2 & H3 & H4).
    destruct (IH (call g c) (consistent_call g c Hg)) as ((m2 & I1) & I2 & I3 & I4).
    split; [|auto].
    exists (m1 ++ m2). change (foldl call (call g c) cs) with (calls cs (call g c)).
    by rewrite I1, H1, app_assoc.
Qed.

Lemma graph_only_grows_witness :
  exists more,
    Nodes (calls [CallNewNodeID; CallAddNode nodeB; CallAddEdgeFromTo nodeA nodeB]
                 (calls [CallNewNodeID; CallAddNode nodeA] NewGraph))
    = Nodes (calls [CallNewNodeID; CallAddNode nodeA] NewGraph) ++ more.
Proof.
  exact (proj1 (graph_only_grows
                  [CallNewNodeID; CallAddNode nodeA]
                  [CallNewNodeID; CallAddNode nodeB; CallAddEdgeFromTo nodeA nodeB])).
Defined.

Lemma nodup_ids_calls cs g :
  consistent g -> NoDup (nodeIdents g) -> NoDup (nodeIdents (calls cs g)).
Proof.
  revert g. induction cs as [|c cs IH]; intros g Hg Hnd; simpl; [done|].
  apply IH; [by apply consistent_call|].
  destruct (call_cases g c)
    as [->|[[-> ->]|[(n & -> & Hn & Hi & Hadd)|(u & v & row & -> & Hrow & Hadd)]]];
    cbn [call] in *; try done.
  - destruct (AddNode_round_trip g n Hn Hi) as (g' & Hadd' & _ & _ & _ & Hnodes & _).
    rewrite Hadd in Hadd'. injection Hadd' as <-.
    unfold nodeIdents. rewrite Hnodes, map_app. simpl.
    apply NoDup_app. split; [done|]. split; [|apply NoDup_singleton].
    intros i Hi1 Hi2%list_elem_of_singleton. subst i.
    apply (consistent_Has g n Hg) in Hi1. congruence.
  - destruct (AddEdgeFromTo_stores_edge g _ u v Hadd) as (_ & Hnodes & _).
    unfold nodeIdents. by rewrite Hnodes.
Qed.

(** X5. In a graph built by calls of the mutators no two nodes share an
    identifier, [NodeWithName] of a name gives a node exactly when that node
    is in [Nodes] and has that name, and [Has] is true exactly of the
    identifiers of the nodes in [Nodes]. *)
Theorem built_graph_lookups (cs : list Call) :
  NoDup (nodeIdents (calls cs NewGraph)) /\
  (forall s n, NodeWithName (calls cs NewGraph) s = Some n <->
               n ∈ Nodes (calls cs NewGraph) /\ PkgName (Pkg n) = s) /\
  (forall n, Has (calls cs NewGraph) n = true <->
             exists m, m ∈ Nodes (calls cs NewGraph) /\ ID m = ID n).
Proof.
  assert (Hg : consistent (calls cs NewGraph))
    by apply consistent_calls, consistent_NewGraph.
  split; [|split].
  - apply nodup_ids_calls; [apply consistent_NewGraph|constructor].
  - intros s n. unfold NodeWithName, Nodes. split.
    + apply (names_sound _ Hg).
    + intros [Hn <-]. by apply (names_complete _ Hg).
  - intros n. rewrite (consistent_Has _ n Hg). unfold nodeIdents.
    rewrite list_elem_of_fmap. split; intros (m & H1 & H2); eauto.
Qed.

(** The two new invariants. *)
Lemma edgesKeyed_calls cs g : edgesKeyed g -> edgesKeyed (calls cs g).
Proof.
  revert g. induction cs as [|c cs IH]; intros g Hg; simpl; [done|].
  apply IH.
  destruct (call_cases g c)
    as [->|[[-> ->]|[(n & -> & Hn & Hi & Hadd)|(u & v & row & -> & Hrow & Hadd)]]];
    cbn [call] in *; try done.
  - clear Hadd. rewrite (AddNode_returns g n Hn Hi). cbn [state_of].
    intros i r j x. simpl. destruct (decide (ID n = i)) as [<-|Hne].
    + rewrite lookup_insert_eq. intros [= <-]. by rewrite lookup_empty.
    + rewrite lookup_insert_ne by done. apply Hg.
  - clear Hadd. rewrite (AddEdgeFromTo_returns u v g row Hrow). cbn [state_of].
    intros i r j x. simpl. destruct (decide (ID u = i)) as [<-|Hne].
    + rewrite lookup_insert_eq. intros [= <-].
      destruct (decide (ID v = j)) as [<-|Hne].
      * rewrite lookup_insert_eq. by intros [= <-].
      * rewrite lookup_insert_ne by done. by apply Hg.
    + rewrite lookup_insert_ne by done. apply Hg.
Qed.

Lemma bucketsOwn_calls cs g : bucketsOwn g -> bucketsOwn (calls cs g).
Proof.
  revert g. induction cs as [|c cs IH]; intros g Hg; simpl; [done|].
  apply IH. destruct Hg as [HF HT].
  destruct (call_cases g c)
    as [->|[[-> ->]|[(n & -> & Hn & Hi & Hadd)|(u & v & row & -> & Hrow & Hadd)]]];
    cbn [call] in *; try done.
  - clear Hadd. rewrite (AddNode_returns g n Hn Hi). cbn [state_of].
    split; intros i l w; simpl; (destruct (decide (ID n = i)) as [<-|Hne];
      [rewrite lookup_insert_eq; intros [= <-] ?%elem_of_nil; done
      |rewrite lookup_insert_ne by done; eauto]).
  - clear Hadd. rewrite (AddEdgeFromTo_returns u v g row Hrow). cbn [state_of].
    split; intros i l w; simpl.
    + destruct (decide (ID u = i)) as [<-|Hne];
        [|rewrite lookup_insert_ne by done; eauto].
      rewrite lookup_insert_eq. intros [= <-].
      intros [Hw|Hw%list_elem_of_singleton]%elem_of_app; [|by subst].
      unfold From in Hw. destruct (edgesFrom g !! ID u) eqn:E; [eauto|].
      by apply elem_of_nil in Hw.
    + destruct (decide (ID v = i)) as [<-|Hne];
        [|rewrite lookup_insert_ne by done; eauto].
      rewrite lookup_insert_eq. intros [= <-].
      intros [Hw|Hw%list_elem_of_singleton]%elem_of_app; [|by subst].
      unfold To in Hw. destruct (edgesTo g !! ID v) eqn:E; [eauto|].
      by apply elem_of_nil in Hw.
Qed.

(** X6. In a graph built by calls of the mutators, an edge object that
    [Edge] returns for a pair of nodes leads from a node with the
    identifier of the first to a node with the identifier of the second,
    and the first was added to the graph. *)
Theorem Edge_ends (cs : list Call) (a b : Node) (x : Edge) :
  EdgeOf (calls cs NewGraph) a b = Some x ->
  Has (calls cs NewGraph) a = true /\
  ID (Edge_From x) = ID a /\ ID (Edge_To x) = ID b.
Proof.
  assert (Hg : consistent (calls cs NewGraph))
    by apply consistent_calls, consistent_NewGraph.
  assert (Hk : edgesKeyed (calls cs NewGraph)).
  { apply edgesKeyed_calls. intros i row j x0. simpl. by rewrite lookup_empty. }
  unfold EdgeOf. intros Hx.
  destruct (edges (calls cs NewGraph) !! ID a) as [row|] eqn:E.
  - split; [|by apply (Hk _ row)].
    apply Has_true, (edges_dom _ Hg). eauto.
  - simpl in Hx. by rewrite lookup_empty in Hx.
Qed.

Lemma Edge_ends_witness :
  EdgeOf (calls danglingCalls NewGraph) nodeA nodeB
    = Some {| from := nodeA; to := nodeB |} /\
  Has (calls danglingCalls NewGraph) nodeA = true /\
  ID (Edge_From {| from := nodeA; to := nodeB |}) = ID nodeA /\
  ID (Edge_To {| from := nodeA; to := nodeB |}) = ID nodeB.
Proof.
  assert (H : EdgeOf (calls danglingCalls NewGraph) nodeA nodeB
              = Some {| from := nodeA; to := nodeB |}) by (vm_compute; reflexivity).
  split; [exact H|]. exact (Edge_ends danglingCalls nodeA nodeB _ H).
Defined.

(** X7. In a graph built by calls of the mutators, [From] of a node holds
    only nodes with that node's own identifier, and so does [To]:
    [AddEdgeFromTo] appends the source to the bucket of the source and the
    target to the bucket of the target.  So [HasEdgeFromTo] and
    [HasEdgeBetween] are false of two nodes with different identifiers,
    whatever edges were added. *)
Theorem adjacency_holds_own_identifier (cs : list Call) (u v : Node) :
  (forall w, w ∈ From (calls cs NewGraph) u -> ID w = ID u) /\
  (forall w, w ∈ To (calls cs NewGraph) v -> ID w = ID v) /\
  (ID u <> ID v -> HasEdgeFromTo (calls cs NewGraph) u v = false) /\
  (ID u <> ID v -> HasEdgeBetween (calls cs NewGraph) u v = false).
Proof.
  assert (Hb : bucketsOwn (calls cs NewGraph)).
  { apply bucketsOwn_calls. split; intros i l w; simpl; by rewrite lookup_empty. }
  destruct Hb as [HF HT].
  assert (HFrom : forall a w, w ∈ From (calls cs NewGraph) a -> ID w = ID a).
  { intros a w. unfold From.
    destruct (edgesFrom (calls cs NewGraph) !! ID a) eqn:E; [eauto|].
    by intros ?%elem_of_nil. }
  assert (Hno : forall a b, ID a <> ID b ->
                            HasEdgeFromTo (calls cs NewGraph) a b = false).
  { intros a b Hab. apply not_true_is_false. unfold HasEdgeFromTo.
    intros (w & Hw & Heq)%existsb_exists.
    apply bool_decide_eq_true in Heq. subst w.
    apply list_elem_of_In, HFrom in Hw. congruence. }
  split; [apply HFrom|]. split; [|split].
  - intros w. unfold To.
    destruct (edgesTo (calls cs NewGraph) !! ID v) eqn:E; [eauto|].
    by intros ?%elem_of_nil.
  - apply Hno.
  - intros Huv. unfold HasEdgeBetween. rewrite !Hno; [done|congruence|done].
Qed.

Lemma adjacency_holds_own_identifier_witness :
  HasEdgeFromTo (state_of (AddEdgeFromTo nodeA nodeB graphAB)) nodeA nodeB = false /\
  HasEdgeBetween (state_of (AddEdgeFromTo nodeA nodeB graphAB)) nodeA nodeB = false.
Proof.
  destruct (adjacency_holds_own_identifier
              [CallNewNodeID; CallAddNode nodeA; CallNewNodeID; CallAddNode nodeB;
               CallAddEdgeFromTo nodeA nodeB] nodeA nodeB) as (_ & _ & H1 & H2).
  split; [apply H1|apply H2]; vm_compute; discriminate.
Defined.

(** * Further properties of the factory *)

(** ** [NewFactory] *)

Section NewFactoryFacts.

Variable E : Type.
Variable ReadLocalDatabase : E + list Package.
Variable ReadAllSyncDatabases : E + list Package.
Variable EnabledRepositories : E + list string.
Variable ReadSyncDatabase : string -> E + list Package.
Variable ToMap : list Package -> gmap string Package.

Lemma readEnabled_app ignoreRepos enabled pkgs :
  readEnabled E ReadSyncDatabase ignoreRepos enabled pkgs =
  match readEnabled E ReadSyncDatabase ignoreRepos enabled [] with
  | inl err => inl err
  | inr more => inr (pkgs ++ more)
  end.
Proof.
  revert pkgs. induction enabled as [|repo rest IH]; intros pkgs; simpl.
  - by rewrite app_nil_r.
  - destruct (existsb _ ignoreRepos); [apply IH|].
    destruct (ReadSyncDatabase repo) as [err|rpkgs]; [done|].
    rewrite (IH (pkgs ++ rpkgs)), (IH rpkgs).
    destruct (readEnabled E ReadSyncDatabase ignoreRepos rest []); [done|].
    by rewrite app_assoc.
Qed.

Lemma ignored_iff (ignoreRepos : list string) repo :
  existsb (fun ig => bool_decide (repo = ig)) ignoreRepos = true <->
  repo ∈ ignoreRepos.
Proof.
  rewrite existsb_exists. split.
  - intros (ig & Hin & Heq). apply bool_decide_eq_true in Heq. subst.
    by apply list_elem_of_In.
  - intros Hin. exists repo. split; [by apply list_elem_of_In|].
    by apply bool_decide_eq_true.
Qed.

(** The loop reads the enabled repositories that are not ignored, in
    their order, and returns their packages one after the other. *)
Lemma readEnabled_returns ignoreRepos enabled pkgs :
  readEnabled E ReadSyncDatabase ignoreRepos enabled [] = inr pkgs ->
  exists lists,
    Forall2 (fun repo l => ReadSyncDatabase repo = inr l)
            (filter (fun repo => repo ∉ ignoreRepos) enabled) lists /\
    pkgs = concat lists.
Proof.
  revert pkgs. induction enabled as [|repo rest IH]; intros pkgs; simpl.
  - intros [= <-]. exists []. split; [constructor|done].
  - destruct (existsb _ ignoreRepos) eqn:Hig.
    + apply ignored_iff in Hig. rewrite filter_cons_False by (intros H; by apply H).
      apply IH.
    + assert (Hni : repo ∉ ignoreRepos).
      { intros Hin%ignored_iff. congruence. }
      rewrite filter_cons_True by done.
      destruct (ReadSyncDatabase repo) as [err|rpkgs] eqn:Hr; [discriminate|].
      rewrite readEnabled_app.
      destruct (readEnabled E ReadSyncDatabase ignoreRepos rest []) as [|more] eqn:Hm;
        [discriminate|].
      intros [= <-]. destruct (IH more eq_refl) as (lists & HF & ->).
      exists (rpkgs :: lists). split; [by constructor|done].
Qed.

Lemma readEnabled_ext (R2 : string -> E + list Package) ignoreRepos enabled pkgs :
  (forall repo, repo ∈ enabled -> repo ∉ ignoreRepos ->
                R2 repo = ReadSyncDatabase repo) ->
  readEnabled E R2 ignoreRepos enabled pkgs
  = readEnabled E ReadSyncDatabase ignoreRepos enabled pkgs.
Proof.
  revert pkgs. induction enabled as [|repo rest IH]; intros pkgs Hag; simpl; [done|].
  destruct (existsb _ ignoreRepos) eqn:Hig.
  - apply IH. intros r Hr. apply Hag. by apply list_elem_of_further.
  - rewrite Hag; [|apply list_elem_of_here|intros Hin%ignored_iff; congruence].
    destruct (ReadSyncDatabase repo); [done|].
    apply IH. intros r Hr. apply Hag. by apply list_elem_of_further.
Qed.

Lemma readEnabled_fails ignoreRepos before repo after err lists :
  Forall2 (fun r l => ReadSyncDatabase r = inr l)
          (filter (fun r => r ∉ ignoreRepos) before) lists ->
  repo ∉ ignoreRepos ->
  ReadSyncDatabase repo = inl err ->
  forall pkgs,
    readEnabled E ReadSyncDatabase ignoreRepos (before ++ repo :: after) pkgs
    = inl err.
Proof.
  intros HF Hni Hr. revert lists HF.
  induction before as [|r before IH]; intros lists HF pkgs; simpl.
  - destruct (existsb _ ignoreRepos) eqn:Hig.
    + apply ignored_iff in Hig. done.
    + by rewrite Hr.
  - destruct (existsb _ ignoreRepos) eqn:Hig.
    + apply ignored_iff in Hig.
      rewrite filter_cons_False in HF by (intros H; by apply H). by eapply IH.
    + assert (Hn : r ∉ ignoreRepos) by (intros Hin%ignored_iff; congruence).
      rewrite filter_cons_True in HF by done.
      destruct lists as [|l lists]; [by apply Forall2_cons_nil_inv in HF|].
      apply Forall2_cons in HF as [-> HF]. by eapply IH.
Qed.

End NewFactoryFacts.

(** X8. A factory that [NewFactory] returns has its three options off and
    its counter at 0, its local map is made from the local database, and
    its dependency function lists the dependencies of a package followed
    by its make dependencies, as [Node.AllDepends] does, [NumAllDepends]
    names in all. *)
Theorem NewFactory_defaults (E : Type)
    (ReadLocalDatabase ReadAllSyncDatabases : E + list Package)
    (EnabledRepositories : E + list string)
    (ReadSyncDatabase : string -> E + list Package)
    (ToMap : list Package -> gmap string Package)
    (ignoreRepos : list string) (f : Factory) :
  NewFactory E ReadLocalDatabase ReadAllSyncDatabases EnabledRepositories
             ReadSyncDatabase ToMap ignoreRepos = inr f ->
  skipInstalled f = false /\ truncate f = false /\ noUnknown f = false /\
  NumRequestsAUR f = 0 /\
  (exists lpkgs, ReadLocalDatabase = inr lpkgs /\ local f = ToMap lpkgs) /\
  (forall n, depFunc f (Pkg n) = AllDepends n /\
             length (depFunc f (Pkg n)) = NumAllDepends n).
Proof.
  unfold NewFactory. destruct ReadLocalDatabase as [err|lpkgs]; [discriminate|].
  destruct (if bool_decide _ then _ else _) as [err|pkgs]; [discriminate|].
  intros [= <-]. simpl. split_and!; try done; [eauto|].
  intros n. split; [done|]. unfold NumAllDepends. by rewrite length_app.
Qed.

Lemma NewFactory_defaults_witness :
  exists f,
    NewFactory string (inr [pkgY]) (inr [pkgY; pkgZ]) (inr ["core"; "extra"])
               readRepo listToMap [] = inr f /\
    skipInstalled f = false /\ truncate f = false /\ noUnknown f = false /\
    NumRequestsAUR f = 0 /\
    depFunc f (Pkg nodeA) = ["b"].
Proof.
  eexists. split; [reflexivity|].
  destruct (NewFactory_defaults string (inr [pkgY]) (inr [pkgY; pkgZ])
              (inr ["core"; "extra"]) readRepo listToMap [] _ eq_refl)
    as (H1 & H2 & H3 & H4 & _ & H6).
  split; [exact H1|]. split; [exact H2|]. split; [exact H3|]. split; [exact H4|].
  rewrite (proj1 (H6 nodeA)). reflexivity.
Defined.

(** X9. With a list of repositories to ignore, the sync map of the factory
    that [NewFactory] returns is made from the packages of the enabled
    repositories that are not on the list, each read once, in the order in
    which they are enabled.  With no such list it is made from what
    [ReadAllSyncDatabases] returns. *)
Theorem NewFactory_sync (E : Type)
    (ReadLocalDatabase ReadAllSyncDatabases : E + list Package)
    (EnabledRepositories : E + list string)
    (ReadSyncDatabase : string -> E + list Package)
    (ToMap : list Package -> gmap string Package)
    (ignoreRepos : list string) (f : Factory) :
  NewFactory E ReadLocalDatabase ReadAllSyncDatabases EnabledRepositories
             ReadSyncDatabase ToMap ignoreRepos = inr f ->
  (ignoreRepos = [] ->
   exists pkgs, ReadAllSyncDatabases = inr pkgs /\ sync f = ToMap pkgs) /\
  (ignoreRepos <> [] ->
   exists enabled lists,
     EnabledRepositories = inr enabled /\
     Forall2 (fun repo l => ReadSyncDatabase repo = inr l)
             (filter (fun repo => repo ∉ ignoreRepos) enabled) lists /\
     sync f = ToMap (concat lists)).
Proof.
  unfold NewFactory. destruct ReadLocalDatabase as [err|lpkgs]; [discriminate|].
  destruct ignoreRepos as [|ig igs]; simpl.
  - destruct ReadAllSyncDatabases as [err|pkgs]; [discriminate|].
    intros [= <-]. split; [eauto|done].
  - destruct EnabledRepositories as [err|enabled]; [discriminate|].
    destruct (readEnabled E ReadSyncDatabase (ig :: igs) enabled []) as [err|pkgs] eqn:Hr;
      [discriminate|].
    intros [= <-]. split; [done|]. intros _.
    destruct (readEnabled_returns E ReadSyncDatabase _ _ _ Hr) as (lists & HF & ->).
    exists enabled, lists. auto.
Qed.

Lemma NewFactory_sync_witness :
  exists f enabled lists,
    NewFactory string (inr []) (inr [pkgY; pkgZ]) (inr ["core"; "testing"; "extra"])
               readRepo listToMap ["testing"] = inr f /\
    enabled = ["core"; "testing"; "extra"] /\
    Forall2 (fun repo l => readRepo repo = inr l)
            (filter (fun repo => repo ∉ ["testing"]) enabled) lists /\
    sync f = listToMap (concat lists).
Proof.
  eexists.
  destruct (NewFactory_sync string (inr []) (inr [pkgY; pkgZ])
              (inr ["core"; "testing"; "extra"]) readRepo listToMap ["testing"]
              _ eq_refl) as [_ H].
  destruct (H ltac:(discriminate)) as (enabled & lists & He & HF & Hs).
  exists enabled, lists. injection He as <-. auto.
Defined.

(** X10. [NewFactory] gives up on the first error: that of the local
    database, whatever else could be read; else that of
    [EnabledRepositories] or [ReadAllSyncDatabases]; else that of the first
    enabled repository not ignored that cannot be read.  A repository on
    the ignore list is never read: what reading it would give, an error
    included, does not change the result. *)
Theorem NewFactory_errors (E : Type)
    (ReadLocalDatabase ReadAllSyncDatabases : E + list Package)
    (EnabledRepositories : E + list string)
    (ReadSyncDatabase R2 : string -> E + list Package)
    (ToMap : list Package -> gmap string Package)
    (ignoreRepos : list string) :
  (forall err, ReadLocalDatabase = inl err ->
     NewFactory E ReadLocalDatabase ReadAllSyncDatabases EnabledRepositories
                ReadSyncDatabase ToMap ignoreRepos = inl err) /\
  (forall lpkgs err, ReadLocalDatabase = inr lpkgs ->
     (ignoreRepos = [] /\ ReadAllSyncDatabases = inl err) \/
     (ignoreRepos <> [] /\ EnabledRepositories = inl err) ->
     NewFactory E ReadLocalDatabase ReadAllSyncDatabases EnabledRepositories
                ReadSyncDatabase ToMap ignoreRepos = inl err) /\
  (forall lpkgs before repo after lists err,
     ReadLocalDatabase = inr lpkgs -> ignoreRepos <> [] ->
     EnabledRepositories = inr (before ++ repo :: after) ->
     Forall2 (fun r l => ReadSyncDatabase r = inr l)
             (filter (fun r => r ∉ ignoreRepos) before) lists ->
     repo ∉ ignoreRepos -> ReadSyncDatabase repo = inl err ->
     NewFactory E ReadLocalDatabase ReadAllSyncDatabases EnabledRepositories
                ReadSyncDatabase ToMap ignoreRepos = inl err) /\
  ((forall repo, repo ∉ ignoreRepos -> R2 repo = ReadSyncDatabase repo) ->
   NewFactory E ReadLocalDatabase ReadAllSyncDatabases EnabledRepositories
              R2 ToMap ignoreRepos
   = NewFactory E ReadLocalDatabase ReadAllSyncDatabases EnabledRepositories
                ReadSyncDatabase ToMap ignoreRepos).
Proof.
  split_and!.
  - intros err H. unfold NewFactory. by rewrite H.
  - intros lpkgs err Hl [[-> Hr]|[Hne Hr]]; unfold NewFactory; rewrite Hl.
    + simpl. by rewrite Hr.
    + destruct ignoreRepos; [done|]. simpl. by rewrite Hr.
  - intros lpkgs before repo after lists err Hl Hne He HF Hni Hr.
    unfold NewFactory. rewrite Hl. destruct ignoreRepos as [|ig igs]; [done|].
    simpl. rewrite He.
    by rewrite (readEnabled_fails E ReadSyncDatabase (ig :: igs) before repo after
                  err lists HF Hni Hr).
  - intros Hag. unfold NewFactory.
    destruct ReadLocalDatabase; [done|]. destruct (bool_decide _); [done|].
    destruct EnabledRepositories as [|enabled]; [done|].
    rewrite (readEnabled_ext E ReadSyncDatabase R2); [done|]. auto.
Qed.

Lemma NewFactory_errors_witness :
  NewFactory string (inr []) (inr []) (inr ["core"; "testing"; "extra"])
             readRepo listToMap ["extra"] = inl "cannot read testing" /\
  NewFactory string (inr []) (inr []) (inr ["core"; "testing"; "extra"])
             (fun repo => if bool_decide (repo = "testing") then inr [] else readRepo repo)
             listToMap ["testing"]
  = NewFactory string (inr []) (inr []) (inr ["core"; "testing"; "extra"])
               readRepo listToMap ["testing"].
Proof.
  split.
  - apply (proj1 (proj2 (proj2 (NewFactory_errors string (inr []) (inr [])
              (inr ["core"; "testing"; "extra"]) readRepo readRepo listToMap ["extra"])))
             [] ["core"] "testing" ["extra"] [[pkgY]] "cannot read testing").
    + reflexivity.
    + discriminate.
    + reflexivity.
    + repeat constructor.
    + intros H%list_elem_of_singleton. discriminate.
    + reflexivity.
  - apply (proj2 (proj2 (proj2 (NewFactory_errors string (inr []) (inr [])
              (inr ["core"; "testing"; "extra"]) readRepo
              (fun repo => if bool_decide (repo = "testing") then inr [] else readRepo repo)
              listToMap ["testing"])))).
    intros repo Hni. destruct (bool_decide (repo = "testing")) eqn:Hb; [|done].
    apply bool_decide_eq_true in Hb. subst. exfalso. apply Hni, list_elem_of_here.
Defined.

(** ** Seeding *)

Lemma seedStep_returns lst p e :
  consistent (graph e) -> idsBelow (graph e) -> roomFor 1 (graph e) ->
  HasName (graph e) (aurName p) = false ->
  exists e',
    seedStep lst p e
      = Val (lst ++ [{| ID := nextID (graph e) + 1; Pkg := OfAUR p |}]) e' /\
    factory e' = factory e /\ requests e' = requests e /\
    nodes (graph e')
      = nodes (graph e) ++ [{| ID := nextID (graph e) + 1; Pkg := OfAUR p |}] /\
    nextID (graph e') = nextID (graph e) + 1 /\
    consistent (graph e') /\ idsBelow (graph e') /\
    (forall s, s <> aurName p -> HasName (graph e') s = HasName (graph e) s).
Proof.
  intros Hg Hids [Hlo Hhi] Hname.
  set (u := {| ID := nextID (graph e) + 1; Pkg := OfAUR p |}).
  set (g1 := state_of (NewNodeID (graph e))).
  assert (Hnext : nextID g1 = nextID (graph e) + 1).
  { unfold g1. simpl. apply wrap_int_small. lia. }
  assert (Hnew : NewNode (OfAUR p) (graph e) = Val u g1).
  { unfold NewNode, bind, NewNodeID, ret, u, g1. simpl.
    rewrite wrap_int_small by lia. reflexivity. }
  assert (Hfresh : Has g1 u = false).
  { apply Has_false. destruct (nodeIDs g1 !! ID u) as [m|] eqn:E; [|done].
    apply (ids_sound _ Hg) in E as [Hm Hid]. apply Hids in Hm. simpl in *. lia. }
  pose proof (AddNode_returns g1 u Hname Hfresh) as Hadd.
  assert (Hc : consistent (state_of (AddNode u g1))).
  { apply consistent_AddNode. by apply consistent_NewNodeID. }
  rewrite Hadd in Hc. cbn [state_of] in Hc.
  eexists. split.
  { unfold seedStep, bind at 1, onGraph at 1. rewrite Hnew.
    unfold bind at 1, onGraph at 1. cbn [graph]. rewrite Hadd. reflexivity. }
  cbn [factory requests graph nodes nextID names].
  split; [done|]. split; [done|]. split; [done|]. split; [exact Hnext|].
  split; [exact Hc|]. split.
  - intros n. cbn [nodes nextID]. rewrite Hnext.
    intros [Hn|Hn%list_elem_of_singleton]%elem_of_app.
    + apply Hids in Hn. lia.
    + subst n. simpl. lia.
  - intros s Hs. unfold HasName. cbn [names]. by rewrite lookup_insert_ne.
Qed.

Lemma seed_returns pkgs :
  forall acc e,
    consistent (graph e) -> idsBelow (graph e) ->
    roomFor (length pkgs) (graph e) ->
    NoDup (map aurName pkgs) ->
    (forall p, p ∈ pkgs -> HasName (graph e) (aurName p) = false) ->
    exists e',
      forM pkgs seedStep acc e
        = Val (acc ++ seedNodes (nextID (graph e)) pkgs) e' /\
      factory e' = factory e /\ requests e' = requests e /\
      nodes (graph e') = nodes (graph e) ++ seedNodes (nextID (graph e)) pkgs /\
      consistent (graph e').
Proof.
  induction pkgs as [|p pkgs IH]; intros acc e Hg Hids [Hlo Hhi] Hnd Hnames.
  - exists e. simpl. by rewrite !app_nil_r.
  - simpl in Hhi. apply NoDup_cons in Hnd as [Hp Hnd].
    destruct (seedStep_returns acc p e) as (e1 & Hrun & Hf & Hr & Hn & Hnext & Hg1 & Hids1 & Hnm);
      try done.
    { split; simpl; lia. }
    { apply Hnames, list_elem_of_here. }
    destruct (IH (acc ++ [{| ID := nextID (graph e) + 1; Pkg := OfAUR p |}]) e1)
      as (e' & Hrest & Hf' & Hr' & Hn' & Hg'); try done.
    { split; rewrite Hnext; lia. }
    { intros q Hq. rewrite Hnm.
      - apply Hnames. by apply list_elem_of_further.
      - intros Heq. apply Hp. rewrite <- Heq. apply list_elem_of_fmap. eauto. }
    exists e'. simpl. unfold bind. rewrite Hrun, Hrest, Hnext, <- app_assoc.
    split; [done|]. split; [congruence|]. split; [congruence|].
    split; [|done]. rewrite Hn', Hn, Hnext, <- app_assoc. done.
Qed.

(** X11. Seeded with at least one package, all of different names and
    fewer than 2^63, [Factory.NewGraph] returns a graph, whatever the
    remote source and the options: its nodes are those of the seed
    packages, in their order, with the identifiers 1, 2, 3, ...; every one
    of them is found by its name and known to [Has]; the factory is as it
    was and the remote source was not asked. *)
Theorem NewGraph_seeds
    (ReadAll : nat -> list string -> list AurPackage * option error)
    (fuel : nat) (f : Factory) (reqs : list (list string))
    (p : AurPackage) (pkgs : list AurPackage) :
  NoDup (map aurName (p :: pkgs)) ->
  Z.of_nat (length (p :: pkgs)) < 2 ^ 63 ->
  exists g,
    Factory_NewGraph ReadAll fuel f reqs (p :: pkgs)
      = (Return (Some g) None, {| factory := f; graph := g; requests := reqs |}) /\
    Nodes g = seedNodes 0 (p :: pkgs) /\
    (forall n, n ∈ seedNodes 0 (p :: pkgs) ->
       NodeWithName g (PkgName (Pkg n)) = Some n /\ Has g n = true).
Proof.
  intros Hnd Hlen. rewrite NewGraph_of_seeds. unfold seed.
  destruct (seed_returns (p :: pkgs) []
              {| factory := f; graph := NewGraph; requests := reqs |})
    as (e' & Hrun & Hf & Hr & Hn & Hg).
  - apply consistent_NewGraph.
  - intros n Hn. by apply elem_of_nil in Hn.
  - unfold roomFor. cbn [graph nextID NewGraph]. lia.
  - done.
  - intros q _. apply HasName_false. apply lookup_empty.
  - rewrite Hrun. destruct e' as [f' g' r']. simpl in *. subst f' r'.
    exists g'. split; [done|]. split; [done|].
    intros n Hin. unfold NodeWithName, Has. rewrite <- Hn in Hin.
    rewrite (names_complete _ Hg _ Hin). split; [done|].
    apply bool_decide_eq_true. rewrite (ids_complete _ Hg _ Hin). eauto.
Qed.

Lemma NewGraph_seeds_witness :
  exists g,
    Factory_NewGraph aurAB 3 plainFactory [] [pkgA; pkgB]
      = (Return (Some g) None,
         {| factory := plainFactory; graph := g; requests := [] |}) /\
    Nodes g = [nodeA; nodeB] /\
    (forall n, n ∈ [nodeA; nodeB] ->
       NodeWithName g (PkgName (Pkg n)) = Some n /\ Has g n = true).
Proof.
  apply (NewGraph_seeds aurAB 3 plainFactory [] pkgA [pkgB]).
  - apply NoDup_cons. split; [|apply NoDup_singleton].
    intros H%list_elem_of_singleton. discriminate.
  - vm_compute. reflexivity.
Defined.

Lemma first_repeat {A B : Type} `{EqDecision B} (f : A -> B) (l : list A) :
  ~ NoDup (map f l) ->
  exists l1 x l2, l = l1 ++ x :: l2 /\ NoDup (map f l1) /\ f x ∈ map f l1.
Proof.
  induction l as [|x l IH] using rev_ind; intros Hnd.
  - exfalso. apply Hnd. constructor.
  - destruct (decide (NoDup (map f l))) as [Hl|Hl].
    + exists l, x, []. split; [done|]. split; [done|].
      destruct (decide (f x ∈ map f l)) as [Hin|Hin]; [done|].
      exfalso. apply Hnd. rewrite map_app. apply NoDup_app.
      split; [done|]. split; [|apply NoDup_singleton].
      intros y Hy Hy'%list_elem_of_singleton. by subst.
    + destruct (IH Hl) as (l1 & y & l2 & -> & H1 & H2).
      exists l1, y, (l2 ++ [x]). by rewrite <- app_assoc.
Qed.

Lemma seedStep_repeat lst p e :
  HasName (graph e) (aurName p) = true ->
  exists e', seedStep lst p e = Panic "package name already in graph" e' /\
    requests e' = requests e.
Proof.
  intros Hn. unfold seedStep, bind, onGraph, NewNode, NewNodeID, ret, AddNode.
  cbn. unfold HasName in *. cbn. rewrite Hn. eauto.
Qed.

(** X12. Seeded with packages two of which have the same name, fewer than
    2^63 in all, [Factory.NewGraph] panics: [AddNode] refuses the second
    of them.  Nothing is returned and the remote source is not asked. *)
Theorem NewGraph_repeated_seed
    (ReadAll : nat -> list string -> list AurPackage * option error)
    (fuel : nat) (f : Factory) (reqs : list (list string))
    (pkgs : list AurPackage) :
  ~ NoDup (map aurName pkgs) ->
  Z.of_nat (length pkgs) < 2 ^ 63 ->
  exists e,
    Factory_NewGraph ReadAll fuel f reqs pkgs
      = (Panicked "package name already in graph", e) /\
    requests e = reqs.
Proof.
  intros Hnd Hlen.
  destruct (first_repeat aurName pkgs Hnd) as (l1 & p & l2 & -> & Hl1 & Hp).
  rewrite length_app in Hlen. simpl in Hlen.
  unfold Factory_NewGraph, seed. rewrite forM_app.
  destruct (seed_returns l1 [] {| factory := f; graph := NewGraph; requests := reqs |})
    as (e1 & Hrun & Hf & Hr & Hn & Hg).
  - apply consistent_NewGraph.
  - intros n Hn. by apply elem_of_nil in Hn.
  - unfold roomFor. cbn [graph nextID NewGraph]. lia.
  - done.
  - intros q _. apply HasName_false. apply lookup_empty.
  - rewrite Hrun. simpl. unfold bind.
    destruct (seedStep_repeat (seedNodes 0 l1) p e1) as (e2 & Hpanic & Hr2).
    + apply (consistent_HasName _ _ Hg). unfold nodeNames, Nodes. rewrite Hn. simpl.
      clear -Hp. generalize 0. induction l1 as [|q l1 IH]; intros z; simpl in *.
      * by apply elem_of_nil in Hp.
      * apply elem_of_cons in Hp as [->|Hp]; [apply list_elem_of_here|].
        apply list_elem_of_further. by apply IH.
    + rewrite Hpanic. exists e2. split; [done|]. by rewrite Hr2, Hr.
Qed.

Lemma NewGraph_repeated_seed_witness :
  exists e,
    Factory_NewGraph aurAB 3 plainFactory [] [pkgA; pkgB; pkgA]
      = (Panicked "package name already in graph", e) /\
    requests e = [].
Proof.
  apply (NewGraph_repeated_seed aurAB 3 plainFactory [] [pkgA; pkgB; pkgA]).
  - intros H. apply NoDup_cons in H as [H _]. apply H. simpl.
    apply list_elem_of_further, list_elem_of_here.
  - vm_compute. reflexivity.
Defined.

(** ** One pass of the loop, branch by branch *)

Section PassBranches.

Variable ReadAll : nat -> list string -> list AurPackage * option error.

(** A pass whose scan returns: the request, then either the error of the
    remote source, when that is one the loop gives up on, or the loop over
    what was answered. *)
Lemma layer_eq lst e L e1 :
  scan lst e = Val L e1 ->
  layer ReadAll lst e =
  match (ReadAll (length (requests e1)) (fromAUR (unavailable L))).2 with
  | Some err =>
      if fatal (factory e1) err
      then Val (Abort err) (state_of (fetch ReadAll (fromAUR (unavailable L)) e1))
      else addAnswered (answered (ReadAll (length (requests e1)) (fromAUR (unavailable L))))
                       L (state_of (fetch ReadAll (fromAUR (unavailable L)) e1))
  | None => addAnswered (answered (ReadAll (length (requests e1)) (fromAUR (unavailable L))))
                        L (state_of (fetch ReadAll (fromAUR (unavailable L)) e1))
  end.
Proof.
  intros Hs.
  destruct (ReadAll (length (requests e1)) (fromAUR (unavailable L)))
    as [pkgs err] eqn:Hr.
  unfold answered, addAnswered. cbn [fst snd]. destruct err as [err|].
  - destruct (fatal (factory e1) err) eqn:Hfat.
    + by apply (layer_fatal ReadAll lst e L e1 pkgs err).
    + unfold fatal in Hfat. apply negb_false_iff, andb_true_iff in Hfat as [H1 H2].
      apply negb_true_iff in H1. destruct err as [names|]; [|discriminate].
      by rewrite (layer_not_found ReadAll lst e L e1 pkgs names).
  - unfold layer, bind at 1. rewrite Hs.
    unfold bind at 1. rewrite fetch_val, Hr. cbn [fst snd app].
    unfold bind at 1, getFactory. unfold bind.
    by destruct (forM (map OfAUR pkgs) addFetchedPkg L _).
Qed.

Lemma numbered_app start ps qs :
  numbered start (ps ++ qs)
  = numbered start ps ++ numbered (counterAfter (length ps) start) qs.
Proof.
  revert start. induction ps as [|p ps IH]; intros start; simpl; [done|].
  by rewrite IH.
Qed.

Lemma counterAfter_add n m start :
  counterAfter (n + m) start = counterAfter m (counterAfter n start).
Proof. revert start. induction n as [|n IH]; intros start; simpl; auto. Qed.

Lemma syncFound_ext f g f' g' d :
  f' = f -> names g' = names g -> syncFound f' g' d = syncFound f g d.
Proof.
  intros -> Hn. unfold syncFound. by rewrite (HasName_names _ _ _ Hn).
Qed.

Lemma omap_syncFound_ext f g f' g' (ds : list string) :
  f' = f -> names g' = names g ->
  omap (syncFound f' g') ds = omap (syncFound f g) ds.
Proof.
  intros Hf Hn. induction ds as [|d ds IH]; [done|]. cbn.
  rewrite (syncFound_ext f g f' g' d Hf Hn).
  destruct (syncFound f g d); [f_equal|]; exact IH.
Qed.

Lemma AddEdgeFromTo_nextID u v e e' :
  onGraph (AddEdgeFromTo u v) e = Val tt e' ->
  nextID (graph e') = nextID (graph e).
Proof.
  intros H. apply onGraph_val in H as (H & _ & _).
  unfold AddEdgeFromTo in H. destruct (edges (graph e) !! ID u); [|discriminate].
  injection H as H. by rewrite <- H.
Qed.

Lemma NewNode_made p e u e' :
  onGraph (NewNode p) e = Val u e' ->
  u = {| ID := wrap_int (nextID (graph e) + 1); Pkg := p |} /\
  nextID (graph e') = wrap_int (nextID (graph e) + 1).
Proof.
  intros H. apply onGraph_val in H as (H & _ & _).
  unfold NewNode, bind, NewNodeID, ret in H. injection H as <- <-. done.
Qed.

(** What one step of the scan does to the list of new nodes and to the
    counter of the graph. *)
Lemma scanDep_exact v L d e L' e' :
  scanDep v L d e = Val L' e' ->
  match syncFound (factory e) (graph e) d with
  | Some p =>
      nextID (graph e') = wrap_int (nextID (graph e) + 1) /\
      new L' = new L ++ (if truncate (factory e) then []
                         else [{| ID := wrap_int (nextID (graph e) + 1);
                                  Pkg := OfPacman p |}])
  | None => nextID (graph e') = nextID (graph e) /\ new L' = new L
  end.
Proof.
  unfold scanDep, syncFound, bind, getGraph, getFactory.
  destruct (HasName (graph e) d).
  { destruct (NodeWithName (graph e) d) as [u|]; [|discriminate].
    destruct (onGraph (AddEdgeFromTo v u) e) as [[] e1|] eqn:E; [|discriminate].
    unfold ret. intros [= <- <-]. by apply AddEdgeFromTo_nextID in E. }
  destruct (skipInstalled (factory e) && _).
  { unfold ret. by intros [= <- <-]. }
  destruct (sync (factory e) !! d) as [p|].
  - destruct (onGraph (NewNode (OfPacman p)) e) as [u e1|] eqn:E1; [|discriminate].
    destruct (onGraph (AddEdgeFromTo v u) e1) as [[] e2|] eqn:E2; [|discriminate].
    unfold ret. intros [= <- <-].
    apply NewNode_made in E1 as [-> Hid]. apply AddEdgeFromTo_nextID in E2.
    split; [congruence|].
    destruct (truncate (factory e)); simpl; [by rewrite app_nil_r|done].
  - unfold ret. by intros [= <- <-].
Qed.

Lemma scanDeps_exact v ds :
  forall L e L' e',
    forM ds (scanDep v) L e = Val L' e' ->
    nextID (graph e')
    = counterAfter (length (omap (syncFound (factory e) (graph e)) ds))
                   (nextID (graph e)) /\
    new L' = new L ++ (if truncate (factory e) then []
                       else numbered (nextID (graph e))
                              (OfPacman <$> omap (syncFound (factory e) (graph e)) ds)).
Proof.
  induction ds as [|d ds IH]; intros L e L' e'; simpl.
  - unfold ret. intros [= <- <-]. split; [done|].
    destruct (truncate (factory e)); by rewrite app_nil_r.
  - unfold bind. destruct (scanDep v L d e) as [L1 e1|] eqn:E; [|discriminate].
    intros H. pose proof (scanDep_scanned _ _ _ _ _ _ E) as [Hf _ Hn _ _ _].
    apply scanDep_exact in E. apply IH in H as [Hid Hnew].
    rewrite Hf in Hid, Hnew.
    rewrite (omap_syncFound_ext (factory e) (graph e)) in Hid, Hnew by done.
    destruct (syncFound (factory e) (graph e) d) as [p|]; destruct E as [E1 E2].
    + simpl. rewrite Hid, Hnew, E1, E2, <- app_assoc.
      split; [done|]. by destruct (truncate (factory e)).
    + by rewrite Hid, Hnew, E1, E2.
Qed.

Lemma scan_exact lst :
  forall L e L' e',
    forM lst scanNode L e = Val L' e' ->
    nextID (graph e')
    = counterAfter (length (syncDeps (factory e) (graph e) lst))
                   (nextID (graph e)) /\
    new L' = new L ++ (if truncate (factory e) then []
                       else numbered (nextID (graph e))
                              (syncDeps (factory e) (graph e) lst)).
Proof.
  unfold syncDeps.
  induction lst as [|v lst IH]; intros L e L' e'; simpl.
  - unfold ret. intros [= <- <-]. split; [done|].
    destruct (truncate (factory e)); by rewrite app_nil_r.
  - unfold bind. destruct (scanNode L v e) as [L1 e1|] eqn:E; [|discriminate].
    intros H. pose proof (scanNode_scanned _ _ _ _ _ E) as [Hf _ Hn _ _ _].
    unfold scanNode, bind, getFactory in E. apply scanDeps_exact in E as [E1 E2].
    apply IH in H as [Hid Hnew]. rewrite Hf in Hid, Hnew.
    rewrite (omap_syncFound_ext (factory e) (graph e)) in Hid, Hnew by done.
    rewrite omap_app, fmap_app, !length_app, !length_fmap, counterAfter_add.
    rewrite length_fmap in Hid.
    split; [by rewrite Hid, E1|].
    rewrite Hnew, E2, <- app_assoc. f_equal.
    destruct (truncate (factory e)); [done|].
    by rewrite numbered_app, length_fmap, E1.
Qed.

Lemma addFetchedPkg_made L p e L' e' :
  addFetchedPkg L p e = Val L' e' ->
  nextID (graph e') = wrap_int (nextID (graph e) + 1) /\
  new L' = new L ++ [{| ID := wrap_int (nextID (graph e) + 1); Pkg := p |}].
Proof.
  unfold addFetchedPkg, bind.
  destruct (onGraph (NewNode p) e) as [u e1|] eqn:E1; [|discriminate].
  destruct (onGraph (AddNode u) e1) as [[] e2|] eqn:E2; [|discriminate].
  destruct (forM _ _ tt e2) as [[] e3|] eqn:E3; [|discriminate].
  unfold ret. intros [= <- <-]. cbn [new].
  apply NewNode_made in E1 as [-> Hid].
  apply onGraph_val in E2 as (E2 & _ & _). apply AddNode_val in E2.
  assert (H2 : nextID (graph e2) = nextID (graph e1)).
  { rewrite E2. unfold AddNode.
    destruct (HasName _ _); [done|]. by destruct (Has _ _). }
  assert (H3 : nextID (graph e3) = nextID (graph e2)).
  { revert E3.
    apply (forM_ind (fun _ s => nextID (graph s) = nextID (graph e2)));
      [|done].
    intros [] w s [] s' _ Hs Hstep.
    apply AddEdgeFromTo_nextID in Hstep. congruence. }
  split; [congruence|done].
Qed.

Lemma addFetched_made ps :
  forall L e L' e',
    forM ps addFetchedPkg L e = Val L' e' ->
    new L' = new L ++ numbered (nextID (graph e)) ps.
Proof.
  induction ps as [|p ps IH]; intros L e L' e'; simpl.
  - unfold ret. intros [= <- _]. by rewrite app_nil_r.
  - unfold bind. destruct (addFetchedPkg L p e) as [L1 e1|] eqn:E; [|discriminate].
    intros H. apply addFetchedPkg_made in E as [E1 E2].
    rewrite (IH _ _ _ _ H), E1, E2, <- app_assoc. done.
Qed.

Lemma numbered_Pkg start ps : map Pkg (numbered start ps) = ps.
Proof.
  revert start. induction ps as [|p ps IH]; intros start; simpl; [done|].
  by rewrite IH.
Qed.

End PassBranches.

(** X13. The nodes a pass of the loop leaves to process next are exactly
    these, in this order.  First, unless the truncate option is on, one
    node for every dependency of a scanned node that the scan finds in the
    sync map: a name that names no node of the graph, is not skipped as
    installed and is in the sync map, once for each time it is listed.
    Then one node for every answer of the remote source: placeholders for
    the names not found, then the packages found.  The nodes carry the
    identifiers [NewNodeID] hands out in that order from the counter of
    the graph; with the truncate option on the nodes of the first kind are
    made, and use up their identifiers, but are not among the nodes to
    process. *)
Theorem next_frontier
    (ReadAll : nat -> list string -> list AurPackage * option error)
    (e : Env) (lst : list Node) (L : Layer) (e1 : Env)
    (lst' : list Node) (e' : Env) :
  scan lst e = Val L e1 ->
  layer ReadAll lst e = Val (Continue lst') e' ->
  new L = (if truncate (factory e) then []
           else numbered (nextID (graph e))
                         (syncDeps (factory e) (graph e) lst)) /\
  nextID (graph e1)
  = counterAfter (length (syncDeps (factory e) (graph e) lst))
                 (nextID (graph e)) /\
  lst' = new L
         ++ numbered (nextID (graph e1))
              (answered (ReadAll (length (requests e))
                                 (fromAUR (unavailable L)))).
Proof.
  intros Hs Hl.
  pose proof (scan_scanned _ _ _ _ Hs) as [Hfac Hreq _ _ _ _].
  destruct (scan_exact _ _ _ _ _ Hs) as [Hid Hnew]. simpl in Hnew.
  split; [exact Hnew|]. split; [exact Hid|].
  rewrite (layer_eq ReadAll lst e L e1 Hs), Hreq in Hl.
  set (r := ReadAll (length (requests e)) (fromAUR (unavailable L))) in *.
  assert (Hadd : addAnswered (answered r) L
                   (state_of (fetch ReadAll (fromAUR (unavailable L)) e1))
                 = Val (Continue lst') e' ->
                 lst' = new L ++ numbered (nextID (graph e1)) (answered r)).
  { unfold addAnswered.
    destruct (forM (answered r) addFetchedPkg L _) as [L2 e2|] eqn:E;
      [|discriminate].
    intros [= <- _]. by apply addFetched_made in E. }
  destruct (r.2) as [err|]; [|by apply Hadd].
  destruct (fatal (factory e1) err); [discriminate|by apply Hadd].
Qed.

Lemma next_frontier_witness :
  exists L e1 lst' e',
    scan [nodeX] (seeded syncFactory [pkgX]) = Val L e1 /\
    layer aurNoGhost [nodeX] (seeded syncFactory [pkgX])
      = Val (Continue lst') e' /\
    new L = [nodeY] /\
    lst' = [nodeY; {| ID := 3; Pkg := unknownPkg "ghost" |}].
Proof.
  eexists _, _, _, _. split; [vm_compute; reflexivity|].
  split; [vm_compute; reflexivity|].
  destruct (next_frontier aurNoGhost
              (seeded syncFactory [pkgX]) [nodeX] _ _ _ _
              ltac:(vm_compute; reflexivity) ltac:(vm_compute; reflexivity))
    as (H1 & _ & H3).
  split; [|rewrite H3]; reflexivity.
Defined.

Lemma forM_fixed {S A B} (l : list A) (f : B -> A -> M S B) acc s :
  (forall a, a ∈ l -> f acc a s = Val acc s) -> forM l f acc s = Val acc s.
Proof.
  induction l as [|a l IH]; intros H; simpl; [done|].
  unfold bind. rewrite H by apply list_elem_of_here.
  apply IH. intros b Hb. apply H. by apply list_elem_of_further.
Qed.

(** X14. With the skip-installed option on, a pass over nodes whose
    dependencies are all installed, and none yet in the graph, finds
    nothing to do: the scan leaves the graph and the factory as they were,
    makes no node and no edge, schedules nothing, and the request that
    follows asks for no name. *)
Theorem scan_skips_installed
    (ReadAll : nat -> list string -> list AurPackage * option error)
    (e : Env) (lst : list Node) :
  skipInstalled (factory e) = true ->
  (forall v d, v ∈ lst -> d ∈ depFunc (factory e) (Pkg v) ->
     HasName (graph e) d = false /\ is_Some (local (factory e) !! d)) ->
  scan lst e = Val emptyLayer e /\
  requests (state_of (layer ReadAll lst e)) = requests e ++ [[]].
Proof.
  intros Hskip Hdeps.
  assert (Hs : scan lst e = Val emptyLayer e).
  { unfold scan. apply forM_fixed. intros v Hv.
    unfold scanNode, bind, getFactory. apply forM_fixed. intros d Hd.
    destruct (Hdeps v d Hv Hd) as [Hn Hl].
    unfold scanDep, bind, getGraph, getFactory. rewrite Hn, Hskip.
    by rewrite (bool_decide_eq_true_2 _ Hl). }
  split; [exact Hs|].
  by destruct (layer_one_request ReadAll lst e emptyLayer e Hs) as [-> _].
Qed.

Lemma scan_skips_installed_witness :
  scan [nodeX] (seeded (SetSkipInstalled true
                          {| local := {["y" := pkgY]}; sync := {["y" := pkgY]};
                             skipInstalled := false; truncate := false;
                             noUnknown := false; depFunc := defaultDepFunc;
                             aurCalls := 0 |}) [pkgX])
  = Val emptyLayer
        (seeded (SetSkipInstalled true
                   {| local := {["y" := pkgY]}; sync := {["y" := pkgY]};
                      skipInstalled := false; truncate := false;
                      noUnknown := false; depFunc := defaultDepFunc;
                      aurCalls := 0 |}) [pkgX]).
Proof.
  apply (scan_skips_installed aurSilent).
  - reflexivity.
  - intros v d Hv%list_elem_of_singleton Hd. subst v.
    apply list_elem_of_singleton in Hd. subst d. split; [vm_compute; reflexivity|].
    exists pkgY. vm_compute. reflexivity.
Defined.

(** ** Dependencies that are in the graph already *)

Lemma onlyLinked_refl e : consistent (graph e) -> onlyLinked e e.
Proof. intros Hg. unfold onlyLinked. split_and!; auto. Qed.

Lemma onlyLinked_trans e1 e2 e3 :
  onlyLinked e1 e2 -> onlyLinked e2 e3 -> onlyLinked e1 e3.
Proof.
  intros (a1 & b1 & c1 & d1 & n1 & g1 & h1) (a2 & b2 & c2 & d2 & n2 & g2 & h2).
  unfold onlyLinked. split_and!; try congruence; try done.
  intros a b Hb Hab. apply h2; [by rewrite d1|]. by apply h1.
Qed.

Lemma scanDep_existing v L d e u :
  consistent (graph e) -> v ∈ nodes (graph e) ->
  names (graph e) !! d = Some u ->
  exists e', scanDep v L d e = Val L e' /\ onlyLinked e e' /\
             edgeTo (graph e') v u.
Proof.
  intros Hg Hv Hd.
  assert (is_Some (edges (graph e) !! ID v)) as [row Hrow].
  { apply (edges_dom _ Hg). rewrite (ids_complete _ Hg _ Hv). eauto. }
  pose proof (AddEdgeFromTo_returns v u (graph e) row Hrow) as Hadd.
  pose proof (consistent_AddEdgeFromTo (graph e) v u Hg) as Hc.
  rewrite Hadd in Hc. cbn [state_of] in Hc.
  eexists. split.
  { unfold scanDep, bind at 1, getGraph. unfold bind at 1, getFactory.
    unfold HasName, NodeWithName. rewrite Hd.
    rewrite bool_decide_eq_true_2 by eauto.
    unfold bind, onGraph. rewrite Hadd. reflexivity. }
  split.
  - unfold onlyLinked. cbn [factory requests graph names nodes nextID].
    split_and!; try done.
    intros a b Hb Hab. eapply edgeTo_AddEdgeFromTo_keep; [exact Hadd| |exact Hab].
    intros Hid. apply (names_sound _ Hg) in Hd as [Hu _].
    apply (ids_complete _ Hg) in Hu, Hb. congruence.
  - cbn [graph]. by eapply edgeTo_AddEdgeFromTo_new.
Qed.

Lemma scanDeps_existing v L ds :
  forall e,
    consistent (graph e) -> v ∈ nodes (graph e) ->
    (forall d, d ∈ ds -> is_Some (names (graph e) !! d)) ->
    exists e', forM ds (scanDep v) L e = Val L e' /\ onlyLinked e e' /\
      forall d u, d ∈ ds -> names (graph e) !! d = Some u -> edgeTo (graph e') v u.
Proof.
  induction ds as [|d ds IH]; intros e Hg Hv Hds.
  - exists e. split; [done|]. split; [by apply onlyLinked_refl|].
    intros d u Hd. by apply elem_of_nil in Hd.
  - destruct (Hds d) as [u Hu]; [apply list_elem_of_here|].
    destruct (scanDep_existing v L d e u Hg Hv Hu) as (e1 & Hrun & Hl1 & He1).
    pose proof Hl1 as (_ & _ & Hnm & Hnd & _ & Hg1 & Hk1).
    assert (Hv1 : v ∈ nodes (graph e1)) by (by rewrite Hnd).
    assert (Hds1 : forall d', d' ∈ ds -> is_Some (names (graph e1) !! d')).
    { intros d' Hd'. rewrite Hnm. apply Hds. by apply list_elem_of_further. }
    destruct (IH e1 Hg1 Hv1 Hds1) as (e' & Hrest & Hl2 & He2).
    exists e'. simpl. unfold bind. rewrite Hrun. split; [exact Hrest|].
    split; [by eapply onlyLinked_trans|].
    intros d' u' [->|Hd']%elem_of_cons Hu'.
    + assert (u' = u) as -> by congruence.
      destruct Hl2 as (_ & _ & _ & _ & _ & _ & Hk2). apply Hk2; [|done].
      rewrite Hnd. by apply (names_sound _ Hg) in Hu as [? _].
    + apply (He2 d' u'); [done|]. by rewrite Hnm.
Qed.

Lemma scanNodes_existing lst :
  forall e,
    consistent (graph e) ->
    (forall v, v ∈ lst -> v ∈ nodes (graph e)) ->
    (forall v d, v ∈ lst -> d ∈ depFunc (factory e) (Pkg v) ->
                 is_Some (names (graph e) !! d)) ->
    exists e', forM lst scanNode emptyLayer e = Val emptyLayer e' /\
      onlyLinked e e' /\
      forall v d u, v ∈ lst -> d ∈ depFunc (factory e) (Pkg v) ->
                    names (graph e) !! d = Some u -> edgeTo (graph e') v u.
Proof.
  induction lst as [|v lst IH]; intros e Hg Hlst Hdeps.
  - exists e. split; [done|]. split; [by apply onlyLinked_refl|].
    intros v d u Hv. by apply elem_of_nil in Hv.
  - assert (Hv : v ∈ nodes (graph e)) by apply Hlst, list_elem_of_here.
    assert (Hds : forall d, d ∈ depFunc (factory e) (Pkg v) ->
                            is_Some (names (graph e) !! d)).
    { intros d Hd. by apply (Hdeps v d); [apply list_elem_of_here|]. }
    destruct (scanDeps_existing v emptyLayer (depFunc (factory e) (Pkg v)) e Hg Hv Hds)
      as (e1 & Hrun & Hl1 & He1).
    pose proof Hl1 as (Hf & _ & Hnm & Hnd & _ & Hg1 & Hk1).
    assert (Hlst1 : forall w, w ∈ lst -> w ∈ nodes (graph e1)).
    { intros w Hw. rewrite Hnd. by apply Hlst, list_elem_of_further. }
    assert (Hdeps1 : forall w d, w ∈ lst -> d ∈ depFunc (factory e1) (Pkg w) ->
                                 is_Some (names (graph e1) !! d)).
    { intros w d Hw Hd. rewrite Hnm. rewrite Hf in Hd.
      by apply (Hdeps w d); [apply list_elem_of_further|]. }
    destruct (IH e1 Hg1 Hlst1 Hdeps1) as (e' & Hrest & Hl2 & He2).
    exists e'. simpl. unfold bind at 1, scanNode at 1, bind at 1, getFactory.
    rewrite Hrun. split; [exact Hrest|]. split; [by eapply onlyLinked_trans|].
    intros w d u [->|Hw]%elem_of_cons Hd Hu.
    + destruct Hl2 as (_ & _ & _ & _ & _ & _ & Hk2). apply Hk2; [|by apply (He1 d u)].
      rewrite Hnd. by apply (names_sound _ Hg) in Hu as [? _].
    + apply (He2 w d u); [done|by rewrite Hf|by rewrite Hnm].
Qed.

(** X15. A pass over nodes of the graph whose dependencies all name nodes
    of the graph, as in a dependency cycle whose packages are all there,
    only links: the scan returns, it makes no node, schedules nothing and
    finds no name unavailable, it leaves the nodes, the name index and the
    counter of the graph as they were, and the graph has an edge object
    from every scanned node to the node of each of its dependencies. *)
Theorem scan_links_existing (cs : list Call) (e : Env) (lst : list Node) :
  graph e = calls cs NewGraph ->
  (forall v, v ∈ lst -> v ∈ Nodes (graph e)) ->
  (forall v d, v ∈ lst -> d ∈ depFunc (factory e) (Pkg v) ->
               HasName (graph e) d = true) ->
  exists e',
    scan lst e = Val emptyLayer e' /\
    factory e' = factory e /\ requests e' = requests e /\
    Nodes (graph e') = Nodes (graph e) /\
    nextID (graph e') = nextID (graph e) /\
    (forall s, NodeWithName (graph e') s = NodeWithName (graph e) s) /\
    (forall v d u, v ∈ lst -> d ∈ depFunc (factory e) (Pkg v) ->
                   NodeWithName (graph e) d = Some u -> edgeTo (graph e') v u).
Proof.
  intros Hcs Hlst Hdeps.
  assert (Hg : consistent (graph e))
    by (rewrite Hcs; apply consistent_calls, consistent_NewGraph).
  destruct (scanNodes_existing lst e Hg Hlst)
    as (e' & Hrun & (Hf & Hr & Hnm & Hnd & Hnx & _ & _) & He).
  { intros v d Hv Hd. apply HasName_true. by apply (Hdeps v d). }
  exists e'. split; [exact Hrun|]. unfold Nodes, NodeWithName.
  split_and!; try done. intros s. by rewrite Hnm.
Qed.

Lemma scan_links_existing_witness :
  exists e',
    scan [nodeA; nodeB] (seeded plainFactory [pkgA; pkgB]) = Val emptyLayer e' /\
    Nodes (graph e') = [nodeA; nodeB] /\
    edgeTo (graph e') nodeA nodeB /\ edgeTo (graph e') nodeB nodeA.
Proof.
  destruct (scan_links_existing
              [CallNewNodeID; CallAddNode nodeA; CallNewNodeID; CallAddNode nodeB]
              (seeded plainFactory [pkgA; pkgB]) [nodeA; nodeB])
    as (e' & Hrun & _ & _ & Hn & _ & _ & He).
  - vm_compute. reflexivity.
  - intros v Hv. vm_compute. exact Hv.
  - intros v d [->|[->|[]%elem_of_nil]%elem_of_cons]%elem_of_cons
           Hd%list_elem_of_singleton; subst d; vm_compute; reflexivity.
  - exists e'. split; [exact Hrun|]. split; [rewrite Hn; vm_compute; reflexivity|].
    split.
    + apply (He nodeA "b" nodeB); [apply list_elem_of_here|apply list_elem_of_here|].
      vm_compute. reflexivity.
    + apply (He nodeB "a" nodeA);
        [apply list_elem_of_further, list_elem_of_here|apply list_elem_of_here|].
      vm_compute. reflexivity.
Defined.

(** ** Packages the remote source finds *)

(** X16. In a pass of the loop that returns, on a graph built by calls of
    the mutators, every package the remote source found has one node in the
    graph and no other node has its name; the node comes from the remote
    source, it is among the nodes to process next, and the graph has an
    edge object to it from every scanned node that lists its name, when
    the graph, the local map and the sync map did not have that name. *)
Theorem found_package_node
    (ReadAll : nat -> list string -> list AurPackage * option error)
    (cs : list Call) (e : Env) (lst : list Node) (L : Layer) (e1 : Env)
    (pkgs : list AurPackage) (err : option error) (p : AurPackage)
    (lst' : list Node) (e' : Env) :
  graph e = calls cs NewGraph ->
  scan lst e = Val L e1 ->
  ReadAll (length (requests e)) (fromAUR (unavailable L)) = (pkgs, err) ->
  layer ReadAll lst e = Val (Continue lst') e' ->
  p ∈ pkgs ->
  exists u,
    Pkg u = OfAUR p /\ IsFromAUR u = true /\
    u ∈ Nodes (graph e') /\
    (forall w, w ∈ Nodes (graph e') -> PkgName (Pkg w) = aurName p -> w = u) /\
    u ∈ lst' /\
    (forall v, v ∈ lst -> aurName p ∈ depFunc (factory e) (Pkg v) ->
       HasName (graph e) (aurName p) = false ->
       local (factory e) !! aurName p = None ->
       sync (factory e) !! aurName p = None ->
       edgeTo (graph e') v u).
Proof.
  intros Hcs Hs Hr Hl Hp.
  assert (Hg : consistent (graph e))
    by (rewrite Hcs; apply consistent_calls, consistent_NewGraph).
  pose proof (scan_scanned _ _ _ _ Hs) as [Hfac Hreq _ _ Hc1 _].
  rewrite (layer_eq ReadAll lst e L e1 Hs), Hreq, Hr in Hl.
  set (e2 := state_of (fetch ReadAll (fromAUR (unavailable L)) e1)) in *.
  assert (Hadd : addAnswered (answered (pkgs, err)) L e2 = Val (Continue lst') e').
  { cbn [snd] in Hl. destruct err as [er|]; [|done].
    by destruct (fatal (factory e1) er). }
  clear Hl. unfold addAnswered in Hadd.
  destruct (forM (answered (pkgs, err)) addFetchedPkg L e2) as [L2 e3|] eqn:E;
    [|discriminate].
  injection Hadd as <- <-.
  assert (Hc2 : consistent (graph e2)) by (simpl; auto).
  destruct (addFetched_all _ _ _ _ _ (OfAUR p) Hc2 E)
    as (u & Hu & Hnew & Hnodes & Hedges).
  { unfold answered. apply elem_of_app. right. apply list_elem_of_fmap. eauto. }
  pose proof (addFetched_consistent _ _ _ _ _ Hc2 E) as Hc3.
  exists u. split; [done|]. split; [unfold IsFromAUR; by rewrite Hu|].
  split; [done|]. split; [|split; [done|]].
  - intros w Hw Hwd.
    pose proof (names_complete _ Hc3 _ Hw) as H1.
    pose proof (names_complete _ Hc3 _ Hnodes) as H2.
    rewrite Hu in H2. simpl in H2. rewrite Hwd in H1. congruence.
  - intros v Hv Hvd Hn Hlo Hsy. apply Hedges. simpl.
    by apply (scan_pending lst e L e1 v (aurName p) Hs).
Qed.

Lemma found_package_node_witness :
  exists u,
    Pkg u = OfAUR pkgB /\ IsFromAUR u = true /\
    u ∈ Nodes (graph (state_of (layer aurAB [nodeA] (seeded plainFactory [pkgA])))) /\
    u ∈ [nodeB] /\
    edgeTo (graph (state_of (layer aurAB [nodeA] (seeded plainFactory [pkgA])))) nodeA u.
Proof.
  destruct (found_package_node aurAB [CallNewNodeID; CallAddNode nodeA]
              (seeded plainFactory [pkgA]) [nodeA]
              (match scan [nodeA] (seeded plainFactory [pkgA]) with
               | Val L _ => L | Panic _ _ => emptyLayer end)
              (state_of (scan [nodeA] (seeded plainFactory [pkgA])))
              [pkgB] None pkgB [nodeB]
              (state_of (layer aurAB [nodeA] (seeded plainFactory [pkgA]))))
    as (u & H1 & H2 & H3 & _ & H5 & H6).
  - vm_compute. reflexivity.
  - vm_compute. reflexivity.
  - vm_compute. reflexivity.
  - vm_compute. reflexivity.
  - apply list_elem_of_here.
  - exists u. split; [exact H1|]. split; [exact H2|]. split; [exact H3|].
    split; [exact H5|]. apply H6.
    + apply list_elem_of_here.
    + apply list_elem_of_here.
    + vm_compute. reflexivity.
    + reflexivity.
    + reflexivity.
Defined.

(** X26. Take a pass of the loop over the nodes [lst], started on
    a graph built by calls of the mutators, in which the remote source
    reports names as not found while unknown packages are allowed, and a
    reported name [d] that the graph, the local map and the sync map did
    not have.  Whenever the pass returns, the graph then holds one node
    named [d] and no other; its package has origin Unknown and no
    dependencies; the node is in the list of nodes to process next; and
    the graph has an edge object to it from every node of [lst] that lists
    [d].  And the pass does return when the nodes of [lst] are nodes of the
    graph, the names the remote source answers with differ from each other
    and from those in the graph, and the identifiers do not run out. *)
Theorem unknown_dependency_placeholder
    (ReadAll : nat -> list string -> list AurPackage * option error)
    (cs : list Call) (e : Env) (lst : list Node) (L : Layer) (e1 : Env)
    (pkgs : list AurPackage) (names : list string) (d : string) :
  graph e = calls cs NewGraph ->
  scan lst e = Val L e1 ->
  ReadAll (length (requests e)) (fromAUR (unavailable L))
    = (pkgs, Some (NotFoundError names)) ->
  noUnknown (factory e) = false ->
  HasName (graph e) d = false ->
  local (factory e) !! d = None ->
  sync (factory e) !! d = None ->
  d ∈ names ->
  (forall lst' e',
     layer ReadAll lst e = Val (Continue lst') e' ->
     exists u,
       Pkg u = unknownPkg d /\
       u ∈ Nodes (graph e') /\
       (forall w, w ∈ Nodes (graph e') -> PkgName (Pkg w) = d -> w = u) /\
       u ∈ lst' /\
       (forall v, v ∈ lst -> d ∈ depFunc (factory e) (Pkg v) ->
                  edgeTo (graph e') v u)) /\
  ((forall v, v ∈ lst -> v ∈ Nodes (graph e)) ->
   idsBelow (graph e1) ->
   roomFor (length names + length pkgs) (graph e1) ->
   NoDup (names ++ map aurName pkgs) ->
   (forall s, s ∈ names ++ map aurName pkgs -> HasName (graph e) s = false) ->
   exists lst' e', layer ReadAll lst e = Val (Continue lst') e').
Proof.
  intros Hcs Hs Hr Hno Hn Hl Hsy Hd.
  assert (Hg : consistent (graph e))
    by (rewrite Hcs; apply consistent_calls, consistent_NewGraph).
  split; [|by apply (layer_returns ReadAll lst e L e1 pkgs names)].
  intros lst' e' Hlayer.
  pose proof (scan_scanned _ _ _ _ Hs) as [Hfac Hreq _ _ Hc1 _].
  rewrite (layer_not_found ReadAll lst e L e1 pkgs names Hs) in Hlayer;
    [|by rewrite Hreq|by rewrite Hfac].
  set (e2 := state_of (fetch ReadAll (fromAUR (unavailable L)) e1)) in *.
  destruct (forM _ addFetchedPkg L e2) as [L2 e3|] eqn:E; [|discriminate].
  injection Hlayer as <- <-.
  assert (Hc2 : consistent (graph e2)) by (simpl; auto).
  destruct (addFetched_all _ _ _ _ _ (unknownPkg d) Hc2 E)
    as (u & Hu & Hnew & Hnodes & Hedges).
  { apply elem_of_app. left. apply list_elem_of_fmap. eauto. }
  pose proof (addFetched_consistent _ _ _ _ _ Hc2 E) as Hc3.
  exists u. split; [done|]. split; [done|]. split; [|split; [done|]].
  - intros w Hw Hwd.
    pose proof (names_complete _ Hc3 _ Hw) as H1.
    pose proof (names_complete _ Hc3 _ Hnodes) as H2.
    rewrite Hu in H2. simpl in H2. rewrite Hwd in H1. congruence.
  - intros v Hv Hvd. apply Hedges. simpl.
    by apply (scan_pending lst e L e1 v d Hs).
Qed.

Lemma unknown_dependency_placeholder_witness :
  (exists lst' e',
     layer aurNoGhost [nodeH] (seeded plainFactory [pkgH]) = Val (Continue lst') e') /\
  (exists u,
     Pkg u = unknownPkg "ghost" /\
     u ∈ Nodes (graph (state_of (layer aurNoGhost [nodeH] (seeded plainFactory [pkgH])))) /\
     (forall w,
        w ∈ Nodes (graph (state_of (layer aurNoGhost [nodeH] (seeded plainFactory [pkgH])))) ->
        PkgName (Pkg w) = "ghost" -> w = u) /\
     u ∈ [nodeGhost] /\
     (forall v, v ∈ [nodeH] -> "ghost" ∈ depFunc plainFactory (Pkg v) ->
        edgeTo (graph (state_of (layer aurNoGhost [nodeH] (seeded plainFactory [pkgH])))) v u)).
Proof.
  destruct (unknown_dependency_placeholder aurNoGhost
              [CallNewNodeID; CallAddNode nodeH]
              (seeded plainFactory [pkgH]) [nodeH]
              (match scan [nodeH] (seeded plainFactory [pkgH]) with
               | Val L _ => L | Panic _ _ => emptyLayer end)
              (state_of (scan [nodeH] (seeded plainFactory [pkgH])))
              [] ["ghost"] "ghost") as [Hthen Hreturns].
  - vm_compute. reflexivity.
  - vm_compute. reflexivity.
  - reflexivity.
  - reflexivity.
  - vm_compute. reflexivity.
  - reflexivity.
  - reflexivity.
  - apply list_elem_of_here.
  - split.
    + apply Hreturns.
      * intros v Hv%list_elem_of_singleton. subst v. vm_compute.
        apply list_elem_of_here.
      * intros n. vm_compute. intros Hn%list_elem_of_singleton. subst n.
        vm_compute. discriminate.
      * split; vm_compute; [discriminate|reflexivity].
      * apply NoDup_singleton.
      * intros s Hs%list_elem_of_singleton. subst s. vm_compute. reflexivity.
    + apply (Hthen [nodeGhost]). vm_compute. reflexivity.
Defined.

(** ** What a run leaves of the factory *)

Section RunFacts.

Variable ReadAll : nat -> list string -> list AurPackage * option error.

Lemma layer_nil_factory e :
  factory (state_of (layer ReadAll [] e)) = factory (state_of (fetch ReadAll [] e)).
Proof.
  rewrite layer_nil_eq.
  pose proof (addAnswered_frame (answered (ReadAll (length (requests e)) []))
                emptyLayer (state_of (fetch ReadAll [] e))) as (_ & Hf & _).
  destruct (ReadAll (length (requests e)) []).2 as [err|]; [|done].
  by destruct (fatal (factory e) err).
Qed.

Lemma resolve_counts fuel :
  forall lst e,
    - 2 ^ 63 <= aurCalls (factory e) ->
    aurCalls (factory e) + Z.of_nat fuel < 2 ^ 63 ->
    exists k,
      (k <= fuel)%nat /\
      requests (resolve ReadAll fuel lst e).2 = requests e ++ replicate k [] /\
      sameOptions (factory e) (factory (resolve ReadAll fuel lst e).2) /\
      aurCalls (factory (resolve ReadAll fuel lst e).2)
        = aurCalls (factory e) + Z.of_nat k.
Proof.
  induction fuel as [|fuel IH]; intros lst e Hlo Hhi.
  - exists 0%nat. simpl. destruct (bool_decide _); simpl;
      rewrite app_nil_r, Z.add_0_r; by split_and!.
  - simpl. destruct lst as [|v lst]; simpl.
    2:{ exists 0%nat. simpl. rewrite app_nil_r, Z.add_0_r. split_and!; [lia|done..]. }
    pose proof (layer_nil_log ReadAll e) as Hq.
    pose proof (layer_nil_factory e) as Hf.
    assert (Hstep : sameOptions (factory e) (factory (state_of (layer ReadAll [] e))) /\
                    aurCalls (factory (state_of (layer ReadAll [] e)))
                    = aurCalls (factory e) + 1).
    { rewrite Hf. simpl. split; [done|]. apply wrap_int_small. lia. }
    destruct Hstep as [Hopt Hcnt].
    destruct (layer ReadAll [] e) as [[lst'|err] e3|msg e3]; simpl in *.
    + destruct (IH lst' e3) as (k & Hk & Hreq & Hopt' & Hcnt'); [lia|lia|].
      exists (S k). split; [lia|]. rewrite Hreq, Hq, <- app_assoc. split; [done|].
      split.
      * destruct Hopt as (a1 & a2 & a3 & a4 & a5 & a6).
        destruct Hopt' as (b1 & b2 & b3 & b4 & b5 & b6).
        unfold sameOptions. split_and!; congruence.
      * rewrite Hcnt', Hcnt. lia.
    + exists 1%nat. split; [lia|]. split; [done|]. split; [done|]. rewrite Hcnt. lia.
    + exists 1%nat. split; [lia|]. split; [done|]. split; [done|]. rewrite Hcnt. lia.
Qed.

End RunFacts.

(** X17. A run of [Factory.NewGraph] changes nothing of the factory but
    its counter: the two maps, the three options and the dependency
    function are as before.  The requests it sends, at most one for each
    unit of fuel, all ask for no name, the loop running only while there
    is no node to process; and, short of overflow, [NumRequestsAUR] has
    grown by their number. *)
Theorem NewGraph_counts_requests
    (ReadAll : nat -> list string -> list AurPackage * option error)
    (fuel : nat) (f : Factory) (reqs : list (list string))
    (pkgs : list AurPackage) :
  - 2 ^ 63 <= NumRequestsAUR f ->
  NumRequestsAUR f + Z.of_nat fuel < 2 ^ 63 ->
  exists k,
    (k <= fuel)%nat /\
    requests (Factory_NewGraph ReadAll fuel f reqs pkgs).2 = reqs ++ replicate k [] /\
    sameOptions f (factory (Factory_NewGraph ReadAll fuel f reqs pkgs).2) /\
    NumRequestsAUR (factory (Factory_NewGraph ReadAll fuel f reqs pkgs).2)
      = NumRequestsAUR f + Z.of_nat k.
Proof.
  unfold NumRequestsAUR. intros Hlo Hhi. unfold Factory_NewGraph.
  pose proof (seed_frame pkgs {| factory := f; graph := NewGraph; requests := reqs |})
    as [Hf Hr].
  destruct (seed pkgs _) as [lst e|msg e]; simpl in *.
  - destruct (resolve_counts ReadAll fuel lst e) as (k & Hk & Hreq & Hopt & Hcnt);
      [by rewrite Hf|by rewrite Hf|].
    exists k. rewrite Hreq, Hcnt, Hr. rewrite Hf in Hopt. rewrite Hf. auto.
  - exists 0%nat. simpl. rewrite app_nil_r, Z.add_0_r, Hf, Hr.
    split_and!; [lia|done..].
Qed.

Lemma NewGraph_counts_requests_witness :
  exists k,
    (k <= 3)%nat /\
    requests (Factory_NewGraph aurSilent 3 plainFactory [] []).2 = [] ++ replicate k [] /\
    sameOptions plainFactory (factory (Factory_NewGraph aurSilent 3 plainFactory [] []).2) /\
    NumRequestsAUR (factory (Factory_NewGraph aurSilent 3 plainFactory [] []).2)
      = NumRequestsAUR plainFactory + Z.of_nat k.
Proof.
  apply (NewGraph_counts_requests aurSilent 3 plainFactory [] []);
    vm_compute; [discriminate|reflexivity].
Defined.

(** ** Properties of the database reader *)

Lemma substring_full (s : string) :
  String.substring 0 (String.length s) s = s.
Proof. induction s as [|a s IH]; simpl; [done|by rewrite IH]. Qed.

Lemma substring_append_suffix (b t : string) :
  String.substring (String.length b) (String.length t) (b ++ t)%string = t.
Proof.
  induction b as [|a b IH]; [apply substring_full|].
  change (String a b ++ t)%string with (String a (b ++ t)%string).
  exact IH.
Qed.

Lemma substring_split (s : string) (n : nat) :
  (n <= String.length s)%nat ->
  s = (String.substring 0 n s
       ++ String.substring n (String.length s - n) s)%string.
Proof.
  revert n. induction s as [|a s IH]; intros [|n] Hn; simpl in *; try lia.
  - done.
  - by rewrite substring_full.
  - change (String a s = String a (String.substring 0 n s
       ++ String.substring n (String.length s - n) s)%string).
    f_equal. apply IH. lia.
Qed.

Lemma string_length_append (b t : string) :
  String.length (b ++ t)%string = (String.length b + String.length t)%nat.
Proof.
  induction b as [|a b IH]; [done|].
  change (String a b ++ t)%string with (String a (b ++ t)%string).
  simpl. by rewrite IH.
Qed.

Lemma HasSuffix_iff (s t : string) :
  HasSuffix s t = true <-> exists b, s = (b ++ t)%string.
Proof.
  unfold HasSuffix. rewrite andb_true_iff, Nat.leb_le, String.eqb_eq. split.
  - intros [Hlen Hsub].
    exists (String.substring 0 (String.length s - String.length t) s).
    assert (Hn : (String.length s - String.length t <= String.length s)%nat)
      by lia.
    pose proof (substring_split s _ Hn) as Hs.
    replace (String.length s - (String.length s - String.length t))%nat
      with (String.length t) in Hs by lia.
    by rewrite Hsub in Hs.
  - intros [b ->]. rewrite string_length_append. split; [lia|].
    replace (String.length b + String.length t - String.length t)%nat
      with (String.length b) by lia.
    apply substring_append_suffix.
Qed.

(** X18.  A file name has the database format exactly when it is some
    string followed by [.db.tar.gz]; the string may be empty. *)
Theorem HasDatabaseFormat_iff (filename : string) :
  HasDatabaseFormat filename = true
  <-> exists base, filename = (base ++ ".db.tar.gz")%string.
Proof. apply HasSuffix_iff. Qed.

Lemma isHeader_nonblank (line : string) :
  isHeader line = true -> line <> "".
Proof. by intros H ->. Qed.

Section DatabaseFacts.

Variable E : Type.
Variable TrimSpace : string -> string.
Variable ToLower : string -> string.
Variable ParseInt : string -> option Z.
Variable ParseUint : string -> option Z.
Variable pathDir : string -> string.
Variable pathJoin : string -> string -> string.

Local Abbreviation field := (dbField E ParseInt ParseUint pathDir pathJoin).
Local Abbreviation scanLines :=
  (dbLines E TrimSpace ToLower ParseInt ParseUint pathDir pathJoin).

Lemma dbLines_app (dbpath : string) (l1 l2 : list string) (st : string)
    (info : DbPackage) :
  scanLines dbpath (l1 ++ l2) st info
  = match scanLines dbpath l1 st info with
    | inl err => inl err
    | inr (st', info') => scanLines dbpath l2 st' info'
    end.
Proof.
  revert st info. induction l1 as [|text l1 IH]; intros st info; simpl.
  - done.
  - destruct (String.eqb (TrimSpace text) ""); [apply IH|].
    destruct (isHeader (TrimSpace text)); [apply IH|].
    destruct (field dbpath st (TrimSpace text) info); [done|apply IH].
Qed.

Lemma dbLines_blank (dbpath text : string) (l : list string) (st : string)
    (info : DbPackage) :
  TrimSpace text = "" ->
  scanLines dbpath (text :: l) st info = scanLines dbpath l st info.
Proof. intros H. simpl. by rewrite H. Qed.

Lemma dbLines_header (dbpath text k : string) (l : list string) (st : string)
    (info : DbPackage) :
  opensSection TrimSpace ToLower text k = true ->
  scanLines dbpath (text :: l) st info = scanLines dbpath l k info.
Proof.
  unfold opensSection. rewrite andb_true_iff, String.eqb_eq.
  intros [Hh Hk]. simpl. rewrite Hh, Hk.
  apply isHeader_nonblank in Hh. apply String.eqb_neq in Hh. by rewrite Hh.
Qed.

Lemma dbLines_content (dbpath text : string) (l : list string) (st : string)
    (info : DbPackage) :
  isContent TrimSpace text = true ->
  scanLines dbpath (text :: l) st info
  = match field dbpath st (TrimSpace text) info with
    | inl err => inl err
    | inr info' => scanLines dbpath l st info'
    end.
Proof.
  unfold isContent. rewrite andb_true_iff, !negb_true_iff.
  intros [Hb Hh]. simpl. by rewrite Hb, Hh.
Qed.

Lemma dbField_unknown (dbpath st line : string) (info : DbPackage) :
  st ∉ knownFields ->
  field dbpath st line info = inl (UnknownField st).
Proof.
  intros H. unfold dbField.
  repeat match goal with
  | |- context [String.eqb st ?k] =>
      destruct (String.eqb_spec st k) as [->|_];
      [exfalso; apply H; unfold knownFields; repeat constructor|]
  end.
  reflexivity.
Qed.

Lemma dbField_ignored (dbpath st line : string) (info : DbPackage) :
  st ∈ ignoredFields ->
  field dbpath st line info = inr info.
Proof.
  intros H. apply list_elem_of_In in H. simpl in H.
  destruct H as [<-|[<-|[<-|[<-|[]]]]]; reflexivity.
Qed.

Lemma dbLines_ignored (dbpath st : string) (cs : list string)
    (info : DbPackage) :
  st ∈ ignoredFields ->
  Forall (fun text => isContent TrimSpace text = true) cs ->
  scanLines dbpath cs st info = inr (st, info).
Proof.
  intros Hst Hcs. induction Hcs as [|text cs Ht _ IH]; [done|].
  rewrite (dbLines_content _ _ _ _ _ Ht), (dbField_ignored _ _ _ _ Hst).
  exact IH.
Qed.

Lemma dbLines_depends (dbpath : string) (cs : list string)
    (info : DbPackage) :
  Forall (fun text => isContent TrimSpace text = true) cs ->
  exists info',
    scanLines dbpath cs "depends" info = inr ("depends", info')
    /\ dbName info' = dbName info
    /\ dbDepends info' = dbDepends info ++ (TrimSpace <$> cs)
    /\ dbMakeDepends info' = dbMakeDepends info
    /\ dbOrigin info' = dbOrigin info.
Proof.
  intros Hcs. revert info.
  induction Hcs as [|text cs Ht _ IH]; intros info.
  - exists info. simpl. by rewrite app_nil_r.
  - rewrite (dbLines_content _ _ _ _ _ Ht).
    change (field dbpath "depends" (TrimSpace text) info)
      with (inr (addDepends (TrimSpace text) info) : DbError E + DbPackage).
    destruct (IH (addDepends (TrimSpace text) info))
      as (info' & Hrun & Hn & Hd & Hm & Ho).
    exists info'. split_and!; try done.
    rewrite Hd. simpl. by rewrite <- app_assoc.
Qed.

Lemma dbLines_makedepends (dbpath : string) (cs : list string)
    (info : DbPackage) :
  Forall (fun text => isContent TrimSpace text = true) cs ->
  exists info',
    scanLines dbpath cs "makedepends" info = inr ("makedepends", info')
    /\ dbName info' = dbName info
    /\ dbDepends info' = dbDepends info
    /\ dbMakeDepends info' = dbMakeDepends info ++ (TrimSpace <$> cs)
    /\ dbOrigin info' = dbOrigin info.
Proof.
  intros Hcs. revert info.
  induction Hcs as [|text cs Ht _ IH]; intros info.
  - exists info. simpl. by rewrite app_nil_r.
  - rewrite (dbLines_content _ _ _ _ _ Ht).
    change (field dbpath "makedepends" (TrimSpace text) info)
      with (inr (addMakeDepends (TrimSpace text) info)
            : DbError E + DbPackage).
    destruct (IH (addMakeDepends (TrimSpace text) info))
      as (info' & Hrun & Hn & Hd & Hm & Ho).
    exists info'. split_and!; try done.
    rewrite Hm. simpl. by rewrite <- app_assoc.
Qed.

Lemma dbField_origin (dbpath st line : string) (info info' : DbPackage) :
  field dbpath st line info = inr info' ->
  dbOrigin info' = dbOrigin info.
Proof.
  unfold dbField.
  repeat match goal with
  | |- context [String.eqb st ?k] => destruct (String.eqb st k)
  end;
  try (destruct (ParseInt line)); try (destruct (ParseUint line));
  intros H; by inversion H.
Qed.

Lemma dbLines_origin (dbpath : string) (lines : list string)
    (st st' : string) (info info' : DbPackage) :
  scanLines dbpath lines st info = inr (st', info') ->
  dbOrigin info' = dbOrigin info.
Proof.
  revert st info. induction lines as [|text lines IH]; intros st info; simpl.
  - intros H. by inversion H.
  - destruct (String.eqb (TrimSpace text) ""); [apply IH|].
    destruct (isHeader (TrimSpace text)); [apply IH|].
    destruct (field dbpath st (TrimSpace text) info) as [err|info1] eqn:Hf;
      [done|].
    intros H. rewrite (IH _ _ H). by apply dbField_origin in Hf.
Qed.

Lemma dbField_not_scan (dbpath st line : string) (info : DbPackage)
    (err : DbError E) (e : E) :
  field dbpath st line info = inl err -> err <> ScanError e.
Proof.
  unfold dbField.
  repeat match goal with
  | |- context [String.eqb st ?k] => destruct (String.eqb st k)
  end;
  try (destruct (ParseInt line)); try (destruct (ParseUint line));
  intros H; inversion H; done.
Qed.

Lemma dbLines_not_scan (dbpath : string) (lines : list string)
    (st : string) (info : DbPackage) (err : DbError E) (e : E) :
  scanLines dbpath lines st info = inl err -> err <> ScanError e.
Proof.
  revert st info. induction lines as [|text lines IH]; intros st info; simpl.
  - done.
  - destruct (String.eqb (TrimSpace text) ""); [apply IH|].
    destruct (isHeader (TrimSpace text)); [apply IH|].
    destruct (field dbpath st (TrimSpace text) info) as [err'|info1] eqn:Hf;
      [|apply IH].
    intros H. inversion H. subst err'.
    by apply (dbField_not_scan _ _ _ _ _ e) in Hf.
Qed.

(** X19.  A line that is blank once trimmed changes nothing, wherever it
    stands among the lines of an entry. *)
Theorem blank_line_ignored (l1 l2 : list string) (text : string)
    (scanErr : option E) (dbpath : string) :
  TrimSpace text = "" ->
  readDatabasePkgInfo E TrimSpace ToLower ParseInt ParseUint pathDir
      pathJoin (l1 ++ text :: l2) scanErr dbpath
  = readDatabasePkgInfo E TrimSpace ToLower ParseInt ParseUint pathDir
        pathJoin (l1 ++ l2) scanErr dbpath.
Proof.
  intros H. unfold readDatabasePkgInfo. rewrite !dbLines_app.
  destruct (scanLines dbpath l1 "" emptyDbPackage) as [err|[st info]];
    [done|].
  by rewrite (dbLines_blank _ _ _ _ _ H).
Qed.

(** X20.  A line of content in a section whose name the switch does not
    know is refused with the error that names the section, whatever
    follows and whatever the scanner ends with; before any header the
    section is the empty string. *)
Theorem content_outside_known_section (lines : list string) (st : string)
    (info : DbPackage) (text : string) (rest : list string)
    (scanErr : option E) (dbpath : string) :
  dbLines E TrimSpace ToLower ParseInt ParseUint pathDir pathJoin
      dbpath lines "" emptyDbPackage = inr (st, info) ->
  st ∉ knownFields ->
  isContent TrimSpace text = true ->
  readDatabasePkgInfo E TrimSpace ToLower ParseInt ParseUint pathDir
      pathJoin (lines ++ text :: rest) scanErr dbpath = inl (UnknownField st).
Proof.
  intros Hrun Hst Ht. unfold readDatabasePkgInfo.
  rewrite dbLines_app, Hrun, (dbLines_content _ _ _ _ _ Ht).
  by rewrite (dbField_unknown _ _ _ _ Hst).
Qed.

(** X21.  An entry with a name, dependencies and build dependencies: the
    record returned has the trimmed name, the trimmed dependencies of each
    kind in the order of the lines, and the origin of a database. *)
Theorem entry_read (hName name hDepends : string) (deps : list string)
    (hMake : string) (mdeps : list string) (dbpath : string) :
  opensSection TrimSpace ToLower hName "name" = true ->
  isContent TrimSpace name = true ->
  opensSection TrimSpace ToLower hDepends "depends" = true ->
  Forall (fun text => isContent TrimSpace text = true) deps ->
  opensSection TrimSpace ToLower hMake "makedepends" = true ->
  Forall (fun text => isContent TrimSpace text = true) mdeps ->
  exists info,
    readDatabasePkgInfo E TrimSpace ToLower ParseInt ParseUint pathDir
        pathJoin (hName :: name :: hDepends :: deps ++ hMake :: mdeps)
             None dbpath = inr info
    /\ asPackage info
       = {| Name := TrimSpace name; Origin_of := DatabaseOrigin;
            Depends := TrimSpace <$> deps;
            MakeDepends := TrimSpace <$> mdeps |}.
Proof.
  intros HhN Hn HhD Hds HhM Hms. unfold readDatabasePkgInfo.
  rewrite (dbLines_header _ _ _ _ _ _ HhN), (dbLines_content _ _ _ _ _ Hn).
  change (field dbpath "name" (TrimSpace name) emptyDbPackage)
    with (inr (setName (TrimSpace name) emptyDbPackage)
          : DbError E + DbPackage).
  cbv beta iota.
  rewrite (dbLines_header _ _ _ _ _ _ HhD), dbLines_app.
  destruct (dbLines_depends dbpath deps
              (setName (TrimSpace name) emptyDbPackage) Hds)
    as (i1 & Hrun1 & Hn1 & Hd1 & Hm1 & Ho1).
  rewrite Hrun1, (dbLines_header _ _ _ _ _ _ HhM).
  destruct (dbLines_makedepends dbpath mdeps i1 Hms)
    as (i2 & Hrun2 & Hn2 & Hd2 & Hm2 & Ho2).
  rewrite Hrun2. exists i2. split; [done|].
  unfold asPackage. rewrite Hn2, Hd2, Hm2, Ho2, Hn1, Hd1, Hm1, Ho1.
  reflexivity.
Qed.

(** X22.  The lines of content of a section named isize, md5sum, pgpsig or
    sha256sum are read without effect: the result is that of the entry
    without them. *)
Theorem ignored_section (l1 : list string) (header k : string)
    (cs l2 : list string) (scanErr : option E) (dbpath : string) :
  opensSection TrimSpace ToLower header k = true ->
  k ∈ ignoredFields ->
  Forall (fun text => isContent TrimSpace text = true) cs ->
  readDatabasePkgInfo E TrimSpace ToLower ParseInt ParseUint pathDir
      pathJoin (l1 ++ header :: cs ++ l2) scanErr dbpath
  = readDatabasePkgInfo E TrimSpace ToLower ParseInt ParseUint pathDir
        pathJoin (l1 ++ header :: l2) scanErr dbpath.
Proof.
  intros Hh Hk Hcs. unfold readDatabasePkgInfo. rewrite !dbLines_app.
  destruct (scanLines dbpath l1 "" emptyDbPackage) as [err|[st info]];
    [done|].
  rewrite !(dbLines_header _ _ _ _ _ _ Hh), dbLines_app.
  by rewrite (dbLines_ignored _ _ _ _ Hk Hcs).
Qed.

(** X23.  The error of a refused line stands: more lines after it, and an
    error of the scanner, do not change what is returned. *)
Theorem first_error_stands (l1 l2 : list string) (err : DbError E)
    (scanErr : option E) (dbpath : string) :
  readDatabasePkgInfo E TrimSpace ToLower ParseInt ParseUint pathDir
      pathJoin l1 None dbpath = inl err ->
  readDatabasePkgInfo E TrimSpace ToLower ParseInt ParseUint pathDir
      pathJoin (l1 ++ l2) scanErr dbpath = inl err.
Proof.
  unfold readDatabasePkgInfo. rewrite dbLines_app.
  destruct (scanLines dbpath l1 "" emptyDbPackage) as [err'|[st info]].
  - intros H. by inversion H.
  - intros H. inversion H.
Qed.

(** X24.  The error of the scanner is returned exactly when every line
    was accepted. *)
Theorem scanner_error_last (lines : list string) (e : E) (dbpath : string) :
  readDatabasePkgInfo E TrimSpace ToLower ParseInt ParseUint pathDir
      pathJoin lines (Some e) dbpath = inl (ScanError e)
  <-> exists info,
        readDatabasePkgInfo E TrimSpace ToLower ParseInt ParseUint pathDir
            pathJoin lines None dbpath = inr info.
Proof.
  unfold readDatabasePkgInfo.
  destruct (scanLines dbpath lines "" emptyDbPackage) as [err|[st info]]
    eqn:Hrun.
  - split.
    + intros H. inversion H. subst err.
      by apply (dbLines_not_scan _ _ _ _ _ e) in Hrun.
    + intros [info H]. inversion H.
  - split; [by exists info|done].
Qed.

(** X25.  Every record returned has the origin of a database, whatever
    the lines say. *)
Theorem returned_origin (lines : list string) (scanErr : option E)
    (dbpath : string) (info : DbPackage) :
  readDatabasePkgInfo E TrimSpace ToLower ParseInt ParseUint pathDir
      pathJoin lines scanErr dbpath = inr info ->
  dbOrigin info = DatabaseOrigin.
Proof.
  unfold readDatabasePkgInfo.
  destruct (scanLines dbpath lines "" emptyDbPackage) as [err|[st info']]
    eqn:Hrun; [done|].
  destruct scanErr; [done|]. intros H. inversion H. subst info'.
  by apply dbLines_origin in Hrun.
Qed.

End DatabaseFacts.

Lemma blank_line_ignored_witness :
  readEntry (["%NAME%"] ++ "   " :: ["repoctl"]) None "core.db.tar.gz"
  = readEntry (["%NAME%"] ++ ["repoctl"]) None "core.db.tar.gz".
Proof.
  apply (blank_line_ignored string asciiTrimSpace asciiToLower).
  reflexivity.
Defined.

Lemma content_outside_known_section_witness :
  readEntry ([] ++ "repoctl" :: ["%NAME%"]) (Some "EOF") "core.db.tar.gz"
  = inl (UnknownField "").
Proof.
  apply (content_outside_known_section string asciiTrimSpace asciiToLower
           _ _ _ _ [] "" emptyDbPackage).
  - reflexivity.
  - apply (bool_decide_eq_true_1 _). reflexivity.
  - reflexivity.
Defined.

Lemma entry_read_witness :
  exists info,
    readEntry ("%NAME%" :: "repoctl" :: "%DEPENDS%"
               :: ["pacman"; "  glibc  "] ++ "%MAKEDEPENDS%" :: ["go"])
              None "core.db.tar.gz" = inr info
    /\ asPackage info
       = {| Name := "repoctl"; Origin_of := DatabaseOrigin;
            Depends := ["pacman"; "glibc"]; MakeDepends := ["go"] |}.
Proof.
  apply (entry_read string asciiTrimSpace asciiToLower);
    try reflexivity; repeat constructor.
Defined.

Lemma ignored_section_witness :
  readEntry (["%NAME%"; "repoctl"] ++ "%MD5SUM%" :: ["d41d8cd98f"] ++ [])
            None "core.db.tar.gz"
  = readEntry (["%NAME%"; "repoctl"] ++ "%MD5SUM%" :: []) None
              "core.db.tar.gz".
Proof.
  apply (ignored_section string asciiTrimSpace asciiToLower
           _ _ _ _ _ _ "md5sum").
  - reflexivity.
  - repeat constructor.
  - repeat constructor.
Defined.

Lemma first_error_stands_witness :
  readEntry (["%BUILDDATE%"; "yesterday"] ++ ["%NAME%"; "repoctl"])
            (Some "EOF") "core.db.tar.gz"
  = inl (CannotParseBuildTime "yesterday").
Proof.
  apply (first_error_stands string asciiTrimSpace asciiToLower).
  reflexivity.
Defined.

Lemma returned_origin_witness :
  exists info,
    readEntry entryLines None "core.db.tar.gz" = inr info
    /\ dbOrigin info = DatabaseOrigin.
Proof.
  eexists. split; [reflexivity|].
  apply (returned_origin string asciiTrimSpace asciiToLower
           (fun _ => None) (fun _ => None) (fun p => p)
           (fun dir file => (dir ++ "/" ++ file)%string)
           entryLines None "core.db.tar.gz").
  reflexivity.
Defined.
